(** * Storage listing ([internal/storage/ls/ls.go])

    A shallow embedding of the storage listing command: the address parser
    [ParseStorageURL], the path splitter [SplitBucketPrefix], the
    single-level listing [IterateStoragePaths] and the recursive walk
    [IterateStoragePathsAll], together with the properties the design
    document states about them; then the two functions that collect a
    listing, [ListStoragePaths] and [ListStoragePathsAll], and the command
    [Run], with further properties read off the code.

    Conventions.  Go strings are byte strings and are modelled by [string];
    Go [int] values are modelled by [Z] (no run of the program gets near
    the 64-bit bound: every counter is bounded by a string length or by the
    number of backend calls made so far).  The two loops that need not
    terminate (pagination and the directory queue) take a fuel argument and
    report [Timeout] when it runs out.  The storage client, the consumer's
    callback, Go's [url.Parse], [utils.LoadProjectRef] and [fmt.Println]
    are collaborators: the code is modelled over arbitrary ones, which may
    keep a state and may fail ([fmt.Println] may fail too, but [Run] drops
    its result).  The context [ctx] is only handed on to the storage
    client; a cancelled context shows as a failing call.  The progress line
    written to standard error between two pages is left out. *)

From Stdlib Require Import String Ascii List ZArith Lia Bool.
Import ListNotations.

Local Open Scope string_scope.
Local Open Scope Z_scope.

(** ** The fragments of Go's [strings] and [path] packages the file uses *)

Module strings.

(** [len(s)] *)
Definition len (s : string) : Z := Z.of_nat (String.length s).

(** [s[lo:hi]] *)
Definition slice (s : string) (lo hi : Z) : string :=
  substring (Z.to_nat lo) (Z.to_nat (hi - lo)) s.

(** [s[lo:]] *)
Definition slice_from (s : string) (lo : Z) : string :=
  slice s lo (len s).

(** [len(s) >= len(prefix) && s[:len(prefix)] == prefix] *)
Definition HasPrefix (s prefix : string) : bool :=
  (len prefix <=? len s) && (slice s 0 (len prefix) =? prefix)%string.

(** [len(s) >= len(suffix) && s[len(s)-len(suffix):] == suffix] *)
Definition HasSuffix (s suffix : string) : bool :=
  (len suffix <=? len s) && (slice_from s (len s - len suffix) =? suffix)%string.

(** [strings.IndexByte(s, c)]: index of the first [c] in [s], or [-1]. *)
Fixpoint IndexByte (s : string) (c : ascii) : Z :=
  match s with
  | EmptyString => -1
  | String a s' =>
      if Ascii.eqb a c then 0
      else let r := IndexByte s' c in if r <? 0 then -1 else r + 1
  end.

(** [strings.LastIndex(s, "/")] for a one-byte separator: index of the
    last [c] in [s], or [-1]. *)
Fixpoint LastIndexByte (s : string) (c : ascii) : Z :=
  match s with
  | EmptyString => -1
  | String a s' =>
      let r := LastIndexByte s' c in
      if 0 <=? r then r + 1 else if Ascii.eqb a c then 0 else -1
  end.

(** [strings.ToLower] on ASCII letters; other bytes are kept.  (The only
    use is on a URL scheme, which [url.Parse] restricts to ASCII.) *)
Definition lower_byte (c : ascii) : ascii :=
  let n := nat_of_ascii c in
  if (65 <=? n)%nat && (n <=? 90)%nat then ascii_of_nat (n + 32) else c.

Fixpoint ToLower (s : string) : string :=
  match s with
  | EmptyString => EmptyString
  | String c s' => String (lower_byte c) (ToLower s')
  end.

End strings.

Module path.

(** [path.Split]: [i := strings.LastIndex(path, "/");
    return path[:i+1], path[i+1:]] *)
Definition Split (p : string) : string * string :=
  let i := strings.LastIndexByte p "/" in
  (strings.slice p 0 (i + 1), strings.slice_from p (i + 1)).

End path.

(** ** [SplitBucketPrefix] *)

(** [objectPath[0] == '/'], used only on a non-empty [objectPath]. *)
Definition first_byte_is_slash (objectPath : string) : bool :=
  match String.get 0 objectPath with
  | Some c => Ascii.eqb c "/"
  | None => false
  end.

Definition SplitBucketPrefix (objectPath : string) : string * string :=
  if (objectPath =? "")%string || (objectPath =? "/")%string then ("", "")
  else
    let start := if first_byte_is_slash objectPath then 1 else 0 in
    let sep := strings.IndexByte (strings.slice_from objectPath start) "/" in
    if sep <? 0 then (strings.slice_from objectPath start, "")
    else (strings.slice objectPath start (sep + start),
          strings.slice_from objectPath (sep + start + 1)).

(** The words of the design document for the splitter. *)

(** "Strip one leading [/] if present." *)
Definition strip_leading_slash (s : string) : string :=
  match s with
  | String "/" s' => s'
  | _ => s
  end.

(** "[s] contains no [/]". *)
Definition no_slash (s : string) : Prop :=
  ~ In "/"%char (list_ascii_of_string s).

(** ** Errors, outcomes and the monad of the listing code *)

(** Go [error] values.  [errInvalidURL] is the package's own error; every
    other error is raised by a collaborator ([url.Parse], the storage
    client or the consumer's callback) and is only passed along. *)
Inductive error : Type :=
| errInvalidURL
| collaborator_error (msg : string).

(** What a call ends with: [Done a] is a normal return ([err == nil]),
    [Failed e] is [return err], [Timeout] is the model running out of fuel
    in one of the two unbounded loops. *)
Inductive outcome (A : Type) : Type :=
| Done (a : A)
| Failed (e : error)
| Timeout.

Arguments Done {A} a.
Arguments Failed {A} e.
Arguments Timeout {A}.

(** Computations over a state [St] (the world the collaborators live in,
    possibly extended with the local variables a closure captures). *)
Definition M (St A : Type) : Type := St -> outcome A * St.

Definition ret {St A : Type} (a : A) : M St A := fun s => (Done a, s).

(** Sequencing with [if err != nil { return err }] after the first call. *)
Definition bind {St A B : Type} (m : M St A) (k : A -> M St B) : M St B :=
  fun s =>
    match m s with
    | (Done a, s') => k a s'
    | (Failed e, s') => (Failed e, s')
    | (Timeout, s') => (Timeout, s')
    end.

Definition out_of_fuel {St A : Type} : M St A := fun s => (Timeout, s).

Declare Scope go_scope.
Delimit Scope go_scope with go.
Notation "x <- c ;; k" := (bind c (fun x => k))
  (at level 61, c at next level, right associativity) : go_scope.
Notation "c ;; k" := (bind c (fun _ => k))
  (at level 61, right associativity) : go_scope.
Local Open Scope go_scope.

(** [for _, x := range l { if err := body(x); err != nil { return err } }] *)
Fixpoint for_range {St A : Type} (l : list A) (body : A -> M St unit) : M St unit :=
  match l with
  | [] => ret tt
  | x :: l' => body x ;; for_range l' body
  end.

(** Local variables captured by a closure: the state is extended with
    them, and the collaborators' calls leave them alone. *)
Definition lift {St L A : Type} (m : M St A) : M (St * L) A :=
  fun sl => let (r, s') := m (fst sl) in (r, (s', snd sl)).

Definition get_local {St L : Type} : M (St * L) L :=
  fun sl => (Done (snd sl), sl).

Definition update_local {St L : Type} (f : L -> L) : M (St * L) unit :=
  fun sl => (Done tt, (fst sl, f (snd sl))).

(** ** The storage client ([internal/storage/client]) *)

(** Modelled from the spec: the response types of the storage client,
    whose declarations are not in this file.  A bucket has a name; an
    object has a name and an identifier that is [nil] for a folder. *)
Module client.

Record BucketResponse : Type := { BucketName : string }.

Record ObjectResponse : Type := { Name : string; Id : option string }.

End client.

(** ** [ParseStorageURL] *)

(** The fields of Go's [url.URL] that the parser reads. *)
Module url.

Record URL : Type := { Scheme : string; Host : string; Path : string }.

End url.

Definition STORAGE_SCHEME : string := "ss".

Section Parser.

(** Go's [url.Parse], a function of the standard library. *)
Variable url_Parse : string -> error + url.URL.

Definition ParseStorageURL (objectPath : string) : error + string :=
  match url_Parse objectPath with
  | inl err => inl err
  | inr parsed =>
      if negb (strings.ToLower (url.Scheme parsed) =? STORAGE_SCHEME)%string
         || (strings.len (url.Path parsed) =? 0)
         || (0 <? strings.len (url.Host parsed))
      then inl errInvalidURL
      else inr (url.Path parsed)
  end.

End Parser.

(** What Go's [url.Parse] answers on the addresses the examples below
    use (the parser itself belongs to Go's standard library):
    - [ss:///bucket/dir/file.txt]: scheme [ss], no host, path
      [/bucket/dir/file.txt];
    - [ss:/bucket]: scheme [ss], no host, path [/bucket];
    - [ss:///a%20b/c]: scheme [ss], no host, path [/a b/c] (the escape is
      decoded);
    - [:]: the error "missing protocol scheme".
    No other address is used. *)
Definition url_Parse_sampled (rawURL : string) : error + url.URL :=
  if (rawURL =? "ss:///bucket/dir/file.txt")%string then
    inr {| url.Scheme := "ss"; url.Host := ""; url.Path := "/bucket/dir/file.txt" |}
  else if (rawURL =? "ss:/bucket")%string then
    inr {| url.Scheme := "ss"; url.Host := ""; url.Path := "/bucket" |}
  else if (rawURL =? "ss:///a%20b/c")%string then
    inr {| url.Scheme := "ss"; url.Host := ""; url.Path := "/a b/c" |}
  else if (rawURL =? ":")%string then
    inl (collaborator_error "parse: missing protocol scheme")
  else
    inl (collaborator_error "address outside the sample").

(** ** [IterateStoragePaths] and [ListStoragePaths] *)

(** The name handed to the callback for an object: folders (no
    identifier) get a trailing [/]. *)
Definition entry_name (o : client.ObjectResponse) : string :=
  match client.Id o with
  | None => client.Name o ++ "/"
  | Some _ => client.Name o
  end.

Section Listing.

Context {St : Type}.

(** [client.PAGE_LIMIT], a constant of the storage client. *)
Variable PAGE_LIMIT : Z.

(** [client.ListStorageBuckets(ctx, projectRef)] and
    [client.ListStorageObjects(ctx, projectRef, bucket, prefix, page)]. *)
Variable ListStorageBuckets : string -> M St (list client.BucketResponse).
Variable ListStorageObjects :
  string -> string -> string -> Z -> M St (list client.ObjectResponse).

(** The loop [for i := 0; i < pages; i++] of the object branch, entered
    with the current values of [i] and [pages]. *)
Fixpoint page_loop (fuel : nat) (projectRef bucket prefix : string)
    (callback : string -> M St unit) (i pages : Z) : M St unit :=
  if i <? pages then
    match fuel with
    | O => out_of_fuel
    | S fuel' =>
        objects <- ListStorageObjects projectRef bucket prefix i ;;
        for_range objects (fun o => callback (entry_name o)) ;;
        let pages :=
          if Z.of_nat (List.length objects) =? PAGE_LIMIT then pages + 1 else pages in
        page_loop fuel' projectRef bucket prefix callback (i + 1) pages
    end
  else ret tt.

Definition IterateStoragePaths (fuel : nat) (projectRef remotePath : string)
    (callback : string -> M St unit) : M St unit :=
  let (bucket, prefix) := SplitBucketPrefix remotePath in
  if (strings.len bucket =? 0)
     || ((strings.len prefix =? 0) && negb (strings.HasSuffix remotePath "/"))
  then
    buckets <- ListStorageBuckets projectRef ;;
    for_range buckets (fun b =>
      if strings.HasPrefix (client.BucketName b) bucket
      then callback (client.BucketName b ++ "/")
      else ret tt)
  else
    page_loop fuel projectRef bucket prefix callback 0 1.

End Listing.

(** The same calls seen from a closure that captures locals [L]. *)
Definition IterateStoragePaths_in {St : Type} (L : Type) (PAGE_LIMIT : Z)
    (ListStorageBuckets : string -> M St (list client.BucketResponse))
    (ListStorageObjects :
       string -> string -> string -> Z -> M St (list client.ObjectResponse))
    : nat -> string -> string -> (string -> M (St * L) unit) -> M (St * L) unit :=
  IterateStoragePaths PAGE_LIMIT
    (fun projectRef => lift (ListStorageBuckets projectRef))
    (fun projectRef bucket prefix page =>
       lift (ListStorageObjects projectRef bucket prefix page)).

(** The callback of [ListStoragePaths] and of [ListStoragePathsAll]:
    [result = append(result, objectName)]. *)
Definition collect {St : Type} (objectName : string) : M (St * list string) unit :=
  update_local (fun result => (result ++ [objectName])%list).

(** The locals of [IterateStoragePathsAll]: the queue of pending
    directories and the flag of the directory being drained. *)
Record walk_locals : Type := { dirQueue : list string; empty : bool }.

Definition enqueue (objectPath : string) (l : walk_locals) : walk_locals :=
  {| dirQueue := (dirQueue l ++ [objectPath])%list; empty := empty l |}.

Definition set_dirQueue (q : list string) (l : walk_locals) : walk_locals :=
  {| dirQueue := q; empty := empty l |}.

Definition set_empty (b : bool) (l : walk_locals) : walk_locals :=
  {| dirQueue := dirQueue l; empty := b |}.

Section Walker.

Context {St : Type}.

Variable PAGE_LIMIT : Z.
Variable ListStorageBuckets : string -> M St (list client.BucketResponse).
Variable ListStorageObjects :
  string -> string -> string -> Z -> M St (list client.ObjectResponse).

(** [ListStoragePaths]: the names of one level, and the error if any. *)
Definition ListStoragePaths (fuel : nat) (projectRef remotePath : string)
    : St -> (list string * outcome unit) * St :=
  fun s =>
    let '(err, (s', result)) :=
      IterateStoragePaths_in (list string) PAGE_LIMIT
        ListStorageBuckets ListStorageObjects fuel projectRef remotePath
        collect (s, []) in
    ((result, err), s').

(** The callback of the first listing (lines 133-140). *)
Definition seed_callback (basePath : string) (callback : string -> M St unit)
    (objectName : string) : M (St * walk_locals) unit :=
  let objectPath := basePath ++ objectName in
  if strings.HasSuffix objectName "/"
  then update_local (enqueue objectPath)
  else lift (callback objectPath).

(** The callback of the listing of a pending directory (lines 147-155). *)
Definition drain_callback (dirPath : string) (callback : string -> M St unit)
    (objectName : string) : M (St * walk_locals) unit :=
  update_local (set_empty false) ;;
  let objectPath := dirPath ++ objectName in
  if strings.HasSuffix objectName "/"
  then update_local (enqueue objectPath)
  else lift (callback objectPath).

(** One turn of the loop [for len(dirQueue) > 0], after [dirPath] has been
    taken off the queue (lines 146-164). *)
Definition drain_dir (fuel : nat) (projectRef : string)
    (callback : string -> M St unit) (dirPath : string)
    : M (St * walk_locals) unit :=
  update_local (set_empty true) ;;
  IterateStoragePaths_in walk_locals PAGE_LIMIT
    ListStorageBuckets ListStorageObjects fuel projectRef dirPath
    (drain_callback dirPath callback) ;;
  let (bucket, prefix) := SplitBucketPrefix dirPath in
  l <- get_local ;;
  if empty l && (strings.len prefix =? 0)
  then lift (callback (bucket ++ "/"))
  else ret tt.

(** The loop [for len(dirQueue) > 0] (lines 143-165): the directory taken
    is the last one of the queue. *)
Fixpoint drain_loop (fuel : nat) (projectRef : string)
    (callback : string -> M St unit) : M (St * walk_locals) unit :=
  l <- get_local ;;
  if 0 <? Z.of_nat (List.length (dirQueue l)) then
    match fuel with
    | O => out_of_fuel
    | S fuel' =>
        let dirPath := List.last (dirQueue l) "" in
        update_local (set_dirQueue (List.removelast (dirQueue l))) ;;
        drain_dir (S fuel') projectRef callback dirPath ;;
        drain_loop fuel' projectRef callback
    end
  else ret tt.

(** [basePath] (lines 126-129). *)
Definition base_path (remotePath : string) : string :=
  if strings.HasSuffix remotePath "/" then remotePath
  else fst (path.Split remotePath).

(** The body of [IterateStoragePathsAll], on its locals. *)
Definition walk_body (fuel : nat) (projectRef remotePath : string)
    (callback : string -> M St unit) : M (St * walk_locals) unit :=
  IterateStoragePaths_in walk_locals PAGE_LIMIT
    ListStorageBuckets ListStorageObjects fuel projectRef remotePath
    (seed_callback (base_path remotePath) callback) ;;
  drain_loop fuel projectRef callback.

Definition IterateStoragePathsAll (fuel : nat) (projectRef remotePath : string)
    (callback : string -> M St unit) : M St unit :=
  fun s =>
    let '(err, (s', _)) :=
      walk_body fuel projectRef remotePath callback
        (s, {| dirQueue := []; empty := true |}) in
    (err, s').

End Walker.

(** [ListStoragePathsAll]: every path of the walk, and the error if any. *)
Definition ListStoragePathsAll {St : Type} (PAGE_LIMIT : Z)
    (ListStorageBuckets : string -> M St (list client.BucketResponse))
    (ListStorageObjects :
       string -> string -> string -> Z -> M St (list client.ObjectResponse))
    (fuel : nat) (projectRef remotePath : string)
    : St -> (list string * outcome unit) * St :=
  fun s =>
    let '(err, (s', result)) :=
      IterateStoragePathsAll (St := St * list string) PAGE_LIMIT
        (fun projectRef => lift (ListStorageBuckets projectRef))
        (fun projectRef bucket prefix page =>
           lift (ListStorageObjects projectRef bucket prefix page))
        fuel projectRef remotePath
        collect (s, []) in
    ((result, err), s').


(** ** Observing a run: the calls made on the collaborators *)

(** The collaborators of a run over a world [W]: the two calls of the
    storage client and the consumer's callback.  Each may read and change
    the world, and each may fail. *)
Record collaborators (W : Type) : Type := {
  listBuckets : string -> W -> (error + list client.BucketResponse) * W;
  listObjects :
    string -> string -> string -> Z -> W -> (error + list client.ObjectResponse) * W;
  consumer : string -> W -> option error * W
}.

Arguments listBuckets {W} c projectRef w.
Arguments listObjects {W} c projectRef bucket prefix page w.
Arguments consumer {W} c objectPath w.

(** One call on a collaborator, with what it was given and what it
    answered. *)
Inductive event : Type :=
| ListBucketsCall (projectRef : string) (r : error + list client.BucketResponse)
| ListObjectsCall (projectRef bucket prefix : string) (page : Z)
    (r : error + list client.ObjectResponse)
| CallbackCall (arg : string) (r : option error).

(** The world together with the calls made so far, oldest first. *)
Record observed (W : Type) : Type := { world : W; trace : list event }.

Arguments world {W} o.
Arguments trace {W} o.

Definition of_result {A : Type} (r : error + A) : outcome A :=
  match r with
  | inl e => Failed e
  | inr a => Done a
  end.

Definition of_error (r : option error) : outcome unit :=
  match r with
  | Some e => Failed e
  | None => Done tt
  end.

Section Observed.

Context {W : Type}.
Variable c : collaborators W.

Definition observed_buckets (projectRef : string)
    : M (observed W) (list client.BucketResponse) :=
  fun s =>
    let (r, w) := listBuckets c projectRef (world s) in
    (of_result r,
     {| world := w; trace := (trace s ++ [ListBucketsCall projectRef r])%list |}).

Definition observed_objects (projectRef bucket prefix : string) (page : Z)
    : M (observed W) (list client.ObjectResponse) :=
  fun s =>
    let (r, w) := listObjects c projectRef bucket prefix page (world s) in
    (of_result r,
     {| world := w;
        trace := (trace s ++ [ListObjectsCall projectRef bucket prefix page r])%list |}).

Definition observed_callback (arg : string) : M (observed W) unit :=
  fun s =>
    let (r, w) := consumer c arg (world s) in
    (of_error r, {| world := w; trace := (trace s ++ [CallbackCall arg r])%list |}).

(** The single-level listing and the recursive walk, observed. *)
Definition listing (PAGE_LIMIT : Z) (fuel : nat) (projectRef remotePath : string)
    : M (observed W) unit :=
  IterateStoragePaths PAGE_LIMIT observed_buckets observed_objects
    fuel projectRef remotePath observed_callback.

Definition walk (PAGE_LIMIT : Z) (fuel : nat) (projectRef remotePath : string)
    : M (observed W) unit :=
  IterateStoragePathsAll PAGE_LIMIT observed_buckets observed_objects
    fuel projectRef remotePath observed_callback.

End Observed.

(** The arguments the callback was called with, in order. *)
Definition delivered (t : list event) : list string :=
  flat_map (fun ev => match ev with CallbackCall arg _ => [arg] | _ => [] end) t.

(** The calls on the storage client, in order. *)
Definition backend_calls (t : list event) : list event :=
  filter (fun ev => match ev with CallbackCall _ _ => false | _ => true end) t.

(** The error an event ended with, if it failed. *)
Definition failure (ev : event) : option error :=
  match ev with
  | ListBucketsCall _ (inl e) => Some e
  | ListObjectsCall _ _ _ _ (inl e) => Some e
  | CallbackCall _ (Some e) => Some e
  | _ => None
  end.

(** ** A storage service held in memory, to run the code on *)

(** The folders of a bucket: for each prefix, the entries right under it. *)
Definition folders : Type := list (string * list client.ObjectResponse).

(** A storage service: its buckets, in the order the service lists them. *)
Definition storage : Type := list (string * folders).

Fixpoint lookup {A : Type} (key : string) (l : list (string * A)) : option A :=
  match l with
  | [] => None
  | (k, a) :: l' => if (k =? key)%string then Some a else lookup key l'
  end.

Definition file (name : string) : client.ObjectResponse :=
  {| client.Name := name; client.Id := Some "id" |}.

Definition folder (name : string) : client.ObjectResponse :=
  {| client.Name := name; client.Id := None |}.

(** Page [page] of [entries], [limit] entries a page. *)
Definition page_of (limit page : Z) (entries : list client.ObjectResponse)
    : list client.ObjectResponse :=
  firstn (Z.to_nat limit) (skipn (Z.to_nat (page * limit)) entries).

(** A service that never fails and never changes, and a consumer that
    accepts everything. *)
Definition serve (limit : Z) (st : storage) : collaborators unit :=
  {| listBuckets := fun _ w =>
       (inr (map (fun b => {| client.BucketName := fst b |}) st), w);
     listObjects := fun _ bucket prefix page w =>
       (inr (match lookup bucket st with
             | Some fs =>
                 match lookup prefix fs with
                 | Some entries => page_of limit page entries
                 | None => []
                 end
             | None => []
             end), w);
     consumer := fun _ w => (None, w) |}.

Definition start : observed unit := {| world := tt; trace := [] |}.

(** The same collaborators, with a consumer that refuses the path [bad]. *)
Definition refusing {W : Type} (bad : string) (c : collaborators W)
    : collaborators W :=
  {| listBuckets := listBuckets c;
     listObjects := listObjects c;
     consumer := fun arg w =>
       if (arg =? bad)%string
       then (Some (collaborator_error "refused"), w)
       else consumer c arg w |}.

(** A service that lists one bucket with an empty name when first asked
    and no bucket afterwards; the world counts the calls. *)
Definition unnamed_once : collaborators nat :=
  {| listBuckets := fun _ w =>
       (inr (match w with
             | O => [ {| client.BucketName := "" |} ]
             | S _ => []
             end), S w);
     listObjects := fun _ _ _ _ w => (inr [], w);
     consumer := fun _ w => (None, w) |}.

(** The same collaborators, with a storage client that fails when it is
    asked for the objects of [bucket] under [prefix]. *)
Definition failing_on {W : Type} (bucket prefix : string) (c : collaborators W)
    : collaborators W :=
  {| listBuckets := listBuckets c;
     listObjects := fun projectRef b p page w =>
       if (b =? bucket)%string && (p =? prefix)%string
       then (inl (collaborator_error "unavailable"), w)
       else listObjects c projectRef b p page w;
     consumer := consumer c |}.

(** The services of the examples. *)

(** A bucket [a] with an object [x.txt] and a folder [y/] that holds
    [z.txt]. *)
Definition nested_bucket : storage :=
  [("a", [("", [file "x.txt"; folder "y"]); ("y/", [file "z.txt"])])].

(** A bucket [a] with two folders: [p/] holds an object, [q/] holds a
    folder [r/] that holds an object. *)
Definition two_branches : storage :=
  [("a", [("", [folder "p"; folder "q"]);
          ("p/", [file "shallow.txt"]);
          ("q/", [folder "r"]);
          ("q/r/", [file "deep.txt"])])].

(** A bucket [b] with nothing in it. *)
Definition empty_bucket : storage := [("b", [])].

(** A bucket [c] with an object and a folder [sub/] that holds nothing. *)
Definition bucket_with_empty_folder : storage :=
  [("c", [("", [file "x.txt"; folder "sub"]); ("sub/", [])])].

(** ** The vocabulary of the properties *)

(** The guard of [ParseStorageURL], as a proposition on the parsed URL. *)
Definition accepted (parsed : url.URL) : Prop :=
  strings.ToLower (url.Scheme parsed) = STORAGE_SCHEME /\
  url.Path parsed <> "" /\
  url.Host parsed = "".

(** The branch [IterateStoragePaths] takes on [remotePath]. *)
Definition lists_buckets (remotePath : string) : bool :=
  let (bucket, prefix) := SplitBucketPrefix remotePath in
  (strings.len bucket =? 0)
  || ((strings.len prefix =? 0) && negb (strings.HasSuffix remotePath "/")).

(** What a loop over [names] leaves in the trace when each name goes to
    the observed callback: the names in order, up to the first failure. *)
Inductive deliveries : list string -> outcome unit -> list event -> Prop :=
| deliveries_done : deliveries [] (Done tt) []
| deliveries_next (name : string) (names : list string) (r : outcome unit)
    (t : list event) :
    deliveries names r t ->
    deliveries (name :: names) r (CallbackCall name None :: t)
| deliveries_failed (name : string) (names : list string) (e : error) :
    deliveries (name :: names) (Failed e) [CallbackCall name (Some e)].

(** What page [j] of [pages] leaves in the trace when it is fetched and
    delivered without a failure. *)
Definition page_events (projectRef bucket prefix : string)
    (pages : nat -> list client.ObjectResponse) (j : nat) : list event :=
  ListObjectsCall projectRef bucket prefix (Z.of_nat j) (inr (pages j))
    :: map (fun o => CallbackCall (entry_name o) None) (pages j).

(** [triple P m Q]: started in a state of [P], the computation [m] ends
    with an outcome and a state related by [Q]. *)
Definition triple {St A : Type} (P : St -> Prop) (m : M St A)
    (Q : outcome A -> St -> Prop) : Prop :=
  forall (s s' : St) (r : outcome A), P s -> m s = (r, s') -> Q r s'.

(** The invariant [J] of a loop, read at the end of a call that returns a
    value: the value is in [V] and the loop may go on, or the call failed
    and [J] holds of the failure. *)
Definition returning {St A : Type} (J : outcome unit -> St -> Prop)
    (V : A -> Prop) : outcome A -> St -> Prop :=
  fun r s =>
    match r with
    | Done a => J (Done tt) s /\ V a
    | Failed e => J (Failed e) s
    | Timeout => J Timeout s
    end.

(** The invariant of a walk: [T] on the world, and every pending directory
    is [good]. *)
Definition walk_invariant {St : Type} (T : outcome unit -> St -> Prop)
    (good : string -> Prop) : outcome unit -> St * walk_locals -> Prop :=
  fun r sl => T r (fst sl) /\ Forall good (dirQueue (snd sl)).

(** A directory that may be drained, when the queue holds [good]
    directories and the consumer may be given [allowed] paths: the folders
    of its listing are [good], and its leaves and its report are [allowed]. *)
Definition drainable (good allowed : string -> Prop) (dirPath : string) : Prop :=
  (forall name : string,
      strings.HasSuffix name "/" = true -> good (dirPath ++ name)) /\
  (forall name : string,
      strings.HasSuffix name "/" = false -> allowed (dirPath ++ name)) /\
  (forall bucket : string,
      SplitBucketPrefix dirPath = (bucket, "") -> allowed (bucket ++ "/")).

(** No call of [t] failed. *)
Definition clean (t : list event) : Prop :=
  Forall (fun ev => failure ev = None) t.

(** How the calls [t] of a run relate to its outcome [r]: a run that
    returns an error made a last call that failed with this error, and no
    call failed before; in any other run no call failed. *)
Definition halted (r : outcome unit) (t : list event) : Prop :=
  match r with
  | Failed e =>
      exists (before : list event) (ev : event),
        t = (before ++ [ev])%list /\ clean before /\ failure ev = Some e
  | _ => clean t
  end.

(** The invariant: the run started with the trace [t0] and has been
    orderly since. *)
Definition orderly {W : Type} (t0 : list event) (r : outcome unit)
    (s : observed W) : Prop :=
  exists t : list event, trace s = (t0 ++ t)%list /\ halted r t.

(** The run [run], started in [s], stops at its first failure: a call that
    fails is the last call and its error is the outcome, and an outcome
    that is an error is the error of the last call. *)
Definition stops_at_first_failure {W : Type} (s : observed W)
    (run : outcome unit * observed W) : Prop :=
  exists t : list event,
    trace (snd run) = (trace s ++ t)%list /\
    (forall (before after : list event) (ev : event) (e : error),
        t = (before ++ ev :: after)%list -> failure ev = Some e ->
        after = [] /\ fst run = Failed e) /\
    (forall e : error,
        fst run = Failed e ->
        exists (before : list event) (ev : event),
          t = (before ++ [ev])%list /\ failure ev = Some e).

(** The invariant: since the trace [t0], only [allowed] paths went to the
    consumer. *)
Definition delivering {W : Type} (t0 : list event) (allowed : string -> Prop)
    (r : outcome unit) (s : observed W) : Prop :=
  exists t : list event,
    trace s = (t0 ++ t)%list /\ Forall allowed (delivered t).

(** The storage client of [c] lists only buckets of [Vb]. *)
Definition lists_only {W : Type} (c : collaborators W)
    (Vb : client.BucketResponse -> Prop) : Prop :=
  forall (projectRef : string) (w w' : W) (bs : list client.BucketResponse),
    listBuckets c projectRef w = (inr bs, w') -> Forall Vb bs.




(** Two runs of the same code side by side: the first may be stopped by its
    consumer, the second has a consumer that accepts everything.  [d1] and
    [d2] give what each run has delivered, [same_locals] relates the local
    variables, [a1] and [a2] are what had been delivered when the two runs
    started. *)
Definition in_step {S1 S2 : Type} (d1 : S1 -> list string)
    (d2 : S2 -> list string) (same_locals : S1 -> S2 -> Prop)
    (a1 a2 : list string) (s1 : S1) (s2 : S2) : Prop :=
  exists d : list string,
    d1 s1 = (a1 ++ d)%list /\ d2 s2 = (a2 ++ d)%list /\ same_locals s1 s2.

(** The first run has stopped and the second has delivered as much, or
    more. *)
Definition overtaken {S1 S2 : Type} (d1 : S1 -> list string)
    (d2 : S2 -> list string) (a1 a2 : list string) (s1 : S1) (s2 : S2) : Prop :=
  exists d rest : list string,
    d1 s1 = (a1 ++ d)%list /\ d2 s2 = (a2 ++ d ++ rest)%list.

(** [m2] only adds to what has been delivered. *)
Definition grows {S2 A : Type} (d2 : S2 -> list string) (m2 : M S2 A) : Prop :=
  forall s2 : S2, exists rest : list string,
    d2 (snd (m2 s2)) = (d2 s2 ++ rest)%list.

(** [m2] follows [m1]: from states in step, either both end alike and in
    step, or [m1] fails and [m2] overtakes it. *)
Definition follows {S1 S2 A : Type} (d1 : S1 -> list string)
    (d2 : S2 -> list string) (same_locals : S1 -> S2 -> Prop)
    (a1 a2 : list string) (m1 : M S1 A) (m2 : M S2 A) : Prop :=
  grows d2 m2 /\
  forall (s1 : S1) (s2 : S2),
    in_step d1 d2 same_locals a1 a2 s1 s2 ->
    (fst (m1 s1) = fst (m2 s2) /\
     in_step d1 d2 same_locals a1 a2 (snd (m1 s1)) (snd (m2 s2))) \/
    ((exists e : error, fst (m1 s1) = Failed e) /\
     overtaken d1 d2 a1 a2 (snd (m1 s1)) (snd (m2 s2))).

(** What has gone to the consumer in [run1], started in [s1], is a first
    part of what has gone to the consumer in [run2], started in [s2]; and
    unless [run1] has failed, the two runs have ended alike and it is all
    of it. *)
Definition delivers_first_part {W1 W2 : Type} (s1 : observed W1)
    (run1 : outcome unit * observed W1) (s2 : observed W2)
    (run2 : outcome unit * observed W2) : Prop :=
  exists d rest : list string,
    delivered (trace (snd run1)) = (delivered (trace s1) ++ d)%list /\
    delivered (trace (snd run2)) = (delivered (trace s2) ++ d ++ rest)%list /\
    ((exists e : error, fst run1 = Failed e) \/
     (rest = [] /\ fst run1 = fst run2)).

(** The collaborators [c2] go along with [c1]: from worlds in [Rw], a
    call that [c1] answers without error gets the same answer from [c2],
    and the worlds are in [Rw] again.  Where [c1] fails, [c2] is free: it
    may fail as well, or answer. *)
Definition goes_along {W1 W2 : Type} (Rw : W1 -> W2 -> Prop)
    (c1 : collaborators W1) (c2 : collaborators W2) : Prop :=
  (forall (projectRef : string) (w1 : W1) (w2 : W2)
          (buckets : list client.BucketResponse),
      Rw w1 w2 ->
      fst (listBuckets c1 projectRef w1) = inr buckets ->
      fst (listBuckets c2 projectRef w2) = inr buckets /\
      Rw (snd (listBuckets c1 projectRef w1)) (snd (listBuckets c2 projectRef w2))) /\
  (forall (projectRef bucket prefix : string) (page : Z) (w1 : W1) (w2 : W2)
          (objects : list client.ObjectResponse),
      Rw w1 w2 ->
      fst (listObjects c1 projectRef bucket prefix page w1) = inr objects ->
      fst (listObjects c2 projectRef bucket prefix page w2) = inr objects /\
      Rw (snd (listObjects c1 projectRef bucket prefix page w1))
        (snd (listObjects c2 projectRef bucket prefix page w2))) /\
  (forall (arg : string) (w1 : W1) (w2 : W2),
      Rw w1 w2 ->
      fst (consumer c1 arg w1) = None ->
      fst (consumer c2 arg w2) = None /\
      Rw (snd (consumer c1 arg w1)) (snd (consumer c2 arg w2))).

(** ** The command [Run] *)

Section Command.

Context {St : Type}.

(** Go's [url.Parse]; [utils.LoadProjectRef(fsys)], which reads the
    project reference from the file system and may fail; the storage
    client; and [fmt.Println], whose result [Run] drops. *)
Variable url_Parse : string -> error + url.URL.
Variable LoadProjectRef : M St string.
Variable PAGE_LIMIT : Z.
Variable ListStorageBuckets : string -> M St (list client.BucketResponse).
Variable ListStorageObjects :
  string -> string -> string -> Z -> M St (list client.ObjectResponse).
Variable Println : string -> St -> St.

(** The callback of [Run] (lines 28-31): print the path, return [nil]. *)
Definition print_callback (objectPath : string) : M St unit :=
  fun s => (Done tt, Println objectPath s).

Definition Run (fuel : nat) (objectPath : string) (recursive : bool) : M St unit :=
  match ParseStorageURL url_Parse objectPath with
  | inl err => fun s => (Failed err, s)
  | inr remotePath =>
      projectRef <- LoadProjectRef ;;
      if recursive
      then IterateStoragePathsAll PAGE_LIMIT ListStorageBuckets
             ListStorageObjects fuel projectRef remotePath print_callback
      else IterateStoragePaths PAGE_LIMIT ListStorageBuckets
             ListStorageObjects fuel projectRef remotePath print_callback
  end.

End Command.

(** [utils.LoadProjectRef] on an observed world: it reads the world, and
    is not a call on the storage client or on the consumer. *)
Definition observed_load {W : Type} (load : W -> (error + string) * W)
    : M (observed W) string :=
  fun s =>
    let (r, w) := load (world s) in
    (of_result r, {| world := w; trace := trace s |}).

(** [fmt.Println] on an observed world: a line for the consumer, which
    is the standard output and takes every line. *)
Definition observed_print {W : Type} (line : string) (s : observed W)
    : observed W :=
  {| world := world s; trace := (trace s ++ [CallbackCall line None])%list |}.

(** The command, observed. *)
Definition command {W : Type} (url_Parse : string -> error + url.URL)
    (load : W -> (error + string) * W) (c : collaborators W) (PAGE_LIMIT : Z)
    (fuel : nat) (objectPath : string) (recursive : bool)
    : M (observed W) unit :=
  Run url_Parse (observed_load load) PAGE_LIMIT (observed_buckets c)
    (observed_objects c) observed_print fuel objectPath recursive.

(** The state after the project reference has been loaded. *)
Definition loaded {W : Type} (load : W -> (error + string) * W)
    (s : observed W) : observed W :=
  {| world := snd (load (world s)); trace := trace s |}.

(** The same collaborators, with a consumer that accepts every path and
    leaves the world alone. *)
Definition accepting {W : Type} (c : collaborators W) : collaborators W :=
  {| listBuckets := listBuckets c;
     listObjects := listObjects c;
     consumer := fun _ w => (None, w) |}.

(** ** The vocabulary of the further properties *)

(** [remotePath] reads [bucket/prefix], after one leading slash if it has
    one: a bucket name, a slash, and what follows. *)
Definition names_bucket (remotePath bucket prefix : string) : Prop :=
  strip_leading_slash remotePath = bucket ++ "/" ++ prefix /\
  bucket <> "" /\ no_slash bucket.

(** The calls that fetch pages [i], [i + 1], ... of [bucket] and [prefix],
    with their answers. *)
Fixpoint page_calls (projectRef bucket prefix : string) (i : Z)
    (answers : list (error + list client.ObjectResponse)) : list event :=
  match answers with
  | [] => []
  | r :: answers' =>
      ListObjectsCall projectRef bucket prefix i r
        :: page_calls projectRef bucket prefix (i + 1) answers'
  end.

(** A full page: an answer with exactly [PAGE_LIMIT] entries. *)
Definition is_full (PAGE_LIMIT : Z) (r : error + list client.ObjectResponse)
    : bool :=
  match r with
  | inr objects => Z.of_nat (List.length objects) =? PAGE_LIMIT
  | inl _ => false
  end.

(** A storage client whose every page holds the same single entry, and a
    consumer that accepts everything. *)
Definition endless : collaborators unit :=
  {| listBuckets := fun _ w => (inr [], w);
     listObjects := fun _ _ _ _ w => (inr [file "x"], w);
     consumer := fun _ w => (None, w) |}.

(** The names an answer of the storage client holds for a listing with the
    bucket component [bucket]: of a list of buckets, the names that start
    with [bucket], a slash added; of a page of objects, the name of each
    entry. *)
Definition answer_names (bucket : string) (ev : event) : list string :=
  match ev with
  | ListBucketsCall _ (inr buckets) =>
      map (fun b => client.BucketName b ++ "/")
        (filter (fun b => strings.HasPrefix (client.BucketName b) bucket) buckets)
  | ListObjectsCall _ _ _ _ (inr objects) => map entry_name objects
  | _ => []
  end.

(** The names listed in the calls [t], in order. *)
Definition listed (bucket : string) (t : list event) : list string :=
  flat_map (answer_names bucket) t.

(** The consumer refused a name in [t]. *)
Definition refused (t : list event) : bool :=
  existsb (fun ev => match ev with
                     | CallbackCall _ (Some _) => true
                     | _ => false
                     end) t.

(** Since the trace [t0], the consumer has refused nothing. *)
Definition unrefused {W : Type} (t0 : list event) (r : outcome unit)
    (s : observed W) : Prop :=
  exists t : list event, trace s = (t0 ++ t)%list /\ refused t = false.

(** Two outcomes of the same kind: both return, with values in [V], or
    both fail with the same error, or both run out of fuel. *)
Definition same_outcome {A B : Type} (V : A -> B -> Prop)
    (r1 : outcome A) (r2 : outcome B) : Prop :=
  match r1, r2 with
  | Done a, Done b => V a b
  | Failed e1, Failed e2 => e1 = e2
  | Timeout, Timeout => True
  | _, _ => False
  end.

(** [m1] and [m2] run alike: from states in [R] they end with outcomes of
    the same kind, in states in [R]. *)
Definition alike {S1 S2 A B : Type} (R : S1 -> S2 -> Prop) (V : A -> B -> Prop)
    (m1 : M S1 A) (m2 : M S2 B) : Prop :=
  forall (s1 : S1) (s2 : S2),
    R s1 s2 ->
    same_outcome V (fst (m1 s1)) (fst (m2 s2)) /\ R (snd (m1 s1)) (snd (m2 s2)).

(** [R] on the states and [RL] on the locals of a closure. *)
Definition with_locals {S1 S2 L1 L2 : Type} (R : S1 -> S2 -> Prop)
    (RL : L1 -> L2 -> Prop) : S1 * L1 -> S2 * L2 -> Prop :=
  fun sl1 sl2 => R (fst sl1) (fst sl2) /\ RL (snd sl1) (snd sl2).

(** A run that collects names in a list, beside a run that hands them to
    a consumer, both started in [s0]: the worlds agree, the first run has
    made the calls on the storage client that the second has made, and has
    collected what the second has delivered. *)
Definition collected {W : Type} (s0 : observed W)
    (sr : observed W * list string) (s2 : observed W) : Prop :=
  world (fst sr) = world s2 /\
  exists t : list event,
    trace s2 = (trace s0 ++ t)%list /\
    trace (fst sr) = (trace s0 ++ backend_calls t)%list /\
    snd sr = delivered t.

(** The locals [l] with the directories [q] below its queue: they were
    put on the queue before the directories of [l]. *)
Definition beneath (q : list string) (l : walk_locals) : walk_locals :=
  {| dirQueue := (q ++ dirQueue l)%list; empty := empty l |}.

(** A name that ends in a slash: the walk takes it for a folder. *)
Definition is_folder (name : string) : bool := strings.HasSuffix name "/".

(** The paths of the folders among [names], listed in [dirPath]. *)
Definition folders_of (dirPath : string) (names : list string) : list string :=
  map (append dirPath) (filter is_folder names).

(** The paths of the other entries among [names]. *)
Definition leaves_of (dirPath : string) (names : list string) : list string :=
  map (append dirPath) (filter (fun name => negb (is_folder name)) names).

(** The report that follows the listing of [dirPath], which gave [names]:
    the bucket, when nothing was listed and the prefix component is
    empty. *)
Definition report_of (dirPath : string) (names : list string) : list string :=
  match names with
  | [] =>
      let (bucket, prefix) := SplitBucketPrefix dirPath in
      if strings.len prefix =? 0 then [bucket ++ "/"] else []
  | _ :: _ => []
  end.

(** The flag [empty] after a listing that gave [names]. *)
Definition still_empty (flag : bool) (names : list string) : bool :=
  match names with
  | [] => flag
  | _ :: _ => false
  end.

(** What a turn that has not failed has done with the names it was given
    since the state [s], [l]. *)
Definition turned {W : Type} (b dirPath : string) (s : observed W)
    (l : walk_locals) (s' : observed W) (l' : walk_locals) : Prop :=
  exists t : list event,
    trace s' = (trace s ++ t)%list /\
    refused t = false /\
    delivered t = leaves_of dirPath (listed b t) /\
    dirQueue l' = (dirQueue l ++ folders_of dirPath (listed b t))%list /\
    empty l' = still_empty (empty l) (listed b t).

(** ** The trace of a walk *)

(** The run has returned without error. *)
Definition is_done (r : outcome unit) : bool :=
  match r with
  | Done _ => true
  | _ => false
  end.

(** The calls on the storage client of one listing of [path]: for a listing
    of buckets, one [listBuckets], answered if the listing is [complete];
    for a listing of objects, the pages [0], [1], ... of the bucket and
    prefix of [path], each but the last a full page, the last a page that
    is not full if the listing is [complete]. *)
Definition listing_calls (PAGE_LIMIT : Z) (projectRef path : string)
    (complete : bool) (calls : list event) : Prop :=
  if lists_buckets path
  then
    exists r : error + list client.BucketResponse,
      calls = [ListBucketsCall projectRef r] /\
      (complete = true -> exists buckets, r = inr buckets)
  else
    exists answers : list (error + list client.ObjectResponse),
      calls = page_calls projectRef (fst (SplitBucketPrefix path))
                (snd (SplitBucketPrefix path)) 0 answers /\
      forallb (is_full PAGE_LIMIT) (removelast answers) = true /\
      (complete = true ->
       exists (init : list (error + list client.ObjectResponse))
              (objects : list client.ObjectResponse),
         answers = (init ++ [inr objects])%list /\
         Z.of_nat (List.length objects) <> PAGE_LIMIT).

(** The trace [t] of one listing of [path] in a walk.  Its calls on the
    storage client are those of a listing of [path]; and with [names] the
    names listed in the answers, what went to the consumer is a first part
    of [expected names], and all of it, none refused, if the listing is
    [complete]. *)
Definition listing_trace (PAGE_LIMIT : Z) (projectRef path : string)
    (expected : list string -> list string) (complete : bool)
    (t : list event) : Prop :=
  listing_calls PAGE_LIMIT projectRef path complete (backend_calls t) /\
  exists rest : list string,
    expected (listed (fst (SplitBucketPrefix path)) t)
    = (delivered t ++ rest)%list /\
    (complete = true -> rest = [] /\ refused t = false).

(** What a turn on [dirPath] delivers when its listing gave [names]: the
    leaves, then the report. *)
Definition turn_deliveries (dirPath : string) (names : list string)
    : list string :=
  (leaves_of dirPath names ++ report_of dirPath names)%list.

(** [drains good q complete t]: the trace [t] is that of the loop on the
    queue [q].  Each turn takes the last directory of the queue, which is
    in [good], lists it and delivers its leaves and its report, and puts
    its folders on the queue; the loop is [complete] when it has emptied
    the queue, and otherwise has stopped at the head of a turn or within
    one. *)
Inductive drains (good : string -> Prop) (PAGE_LIMIT : Z) (projectRef : string)
    : list string -> bool -> list event -> Prop :=
| drains_nothing : drains good PAGE_LIMIT projectRef [] true []
| drains_cut (q : list string) : drains good PAGE_LIMIT projectRef q false []
| drains_turn (q : list string) (d : string) (complete : bool)
    (t t' : list event) :
    good d ->
    listing_trace PAGE_LIMIT projectRef d (turn_deliveries d) true t ->
    drains good PAGE_LIMIT projectRef
      (q ++ folders_of d (listed (fst (SplitBucketPrefix d)) t))%list
      complete t' ->
    drains good PAGE_LIMIT projectRef (q ++ [d])%list complete (t ++ t')%list
| drains_stopped (q : list string) (d : string) (t : list event) :
    good d ->
    listing_trace PAGE_LIMIT projectRef d (turn_deliveries d) false t ->
    drains good PAGE_LIMIT projectRef (q ++ [d])%list false t.

(** The trace of a walk over [remotePath], in two parts.  The first is the
    trace of the listing of [remotePath], whose leaves are delivered as
    base path plus name.  If that listing is complete, its folders, as base
    path plus name, make the queue, and the second part is the trace of the
    loop on this queue; otherwise there is no second part. *)
Definition walk_trace (good : string -> Prop) (PAGE_LIMIT : Z)
    (projectRef remotePath : string) (complete : bool)
    (t_seed t_queue : list event) : Prop :=
  let base := base_path remotePath in
  let names := listed (fst (SplitBucketPrefix remotePath)) t_seed in
  (listing_trace PAGE_LIMIT projectRef remotePath (leaves_of base) true t_seed /\
   drains good PAGE_LIMIT projectRef (folders_of base names) complete t_queue) \/
  (complete = false /\
   listing_trace PAGE_LIMIT projectRef remotePath (leaves_of base) false t_seed /\
   t_queue = []).

(** * Properties *)

(** ** Basic facts on strings *)

Section StringFacts.

Lemma length_append (a b : string) :
  String.length (a ++ b) = (String.length a + String.length b)%nat.
Proof. induction a as [|c a IH]; simpl; [reflexivity | now rewrite IH]. Qed.

Lemma append_nil_r (a : string) : a ++ "" = a.
Proof. induction a as [|c a IH]; simpl; [reflexivity | now rewrite IH]. Qed.

Lemma append_assoc (a b c : string) : (a ++ b) ++ c = a ++ (b ++ c).
Proof. induction a as [|x a IH]; simpl; [reflexivity | now rewrite IH]. Qed.

Lemma substring_all (s : string) : substring 0 (String.length s) s = s.
Proof. induction s as [|c s IH]; simpl; [reflexivity | now rewrite IH]. Qed.

Lemma substring_zero (n : nat) (s : string) : substring n 0 s = "".
Proof.
  revert n; induction s as [|c s IH]; intros [|n]; simpl; auto.
Qed.

Lemma substring_prefix (a b : string) :
  substring 0 (String.length a) (a ++ b) = a.
Proof.
  induction a as [|c a IH]; simpl.
  - apply substring_zero.
  - now rewrite IH.
Qed.

Lemma substring_skip (a b : string) (n : nat) :
  substring (String.length a) n (a ++ b) = substring 0 n b.
Proof. induction a as [|c a IH]; simpl; auto. Qed.

Lemma substring_suffix (a b : string) :
  substring (String.length a) (String.length b) (a ++ b) = b.
Proof. rewrite substring_skip. apply substring_all. Qed.

Lemma slice_from_append (a b : string) :
  strings.slice_from (a ++ b) (strings.len a) = b.
Proof.
  unfold strings.slice_from, strings.slice, strings.len.
  rewrite length_append, Nat2Z.id.
  replace (Z.to_nat (Z.of_nat (String.length a + String.length b)
                     - Z.of_nat (String.length a)))
    with (String.length b) by lia.
  apply substring_suffix.
Qed.

Lemma slice_from_zero (s : string) : strings.slice_from s 0 = s.
Proof. apply (slice_from_append "" s). Qed.

Lemma slice_prefix (a b : string) :
  strings.slice (a ++ b) 0 (strings.len a) = a.
Proof.
  unfold strings.slice, strings.len.
  rewrite Z.sub_0_r, Nat2Z.id. apply substring_prefix.
Qed.

Lemma slice_middle (a b c : string) :
  strings.slice (a ++ b ++ c) (strings.len a) (strings.len a + strings.len b) = b.
Proof.
  unfold strings.slice, strings.len.
  rewrite Nat2Z.id.
  replace (Z.to_nat (Z.of_nat (String.length a) + Z.of_nat (String.length b)
                     - Z.of_nat (String.length a)))
    with (String.length b) by lia.
  rewrite substring_skip. apply substring_prefix.
Qed.

Lemma len_nonneg (s : string) : 0 <= strings.len s.
Proof. unfold strings.len; lia. Qed.

Lemma len_append (a b : string) :
  strings.len (a ++ b) = strings.len a + strings.len b.
Proof. unfold strings.len; rewrite length_append; lia. Qed.

Lemma len_String (c : ascii) (s : string) :
  strings.len (String c s) = 1 + strings.len s.
Proof. unfold strings.len; simpl String.length; lia. Qed.

Lemma len_zero (s : string) : strings.len s = 0 -> s = "".
Proof. destruct s; [reflexivity | rewrite len_String; pose proof (len_nonneg s); lia]. Qed.

(** [IndexByte] finds the first occurrence. *)
Lemma IndexByte_range (s : string) (c : ascii) :
  strings.IndexByte s c = -1 \/ 0 <= strings.IndexByte s c < strings.len s.
Proof.
  induction s as [|a s IH]; simpl; [now left|].
  rewrite len_String.
  destruct (Ascii.eqb a c); [right; pose proof (len_nonneg s); lia|].
  destruct (Z.ltb_spec (strings.IndexByte s c) 0); [now left | right; lia].
Qed.

Lemma IndexByte_absent (s : string) (c : ascii) :
  ~ In c (list_ascii_of_string s) -> strings.IndexByte s c = -1.
Proof.
  induction s as [|a s IH]; simpl; intros H; [reflexivity|].
  destruct (Ascii.eqb_spec a c) as [->|Hne]; [exfalso; apply H; now left|].
  rewrite IH by (intros Hin; apply H; now right). reflexivity.
Qed.

Lemma IndexByte_present (s : string) (c : ascii) :
  strings.IndexByte s c = -1 -> ~ In c (list_ascii_of_string s).
Proof.
  induction s as [|a s IH]; simpl; intros H; [tauto|].
  destruct (Ascii.eqb_spec a c) as [->|Hne]; [discriminate|].
  destruct (Z.ltb_spec (strings.IndexByte s c) 0) as [Hlt|Hge].
  - destruct (IndexByte_range s c) as [E|E]; [|lia].
    intros [Heq|Hin]; [contradiction | now apply IH].
  - lia.
Qed.

Lemma IndexByte_first (b p : string) (c : ascii) :
  ~ In c (list_ascii_of_string b) ->
  strings.IndexByte (b ++ String c p) c = strings.len b.
Proof.
  induction b as [|a b IH]; simpl; intros H.
  - now rewrite Ascii.eqb_refl.
  - destruct (Ascii.eqb_spec a c) as [->|Hne]; [exfalso; apply H; now left|].
    rewrite IH by (intros Hin; apply H; now right).
    rewrite len_String. pose proof (len_nonneg b).
    destruct (Z.ltb_spec (strings.len b) 0); lia.
Qed.

(** Every string either has no [c] or splits at its first [c]. *)
Lemma first_occurrence (s : string) (c : ascii) :
  ~ In c (list_ascii_of_string s) \/
  exists b p, s = b ++ String c p /\ ~ In c (list_ascii_of_string b).
Proof.
  induction s as [|a s IH]; [left; simpl; tauto|].
  destruct (Ascii.eqb_spec a c) as [->|Hne].
  - right. exists "", s. simpl. split; [reflexivity | tauto].
  - destruct IH as [IH | (b & p & -> & Hb)].
    + left. simpl. intros [E|E]; [contradiction | now apply IH].
    + right. exists (String a b), p. simpl. split; [reflexivity|].
      intros [E|E]; [contradiction | now apply Hb].
Qed.

End StringFacts.

(** ** The splitter meets its description *)

Lemma SplitBucketPrefix_rooted (r : string) :
  r <> "" ->
  SplitBucketPrefix (String "/" r) =
    (let sep := strings.IndexByte r "/" in
     if sep <? 0 then (r, "")
     else (strings.slice (String "/" r) 1 (sep + 1),
           strings.slice_from (String "/" r) (sep + 1 + 1))).
Proof.
  intros Hr. unfold SplitBucketPrefix.
  assert (E : (String "/" r =? "/")%string = false).
  { apply String.eqb_neq. intros H; inversion H; contradiction. }
  rewrite E. simpl orb. cbv iota.
  change (first_byte_is_slash (String "/" r)) with true. cbv iota.
  assert (E1 : strings.slice_from (String "/" r) 1 = r)
    by apply (slice_from_append "/" r).
  rewrite E1. reflexivity.
Qed.

Lemma SplitBucketPrefix_unrooted (s : string) :
  s <> "" -> first_byte_is_slash s = false ->
  SplitBucketPrefix s =
    (let sep := strings.IndexByte s "/" in
     if sep <? 0 then (s, "")
     else (strings.slice s 0 sep, strings.slice_from s (sep + 1))).
Proof.
  intros Hs Hf. unfold SplitBucketPrefix.
  assert (E1 : (s =? "")%string = false) by now apply String.eqb_neq.
  assert (E2 : (s =? "/")%string = false).
  { apply String.eqb_neq. intros ->. discriminate Hf. }
  rewrite E1, E2, Hf. simpl orb. cbv iota.
  rewrite slice_from_zero, !Z.add_0_r. reflexivity.
Qed.

Lemma slices_around_separator (pre bucket prefix : string) :
  let s := pre ++ bucket ++ String "/" prefix in
  strings.slice s (strings.len pre) (strings.len bucket + strings.len pre) = bucket /\
  strings.slice_from s (strings.len bucket + strings.len pre + 1) = prefix.
Proof.
  cbv zeta. split.
  - rewrite Z.add_comm. apply slice_middle.
  - replace (pre ++ bucket ++ String "/" prefix)
      with ((pre ++ bucket ++ "/") ++ prefix)
      by (now rewrite !append_assoc).
    replace (strings.len bucket + strings.len pre + 1)
      with (strings.len (pre ++ bucket ++ "/"))
      by (rewrite !len_append; change (strings.len "/") with 1; lia).
    apply slice_from_append.
Qed.

Lemma strip_leading_slash_cases (s : string) :
  (exists r, s = String "/" r /\ strip_leading_slash s = r) \/
  (first_byte_is_slash s = false /\ strip_leading_slash s = s).
Proof.
  destruct s as [|c r]; [right; split; reflexivity|].
  destruct (Ascii.eqb_spec c "/") as [->|Hne].
  - left. exists r. split; reflexivity.
  - right. split.
    + unfold first_byte_is_slash. simpl. now apply Ascii.eqb_neq.
    + unfold strip_leading_slash.
      destruct c as [[] [] [] [] [] [] [] []]; try reflexivity.
      now elim Hne.
Qed.

(** The cases of [SplitBucketPrefix], for use in the proofs below. *)
Lemma SplitBucketPrefix_cases :
  forall objectPath : string,
    objectPath <> "" -> objectPath <> "/" ->
    let rest := strip_leading_slash objectPath in
    (forall bucket prefix : string,
        rest = bucket ++ "/" ++ prefix -> no_slash bucket ->
        SplitBucketPrefix objectPath = (bucket, prefix)) /\
    (no_slash rest -> SplitBucketPrefix objectPath = (rest, "")) /\
    (no_slash rest \/
     exists bucket prefix : string,
       rest = bucket ++ "/" ++ prefix /\ no_slash bucket).
Proof.
  intros objectPath Hne Hns rest.
  assert (Hsplit :
    SplitBucketPrefix objectPath =
      (let start := strings.len objectPath - strings.len rest in
       let sep := strings.IndexByte rest "/" in
       if sep <? 0 then (rest, "")
       else (strings.slice objectPath start (sep + start),
             strings.slice_from objectPath (sep + start + 1))) /\
    exists pre, objectPath = pre ++ rest).
  { subst rest.
    destruct (strip_leading_slash_cases objectPath) as [(r & -> & E) | (Hf & E)].
    - rewrite E. split; [|exists "/"; reflexivity].
      rewrite SplitBucketPrefix_rooted by (intros ->; now apply Hns).
      rewrite len_String. cbv zeta.
      replace (1 + strings.len r - strings.len r) with 1 by lia. reflexivity.
    - rewrite E. split; [|exists ""; reflexivity].
      rewrite SplitBucketPrefix_unrooted by assumption.
      cbv zeta. rewrite Z.sub_diag, !Z.add_0_r. reflexivity. }
  destruct Hsplit as [Hsplit (pre & Hpre)].
  assert (Hstart : strings.len objectPath - strings.len rest = strings.len pre).
  { rewrite Hpre at 1. rewrite len_append. lia. }
  rewrite Hstart in Hsplit. cbv zeta in Hsplit.
  split; [|split].
  - intros bucket prefix Hrest Hb. rewrite Hsplit.
    simpl in Hrest.
    rewrite Hrest, (IndexByte_first bucket prefix "/" Hb).
    pose proof (len_nonneg bucket) as Hlen.
    destruct (Z.ltb_spec (strings.len bucket) 0); [lia|].
    rewrite Hpre, Hrest.
    destruct (slices_around_separator pre bucket prefix) as [-> ->].
    reflexivity.
  - intros Hrest. rewrite Hsplit.
    now rewrite (IndexByte_absent rest "/" Hrest).
  - destruct (first_occurrence rest "/") as [H | (b & p & E & Hb)].
    + now left.
    + right. exists b, p. split; assumption.
Qed.


(** C7. [SplitBucketPrefix] is a total function; the empty path and ["/"]
    give two empty components; on any other path, after one leading [/] is
    stripped (if there is one), the text before the first remaining [/] is
    the bucket and the text after it is the prefix, and a remainder with no
    [/] is the bucket, with an empty prefix.  The two cases cover every
    remainder. *)
Theorem SplitBucketPrefix_spec :
  SplitBucketPrefix "" = ("", "") /\
  SplitBucketPrefix "/" = ("", "") /\
  forall objectPath : string,
    objectPath <> "" -> objectPath <> "/" ->
    let rest := strip_leading_slash objectPath in
    (forall bucket prefix : string,
        rest = bucket ++ "/" ++ prefix -> no_slash bucket ->
        SplitBucketPrefix objectPath = (bucket, prefix)) /\
    (no_slash rest -> SplitBucketPrefix objectPath = (rest, "")) /\
    (no_slash rest \/
     exists bucket prefix : string,
       rest = bucket ++ "/" ++ prefix /\ no_slash bucket).
Proof.
  split; [reflexivity|]. split; [reflexivity|].
  intros objectPath Hne Hns. exact (SplitBucketPrefix_cases objectPath Hne Hns).
Qed.

(** A run of C7 on a rooted path with a nested prefix. *)
Lemma SplitBucketPrefix_spec_witness :
  SplitBucketPrefix "/bucket/dir/file.txt" = ("bucket", "dir/file.txt").
Proof.
  refine (proj1 (proj2 (proj2 SplitBucketPrefix_spec) "/bucket/dir/file.txt" _ _)
            "bucket" "dir/file.txt" _ _).
  - discriminate.
  - discriminate.
  - reflexivity.
  - unfold no_slash; simpl.
    intros H; repeat (destruct H as [H|H]; [discriminate H|]); exact H.
Defined.

(** ** The address parser *)

Section ParserFacts.

Variable url_Parse : string -> error + url.URL.

Lemma len_zero_iff (s : string) : (strings.len s =? 0) = true <-> s = "".
Proof.
  rewrite Z.eqb_eq. split; [apply len_zero | now intros ->].
Qed.

Lemma len_pos_iff (s : string) : (0 <? strings.len s) = true <-> s <> "".
Proof.
  rewrite Z.ltb_lt. split.
  - intros H ->. unfold strings.len in H. simpl in H. lia.
  - intros H. pose proof (len_nonneg s).
    destruct (Z.eq_dec (strings.len s) 0) as [E|E]; [|lia].
    now apply len_zero in E.
Qed.

Lemma accepted_dec (parsed : url.URL) : {accepted parsed} + {~ accepted parsed}.
Proof.
  unfold accepted.
  destruct (string_dec (strings.ToLower (url.Scheme parsed)) STORAGE_SCHEME);
    [|right; tauto].
  destruct (string_dec (url.Path parsed) ""); [right; tauto|].
  destruct (string_dec (url.Host parsed) ""); [left; tauto | right; tauto].
Qed.

Lemma ParseStorageURL_parsed (objectPath : string) (parsed : url.URL) :
  url_Parse objectPath = inr parsed ->
  (accepted parsed /\
   ParseStorageURL url_Parse objectPath = inr (url.Path parsed)) \/
  (~ accepted parsed /\
   ParseStorageURL url_Parse objectPath = inl errInvalidURL).
Proof.
  intros Hp. unfold ParseStorageURL, accepted. rewrite Hp.
  destruct (String.eqb_spec (strings.ToLower (url.Scheme parsed)) STORAGE_SCHEME)
    as [Hs|Hs]; simpl negb; simpl orb.
  - destruct (strings.len (url.Path parsed) =? 0) eqn:Hl; simpl orb.
    + apply len_zero_iff in Hl. right. split; [tauto | reflexivity].
    + destruct (0 <? strings.len (url.Host parsed)) eqn:Hh.
      * apply len_pos_iff in Hh. right. split; [tauto | reflexivity].
      * left. split; [|reflexivity]. split; [assumption|]. split.
        -- intros E. apply len_zero_iff in E. congruence.
        -- destruct (string_dec (url.Host parsed) "") as [E|E]; [assumption|].
           apply len_pos_iff in E. congruence.
  - right. split; [tauto | reflexivity].
Qed.

(** C3, as the code has it.  [ParseStorageURL] hands back the error of
    [url.Parse] unchanged when [url.Parse] rejects the address.  Otherwise it
    looks at the parsed URL only: it fails with [errInvalidURL] exactly when
    the scheme is not [ss] (letter case aside), or the path is empty, or a
    host is present, and in every other case it succeeds with the parsed
    path.  Nothing else of the address is checked. *)
Theorem ParseStorageURL_spec (objectPath : string) :
  (forall err : error,
      url_Parse objectPath = inl err ->
      ParseStorageURL url_Parse objectPath = inl err) /\
  (forall parsed : url.URL,
      url_Parse objectPath = inr parsed ->
      (ParseStorageURL url_Parse objectPath = inl errInvalidURL <->
       (strings.ToLower (url.Scheme parsed) <> STORAGE_SCHEME \/
        url.Path parsed = "" \/
        url.Host parsed <> "")) /\
      (ParseStorageURL url_Parse objectPath = inr (url.Path parsed) <->
       accepted parsed) /\
      (ParseStorageURL url_Parse objectPath = inl errInvalidURL \/
       ParseStorageURL url_Parse objectPath = inr (url.Path parsed))).
Proof.
  split.
  - intros err Hp. unfold ParseStorageURL. now rewrite Hp.
  - intros parsed Hp.
    destruct (ParseStorageURL_parsed objectPath parsed Hp) as [[Ha E]|[Ha E]];
      rewrite E.
    + split; [|split].
      * split; [discriminate|]. unfold accepted in Ha. tauto.
      * tauto.
      * now right.
    + split; [|split].
      * split; [|reflexivity]. intros _. unfold accepted in Ha.
        destruct (string_dec (strings.ToLower (url.Scheme parsed)) STORAGE_SCHEME);
          [|tauto].
        destruct (string_dec (url.Path parsed) ""); [tauto|].
        destruct (string_dec (url.Host parsed) ""); tauto.
      * split; [discriminate | tauto].
      * now left.
Qed.

(** C4, as the code has it.  On an address that [url.Parse] parses and the
    guard accepts, [ParseStorageURL] returns the parsed path as it is,
    leading [/] included, and [SplitBucketPrefix] takes exactly one leading
    [/] off that path: whenever the path reads [/bucket/prefix], the two
    components come back unchanged, and a path [/bucket] gives the bucket
    and an empty prefix. *)
Theorem split_parse_roundtrip (objectPath : string) (parsed : url.URL) :
  url_Parse objectPath = inr parsed ->
  accepted parsed ->
  ParseStorageURL url_Parse objectPath = inr (url.Path parsed) /\
  (forall bucket prefix : string,
      no_slash bucket ->
      url.Path parsed = "/" ++ bucket ++ "/" ++ prefix ->
      SplitBucketPrefix (url.Path parsed) = (bucket, prefix)) /\
  (forall bucket : string,
      no_slash bucket ->
      url.Path parsed = "/" ++ bucket ->
      SplitBucketPrefix (url.Path parsed) = (bucket, "")).
Proof.
  intros Hp Ha.
  destruct (ParseStorageURL_parsed objectPath parsed Hp) as [[_ E]|[Hn _]];
    [|contradiction].
  split; [exact E|]. split.
  - intros bucket prefix Hb ->.
    assert (H1 : "/" ++ bucket ++ "/" ++ prefix <> "") by discriminate.
    assert (H2 : "/" ++ bucket ++ "/" ++ prefix <> "/")
      by (destruct bucket; discriminate).
    exact (proj1 (SplitBucketPrefix_cases _ H1 H2) bucket prefix eq_refl Hb).
  - intros bucket Hb ->.
    destruct bucket as [|c bucket]; [reflexivity|].
    assert (H1 : "/" ++ String c bucket <> "") by discriminate.
    assert (H2 : "/" ++ String c bucket <> "/") by discriminate.
    exact (proj1 (proj2 (SplitBucketPrefix_cases _ H1 H2)) Hb).
Qed.

End ParserFacts.

(** C3 on a well-formed address: the sampled parser accepts it and the
    path comes back. *)
Lemma ParseStorageURL_spec_witness :
  ParseStorageURL url_Parse_sampled "ss:///bucket/dir/file.txt"
    = inr "/bucket/dir/file.txt" <->
  accepted {| url.Scheme := "ss"; url.Host := "";
              url.Path := "/bucket/dir/file.txt" |}.
Proof.
  exact (proj1 (proj2 (proj2 (ParseStorageURL_spec url_Parse_sampled
                                "ss:///bucket/dir/file.txt") _ eq_refl))).
Defined.

(** C3 as stated fails: an address with a single slash after the colon is
    accepted, and an address [url.Parse] rejects fails with the error of
    [url.Parse], which is not [errInvalidURL]. *)
Lemma ParseStorageURL_accepts_one_slash :
  ParseStorageURL url_Parse_sampled "ss:/bucket" = inr "/bucket" /\
  ParseStorageURL url_Parse_sampled ":"
    = inl (collaborator_error "parse: missing protocol scheme") /\
  collaborator_error "parse: missing protocol scheme" <> errInvalidURL.
Proof. repeat split. discriminate. Qed.

(** C4 on a well-formed address. *)
Lemma split_parse_roundtrip_witness :
  ParseStorageURL url_Parse_sampled "ss:///bucket/dir/file.txt"
    = inr "/bucket/dir/file.txt" /\
  SplitBucketPrefix "/bucket/dir/file.txt" = ("bucket", "dir/file.txt").
Proof.
  assert (Ha : accepted {| url.Scheme := "ss"; url.Host := "";
                           url.Path := "/bucket/dir/file.txt" |}).
  { repeat split. discriminate. }
  pose proof (split_parse_roundtrip url_Parse_sampled
                "ss:///bucket/dir/file.txt" _ eq_refl Ha) as [H1 [H2 _]].
  split; [exact H1|].
  apply (H2 "bucket" "dir/file.txt"); [|reflexivity].
  unfold no_slash; simpl.
  intros H; repeat (destruct H as [H|H]; [discriminate H|]); exact H.
Defined.

(** C4 as stated fails: the bucket written [a%20b] in the address comes
    back as [a b]. *)
Lemma split_parse_decodes_escapes :
  ParseStorageURL url_Parse_sampled "ss:///a%20b/c" = inr "/a b/c" /\
  SplitBucketPrefix "/a b/c" = ("a b", "c") /\
  "a b" <> "a%20b".
Proof. repeat split. discriminate. Qed.

(** ** The single-level listing *)

Lemma bind_run {St A B : Type} (m : M St A) (k : A -> M St B) (s s' : St)
    (r : outcome B) :
  bind m k s = (r, s') ->
  (exists (a : A) (s1 : St), m s = (Done a, s1) /\ k a s1 = (r, s')) \/
  (exists e : error, m s = (Failed e, s') /\ r = Failed e) \/
  (m s = (Timeout, s') /\ r = Timeout).
Proof.
  unfold bind. destruct (m s) as [[a|e|] s1]; intros H.
  - left. now exists a, s1.
  - right. left. exists e. now inversion H.
  - right. right. now inversion H.
Qed.

Lemma bind_done {St A B : Type} (m : M St A) (k : A -> M St B) (s s1 : St)
    (a : A) :
  m s = (Done a, s1) -> bind m k s = k a s1.
Proof. intros H. unfold bind. now rewrite H. Qed.

Lemma bind_failed {St A B : Type} (m : M St A) (k : A -> M St B) (s s1 : St)
    (e : error) :
  m s = (Failed e, s1) -> bind m k s = (Failed e, s1).
Proof. intros H. unfold bind. now rewrite H. Qed.

Lemma bind_timeout {St A B : Type} (m : M St A) (k : A -> M St B) (s s1 : St) :
  m s = (Timeout, s1) -> bind m k s = (Timeout, s1).
Proof. intros H. unfold bind. now rewrite H. Qed.

Lemma for_range_map {St A B : Type} (f : A -> B) (body : B -> M St unit)
    (l : list A) (s : St) :
  for_range l (fun x => body (f x)) s = for_range (map f l) body s.
Proof.
  revert s; induction l as [|x l IH]; intros s; simpl; [reflexivity|].
  unfold bind. destruct (body (f x) s) as [[[]| |] s']; auto.
Qed.

Lemma for_range_filter {St A : Type} (keep : A -> bool) (body : A -> M St unit)
    (l : list A) (s : St) :
  for_range l (fun x => if keep x then body x else ret tt) s
  = for_range (filter keep l) body s.
Proof.
  revert s; induction l as [|x l IH]; intros s; simpl; [reflexivity|].
  destruct (keep x); simpl; unfold bind.
  - destruct (body x s) as [[[]| |] s']; auto.
  - unfold ret. apply IH.
Qed.

Lemma delivered_app (t1 t2 : list event) :
  delivered (t1 ++ t2) = (delivered t1 ++ delivered t2)%list.
Proof. unfold delivered. apply flat_map_app. Qed.

Lemma backend_calls_app (t1 t2 : list event) :
  backend_calls (t1 ++ t2) = (backend_calls t1 ++ backend_calls t2)%list.
Proof. unfold backend_calls. apply filter_app. Qed.

Section ListingFacts.

Context {W : Type}.
Variable c : collaborators W.
Variable PAGE_LIMIT : Z.

Lemma observed_callback_run (arg : string) (s : observed W) :
  observed_callback c arg s
  = (of_error (fst (consumer c arg (world s))),
     {| world := snd (consumer c arg (world s));
        trace := (trace s ++ [CallbackCall arg (fst (consumer c arg (world s)))])%list |}).
Proof. unfold observed_callback. now destruct (consumer c arg (world s)). Qed.

Lemma observed_buckets_run (projectRef : string) (s : observed W) :
  observed_buckets c projectRef s
  = (of_result (fst (listBuckets c projectRef (world s))),
     {| world := snd (listBuckets c projectRef (world s));
        trace := (trace s
                  ++ [ListBucketsCall projectRef
                        (fst (listBuckets c projectRef (world s)))])%list |}).
Proof. unfold observed_buckets. now destruct (listBuckets c projectRef (world s)). Qed.

Lemma observed_objects_run (projectRef bucket prefix : string) (page : Z)
    (s : observed W) :
  observed_objects c projectRef bucket prefix page s
  = (of_result (fst (listObjects c projectRef bucket prefix page (world s))),
     {| world := snd (listObjects c projectRef bucket prefix page (world s));
        trace := (trace s
                  ++ [ListObjectsCall projectRef bucket prefix page
                        (fst (listObjects c projectRef bucket prefix page
                                (world s)))])%list |}).
Proof.
  unfold observed_objects.
  now destruct (listObjects c projectRef bucket prefix page (world s)).
Qed.

Lemma for_range_deliveries (names : list string) (s s' : observed W)
    (r : outcome unit) :
  for_range names (observed_callback c) s = (r, s') ->
  exists t : list event,
    trace s' = (trace s ++ t)%list /\ deliveries names r t.
Proof.
  revert s; induction names as [|name names IH]; intros s Hrun.
  - inversion Hrun; subst. exists []. rewrite app_nil_r.
    split; [reflexivity | constructor].
  - simpl in Hrun. apply bind_run in Hrun.
    rewrite observed_callback_run in Hrun.
    destruct (fst (consumer c name (world s))) as [e|] eqn:Hc; simpl in Hrun.
    + destruct Hrun as [(a & s1 & H & _)|[(e' & H & ->)|[H _]]];
        try discriminate.
      inversion H; subst. exists [CallbackCall name (Some e')].
      split; [reflexivity | constructor].
    + destruct Hrun as [(a & s1 & H & Hk)|[(e' & H & _)|[H _]]];
        try discriminate.
      inversion H; subst. destruct (IH _ Hk) as (t & Ht & Hd).
      exists (CallbackCall name None :: t). split.
      * rewrite Ht. simpl. now rewrite <- app_assoc.
      * now constructor.
Qed.

Lemma deliveries_delivered (names : list string) (r : outcome unit)
    (t : list event) :
  deliveries names r t ->
  backend_calls t = [] /\
  r <> Timeout /\
  (r = Done tt -> delivered t = names) /\
  (exists n : nat, delivered t = firstn n names).
Proof.
  induction 1 as [|name names r t H (IH1 & IH2 & IH3 & n & IH4)|name names e].
  - repeat split; try discriminate. now exists 0%nat.
  - repeat split; auto.
    + intros Hr. simpl. now rewrite IH3.
    + exists (S n). simpl. now rewrite IH4.
  - repeat split; try discriminate. now exists 1%nat.
Qed.

(** C6. When the bucket component is empty, or the prefix component is
    empty and the path does not end in [/], a listing makes exactly one
    call on the storage client, [listBuckets], and none on [listObjects];
    it never runs out of fuel; when the call fails its error is returned
    and nothing is delivered; otherwise the callback receives, in the order
    of the answer, the names that start with the bucket string, each with
    [/] appended: all of them when the listing returns without error, a
    first part of them when the callback fails. *)
Theorem bucket_listing (fuel : nat) (projectRef remotePath bucket prefix : string)
    (s : observed W) :
  SplitBucketPrefix remotePath = (bucket, prefix) ->
  bucket = "" \/ (prefix = "" /\ strings.HasSuffix remotePath "/" = false) ->
  exists rest : list event,
    let answer := fst (listBuckets c projectRef (world s)) in
    let r := fst (listing c PAGE_LIMIT fuel projectRef remotePath s) in
    trace (snd (listing c PAGE_LIMIT fuel projectRef remotePath s))
      = (trace s ++ ListBucketsCall projectRef answer :: rest)%list /\
    backend_calls rest = [] /\
    r <> Timeout /\
    match answer with
    | inl err => r = Failed err /\ rest = []
    | inr buckets =>
        let matching :=
          map (fun b => client.BucketName b ++ "/")
            (filter (fun b => strings.HasPrefix (client.BucketName b) bucket)
               buckets) in
        (r = Done tt -> delivered rest = matching) /\
        (exists n : nat, delivered rest = firstn n matching)
    end.
Proof.
  intros Hsplit Hbranch.
  destruct (listing c PAGE_LIMIT fuel projectRef remotePath s) as [r s'] eqn:Hrun.
  unfold listing, IterateStoragePaths in Hrun. rewrite Hsplit in Hrun.
  assert (Hcond : (strings.len bucket =? 0)
                  || ((strings.len prefix =? 0)
                      && negb (strings.HasSuffix remotePath "/")) = true).
  { destruct Hbranch as [->|[-> ->]]; [reflexivity|].
    apply orb_true_iff. now right. }
  rewrite Hcond in Hrun. apply bind_run in Hrun.
  rewrite observed_buckets_run in Hrun. cbv zeta. simpl fst. simpl snd.
  destruct (fst (listBuckets c projectRef (world s))) as [err|buckets];
    simpl in Hrun.
  - destruct Hrun as [(a & s1 & H & _)|[(e' & H & ->)|[H _]]]; try discriminate.
    inversion H; subst. exists []. repeat split. discriminate.
  - destruct Hrun as [(a & s1 & H & Hk)|[(e' & H & _)|[H _]]]; try discriminate.
    inversion H; subst.
    rewrite (for_range_filter
               (fun b => strings.HasPrefix (client.BucketName b) bucket)
               (fun b => observed_callback c (client.BucketName b ++ "/")))
      in Hk.
    rewrite (for_range_map (fun b => client.BucketName b ++ "/")
               (observed_callback c)) in Hk.
    destruct (for_range_deliveries _ _ _ _ Hk) as (t & Ht & Hd).
    exists t. rewrite Ht. simpl. rewrite <- app_assoc. simpl.
    destruct (deliveries_delivered _ _ _ Hd) as (H1 & H2 & H3 & H4).
    repeat split; assumption.
Qed.

Lemma for_range_undisturbed (names : list string) (s : observed W) :
  (forall (name : string) (w : W), fst (consumer c name w) = None) ->
  exists s' : observed W,
    for_range names (observed_callback c) s = (Done tt, s') /\
    trace s' = (trace s ++ map (fun name => CallbackCall name None) names)%list.
Proof.
  intros Hsink. revert s; induction names as [|name names IH]; intros s.
  - exists s. simpl. now rewrite app_nil_r.
  - simpl. unfold bind. rewrite observed_callback_run, Hsink. simpl.
    match goal with |- context [for_range names _ ?s1] =>
      destruct (IH s1) as (s' & Hrun & Ht) end.
    exists s'. split; [exact Hrun|].
    rewrite Ht. simpl. now rewrite <- app_assoc.
Qed.

Lemma page_loop_exit {St : Type}
    (ListStorageObjects :
       string -> string -> string -> Z -> M St (list client.ObjectResponse))
    (fuel : nat) (projectRef bucket prefix : string)
    (callback : string -> M St unit) (i pages : Z) :
  pages <= i ->
  page_loop PAGE_LIMIT ListStorageObjects fuel projectRef bucket prefix
    callback i pages = ret tt.
Proof.
  intros H. destruct fuel; simpl;
    destruct (Z.ltb_spec i pages); try lia; reflexivity.
Qed.

Lemma page_loop_pages (projectRef bucket prefix : string)
    (pages : nat -> list client.ObjectResponse) (k : nat) :
  (forall (j : nat) (w : W), (j <= k)%nat ->
      fst (listObjects c projectRef bucket prefix (Z.of_nat j) w)
        = inr (pages j)) ->
  (forall j : nat, (j < k)%nat ->
      Z.of_nat (List.length (pages j)) = PAGE_LIMIT) ->
  Z.of_nat (List.length (pages k)) <> PAGE_LIMIT ->
  (forall (name : string) (w : W), fst (consumer c name w) = None) ->
  forall (n i fuel : nat) (s : observed W),
    (i + n = k)%nat -> (n < fuel)%nat ->
    exists s' : observed W,
      page_loop PAGE_LIMIT (observed_objects c) fuel projectRef bucket prefix
        (observed_callback c) (Z.of_nat i) (Z.of_nat i + 1) s = (Done tt, s') /\
      trace s'
        = (trace s
           ++ flat_map (page_events projectRef bucket prefix pages)
                (seq i (S n)))%list.
Proof.
  intros Hpages Hfull Hshort Hsink.
  induction n as [|n IH]; intros i fuel s Hi Hfuel;
    (destruct fuel as [|fuel]; [lia|]); simpl page_loop;
    (destruct (Z.ltb_spec (Z.of_nat i) (Z.of_nat i + 1)) as [_|]; [|lia]);
    unfold bind at 1; rewrite observed_objects_run, (Hpages i) by lia;
    simpl of_result; cbv iota beta;
    unfold bind at 1;
    rewrite (for_range_map entry_name (observed_callback c));
    match goal with |- context [for_range ?names _ ?s1] =>
      destruct (for_range_undisturbed names s1 Hsink) as (s2 & Hrun & Ht) end;
    rewrite Hrun; cbv iota beta.
  - assert (i = k) by lia. subst i.
    destruct (Z.eqb_spec (Z.of_nat (List.length (pages k))) PAGE_LIMIT);
      [contradiction|].
    rewrite page_loop_exit by lia.
    exists s2. split; [reflexivity|].
    rewrite Ht. simpl. rewrite app_nil_r, <- app_assoc, map_map. reflexivity.
  - destruct (Z.eqb_spec (Z.of_nat (List.length (pages i))) PAGE_LIMIT) as [_|Hne];
      [|exfalso; apply Hne, Hfull; lia].
    replace (Z.of_nat i + 1) with (Z.of_nat (S i)) by lia.
    destruct (IH (S i) fuel s2 ltac:(lia) ltac:(lia)) as (s' & IH1 & IH2).
    exists s'. split; [exact IH1|].
    rewrite IH2, Ht. simpl trace.
    change (flat_map (page_events projectRef bucket prefix pages) (seq i (S (S n))))
      with (page_events projectRef bucket prefix pages i
            ++ flat_map (page_events projectRef bucket prefix pages)
                 (seq (S i) (S n)))%list.
    unfold page_events at 2. rewrite <- !app_assoc, map_map. reflexivity.
Qed.

(** C5. In the object branch (a bucket is named, and either a prefix is
    given or the path ends in [/]), let the storage client answer page [j]
    with [pages j], let pages [0 .. k-1] hold exactly [PAGE_LIMIT] entries
    and page [k] another number of them, and let the callback accept every
    name.  Then, with fuel for [k + 1] pages, the listing returns without
    error; it has fetched pages [0, 1, ..., k] in this order, each page once
    and no page after page [k]; and the entries of each page were delivered
    right after the page was fetched, in the order of the page. *)
Theorem pagination (fuel : nat) (projectRef remotePath bucket prefix : string)
    (pages : nat -> list client.ObjectResponse) (k : nat) (s : observed W) :
  SplitBucketPrefix remotePath = (bucket, prefix) ->
  bucket <> "" ->
  prefix <> "" \/ strings.HasSuffix remotePath "/" = true ->
  (forall (j : nat) (w : W), (j <= k)%nat ->
      fst (listObjects c projectRef bucket prefix (Z.of_nat j) w)
        = inr (pages j)) ->
  (forall j : nat, (j < k)%nat ->
      Z.of_nat (List.length (pages j)) = PAGE_LIMIT) ->
  Z.of_nat (List.length (pages k)) <> PAGE_LIMIT ->
  (forall (name : string) (w : W), fst (consumer c name w) = None) ->
  (k < fuel)%nat ->
  fst (listing c PAGE_LIMIT fuel projectRef remotePath s) = Done tt /\
  trace (snd (listing c PAGE_LIMIT fuel projectRef remotePath s))
    = (trace s
       ++ flat_map (page_events projectRef bucket prefix pages)
            (seq 0 (S k)))%list /\
  delivered (trace (snd (listing c PAGE_LIMIT fuel projectRef remotePath s)))
    = (delivered (trace s)
       ++ map entry_name (flat_map pages (seq 0 (S k))))%list.
Proof.
  intros Hsplit Hbucket Hprefix Hpages Hfull Hshort Hsink Hfuel.
  unfold listing, IterateStoragePaths. rewrite Hsplit.
  assert (Hcond : (strings.len bucket =? 0)
                  || ((strings.len prefix =? 0)
                      && negb (strings.HasSuffix remotePath "/")) = false).
  { apply orb_false_iff. split.
    - apply not_true_is_false. intros H. now apply len_zero_iff in H.
    - destruct Hprefix as [H| ->]; [|apply andb_false_r].
      apply andb_false_iff. left.
      apply not_true_is_false. intros E. now apply len_zero_iff in E. }
  rewrite Hcond.
  destruct (page_loop_pages projectRef bucket prefix pages k
              Hpages Hfull Hshort Hsink k 0%nat fuel s eq_refl Hfuel)
    as (s' & Hrun & Ht).
  change (Z.of_nat 0) with 0 in Hrun. change (0 + 1) with 1 in Hrun.
  rewrite Hrun. simpl fst. simpl snd.
  split; [reflexivity|]. split; [exact Ht|].
  rewrite Ht, delivered_app. f_equal.
  generalize (seq 0 (S k)) as js. intros js.
  induction js as [|j js IH]; [reflexivity|].
  change (delivered (page_events projectRef bucket prefix pages j
                     ++ flat_map (page_events projectRef bucket prefix pages) js)
          = map entry_name (pages j ++ flat_map pages js)).
  rewrite delivered_app, map_app, IH. f_equal.
  unfold page_events. simpl. clear.
  induction (pages j) as [|o l IHl]; [reflexivity|]. simpl. now rewrite IHl.
Qed.

End ListingFacts.

(** C6 on a service with three buckets, listed with the fragment [al]:
    one call, and the two buckets whose names start with [al]. *)
Lemma bucket_listing_witness :
  exists rest : list event,
    trace (snd (listing (serve 100 [("alpha", []); ("beta", []); ("alps", [])])
                  100 0 "ref" "/al" start))
      = ListBucketsCall "ref"
          (inr [ {| client.BucketName := "alpha" |};
                 {| client.BucketName := "beta" |};
                 {| client.BucketName := "alps" |} ]) :: rest /\
    backend_calls rest = [] /\
    delivered rest = ["alpha/"; "alps/"].
Proof.
  destruct (bucket_listing
              (serve 100 [("alpha", []); ("beta", []); ("alps", [])])
              100 0 "ref" "/al" "al" "" start eq_refl
              (or_intror (conj eq_refl eq_refl)))
    as (rest & Ht & Hb & _ & Hd & _).
  exists rest. split; [exact Ht|]. split; [exact Hb|].
  apply Hd. reflexivity.
Defined.

(** C5 with two entries a page and three entries under the prefix: page 0
    is full, page 1 is short, and the listing stops after page 1. *)
Lemma pagination_witness :
  let entries := [file "a"; file "b"; file "c"] in
  let run := listing (serve 2 [("docs", [("", entries)])]) 2 2 "ref" "/docs/" start in
  fst run = Done tt /\
  trace (snd run)
    = [ ListObjectsCall "ref" "docs" "" 0 (inr [file "a"; file "b"]);
        CallbackCall "a" None; CallbackCall "b" None;
        ListObjectsCall "ref" "docs" "" 1 (inr [file "c"]);
        CallbackCall "c" None ] /\
  delivered (trace (snd run)) = ["a"; "b"; "c"].
Proof.
  refine (pagination (serve 2 [("docs", [("", [file "a"; file "b"; file "c"])])])
            2 2 "ref" "/docs/" "docs" ""
            (fun j => page_of 2 (Z.of_nat j) [file "a"; file "b"; file "c"])
            1 start eq_refl _ (or_intror eq_refl) _ _ _ _ _).
  - discriminate.
  - intros j w _. reflexivity.
  - intros j Hj. assert (j = 0%nat) as -> by lia. reflexivity.
  - discriminate.
  - intros name w. reflexivity.
  - lia.
Defined.

(** ** Invariants of runs *)

Section Triples.

Context {St : Type}.
Variable J : outcome unit -> St -> Prop.

Lemma triple_ret : triple (J (Done tt)) (ret tt) J.
Proof. intros s s' r Hs Hrun. inversion Hrun; subst. exact Hs. Qed.

Lemma triple_out_of_fuel :
  (forall s : St, J (Done tt) s -> J Timeout s) ->
  triple (J (Done tt)) out_of_fuel J.
Proof. intros Ht s s' r Hs Hrun. inversion Hrun; subst. now apply Ht. Qed.

Lemma triple_bind {A : Type} (V : A -> Prop) (m : M St A) (k : A -> M St unit) :
  triple (J (Done tt)) m (returning J V) ->
  (forall a : A, V a -> triple (J (Done tt)) (k a) J) ->
  triple (J (Done tt)) (bind m k) J.
Proof.
  intros Hm Hk s s' r Hs Hrun.
  destruct (bind_run _ _ _ _ _ Hrun)
    as [(a & s1 & H1 & H2)|[(e & H1 & ->)|[H1 ->]]].
  - destruct (Hm _ _ _ Hs H1) as [HJ HV]. exact (Hk a HV _ _ _ HJ H2).
  - exact (Hm _ _ _ Hs H1).
  - exact (Hm _ _ _ Hs H1).
Qed.

Lemma triple_seq (m k : M St unit) :
  triple (J (Done tt)) m J ->
  triple (J (Done tt)) k J ->
  triple (J (Done tt)) (bind m (fun _ => k)) J.
Proof.
  intros Hm Hk. apply (triple_bind (fun _ => True)); [|intros _ _; exact Hk].
  intros s s' r Hs Hrun. pose proof (Hm _ _ _ Hs Hrun) as H.
  destruct r as [[]| |]; simpl; auto.
Qed.

Lemma triple_for_range {A : Type} (V : A -> Prop) (l : list A)
    (body : A -> M St unit) :
  Forall V l ->
  (forall x : A, V x -> triple (J (Done tt)) (body x) J) ->
  triple (J (Done tt)) (for_range l body) J.
Proof.
  intros Hl Hbody. induction Hl as [|x l Hx Hl IH]; simpl.
  - apply triple_ret.
  - apply triple_seq; [now apply Hbody | exact IH].
Qed.

Variable PAGE_LIMIT : Z.
Variable ListStorageBuckets : string -> M St (list client.BucketResponse).
Variable ListStorageObjects :
  string -> string -> string -> Z -> M St (list client.ObjectResponse).

Lemma triple_page_loop (N : string -> Prop) (fuel : nat)
    (projectRef bucket prefix : string) (callback : string -> M St unit)
    (i pages : Z) :
  (forall s : St, J (Done tt) s -> J Timeout s) ->
  (forall page : Z,
      triple (J (Done tt)) (ListStorageObjects projectRef bucket prefix page)
        (returning J (Forall (fun o => N (entry_name o))))) ->
  (forall name : string, N name -> triple (J (Done tt)) (callback name) J) ->
  triple (J (Done tt))
    (page_loop PAGE_LIMIT ListStorageObjects fuel projectRef bucket prefix
       callback i pages) J.
Proof.
  intros Ht Hobjects Hcallback.
  revert i pages; induction fuel as [|fuel IH]; intros i pages; simpl;
    destruct (i <? pages); try apply triple_ret.
  - now apply triple_out_of_fuel.
  - apply (triple_bind (Forall (fun o => N (entry_name o)))); [apply Hobjects|].
    intros objects Hall. apply triple_seq; [|apply IH].
    apply (triple_for_range (fun o => N (entry_name o))); [exact Hall|].
    intros o Ho. now apply Hcallback.
Qed.

Lemma triple_IterateStoragePaths (Vb : client.BucketResponse -> Prop)
    (N : string -> Prop) (fuel : nat) (projectRef remotePath : string)
    (callback : string -> M St unit) :
  (forall s : St, J (Done tt) s -> J Timeout s) ->
  triple (J (Done tt)) (ListStorageBuckets projectRef)
    (returning J (Forall Vb)) ->
  (forall (bucket prefix : string) (page : Z),
      lists_buckets remotePath = false ->
      triple (J (Done tt)) (ListStorageObjects projectRef bucket prefix page)
        (returning J (Forall (fun o => N (entry_name o))))) ->
  (forall b : client.BucketResponse,
      lists_buckets remotePath = true -> Vb b ->
      N (client.BucketName b ++ "/")) ->
  (forall name : string, N name -> triple (J (Done tt)) (callback name) J) ->
  triple (J (Done tt))
    (IterateStoragePaths PAGE_LIMIT ListStorageBuckets ListStorageObjects
       fuel projectRef remotePath callback) J.
Proof.
  intros Ht Hbuckets Hobjects Hnames Hcallback.
  unfold IterateStoragePaths, lists_buckets in *.
  destruct (SplitBucketPrefix remotePath) as [bucket prefix].
  destruct ((strings.len bucket =? 0)
            || ((strings.len prefix =? 0)
                && negb (strings.HasSuffix remotePath "/"))).
  - apply (triple_bind (Forall Vb)); [exact Hbuckets|].
    intros buckets Hall. apply (triple_for_range Vb); [exact Hall|].
    intros b Hb. destruct (strings.HasPrefix (client.BucketName b) bucket).
    + apply Hcallback. now apply Hnames.
    + apply triple_ret.
  - apply (triple_page_loop N); auto.
Qed.

End Triples.

Lemma lift_run {St L A : Type} (m : M St A) (s : St) (l : L) :
  lift m (s, l) = (fst (m s), (snd (m s), l)).
Proof. unfold lift. simpl. now destruct (m s). Qed.

Lemma Forall_last {A : Type} (P : A -> Prop) (l : list A) (d : A) :
  Forall P l -> l <> [] -> P (List.last l d).
Proof.
  induction 1 as [|x l Hx Hl IH]; intros Hne; [contradiction|].
  destruct l as [|y l]; [exact Hx|]. apply IH. discriminate.
Qed.

Lemma Forall_removelast {A : Type} (P : A -> Prop) (l : list A) :
  Forall P l -> Forall P (List.removelast l).
Proof.
  induction 1 as [|x l Hx Hl IH]; [constructor|].
  destruct l as [|y l]; [constructor|]. constructor; assumption.
Qed.

Section WalkerTriples.

Context {St : Type}.
Variable T : outcome unit -> St -> Prop.
Variable good : string -> Prop.
Variable allowed : string -> Prop.
Variable PAGE_LIMIT : Z.
Variable ListStorageBuckets : string -> M St (list client.BucketResponse).
Variable ListStorageObjects :
  string -> string -> string -> Z -> M St (list client.ObjectResponse).
Variable callback : string -> M St unit.
Variable Vb : client.BucketResponse -> Prop.

Hypothesis T_timeout : forall s : St, T (Done tt) s -> T Timeout s.
Hypothesis T_buckets :
  forall projectRef : string,
    triple (T (Done tt)) (ListStorageBuckets projectRef)
      (returning T (Forall Vb)).
Hypothesis T_objects :
  forall (projectRef bucket prefix : string) (page : Z),
    triple (T (Done tt)) (ListStorageObjects projectRef bucket prefix page)
      (returning T (fun _ => True)).
Hypothesis T_callback :
  forall arg : string, allowed arg -> triple (T (Done tt)) (callback arg) T.
Hypothesis good_drainable :
  forall dirPath : string, good dirPath -> drainable good allowed dirPath.

Local Abbreviation Jw := (walk_invariant T good).

Lemma Jw_timeout (sl : St * walk_locals) : Jw (Done tt) sl -> Jw Timeout sl.
Proof. intros [H1 H2]. split; [now apply T_timeout | exact H2]. Qed.

Lemma triple_lift_returning {A : Type} (V : A -> Prop) (m : M St A) :
  triple (T (Done tt)) m (returning T V) ->
  triple (Jw (Done tt)) (lift m) (returning Jw V).
Proof.
  intros Hm [s l] [s' l'] r [Hs Hq] Hrun. rewrite lift_run in Hrun.
  inversion Hrun; subst. simpl in *.
  pose proof (Hm s (snd (m s)) (fst (m s)) Hs (surjective_pairing _)) as H.
  unfold returning, Jw, walk_invariant in *.
  destruct (fst (m s)); simpl; tauto.
Qed.

Lemma triple_lift_callback (arg : string) :
  allowed arg -> triple (Jw (Done tt)) (lift (callback arg)) Jw.
Proof.
  intros Ha [s l] [s' l'] r [Hs Hq] Hrun. rewrite lift_run in Hrun.
  inversion Hrun; subst. simpl in *. split; [|exact Hq].
  exact (T_callback arg Ha s _ _ Hs (surjective_pairing _)).
Qed.

Lemma triple_update_local (f : walk_locals -> walk_locals) :
  (forall l : walk_locals,
      Forall good (dirQueue l) -> Forall good (dirQueue (f l))) ->
  triple (Jw (Done tt)) (update_local f) Jw.
Proof.
  intros Hf [s l] [s' l'] r [Hs Hq] Hrun. inversion Hrun; subst.
  split; [exact Hs | now apply Hf].
Qed.

Lemma triple_enqueue (objectPath : string) :
  good objectPath -> triple (Jw (Done tt)) (update_local (enqueue objectPath)) Jw.
Proof.
  intros Hg. apply triple_update_local. intros l Hl. simpl.
  apply Forall_app. split; [exact Hl | now constructor].
Qed.

Lemma triple_seed_callback (basePath objectName : string) :
  (strings.HasSuffix objectName "/" = true -> good (basePath ++ objectName)) ->
  (strings.HasSuffix objectName "/" = false -> allowed (basePath ++ objectName)) ->
  triple (Jw (Done tt)) (seed_callback basePath callback objectName) Jw.
Proof.
  intros Hdir Hleaf. unfold seed_callback.
  destruct (strings.HasSuffix objectName "/") eqn:E.
  - apply triple_enqueue. now apply Hdir.
  - apply triple_lift_callback. now apply Hleaf.
Qed.

Lemma triple_drain_callback (dirPath objectName : string) :
  drainable good allowed dirPath ->
  triple (Jw (Done tt)) (drain_callback dirPath callback objectName) Jw.
Proof.
  intros (Hdir & Hleaf & _). unfold drain_callback. apply triple_seq.
  - apply triple_update_local. auto.
  - destruct (strings.HasSuffix objectName "/") eqn:E.
    + apply triple_enqueue. now apply Hdir.
    + apply triple_lift_callback. now apply Hleaf.
Qed.

(** A listing on the locals: the names of [N] go to the callback, where
    [N] holds the names of the buckets listed, a slash added, when the
    listing is one of buckets, and any name otherwise. *)
Lemma triple_listing_in (N : string -> Prop) (fuel : nat)
    (projectRef remotePath : string)
    (cb : string -> M (St * walk_locals) unit) :
  (forall b : client.BucketResponse,
      lists_buckets remotePath = true -> Vb b ->
      N (client.BucketName b ++ "/")) ->
  (lists_buckets remotePath = false -> forall name : string, N name) ->
  (forall name : string, N name -> triple (Jw (Done tt)) (cb name) Jw) ->
  triple (Jw (Done tt))
    (IterateStoragePaths_in walk_locals PAGE_LIMIT ListStorageBuckets
       ListStorageObjects fuel projectRef remotePath cb) Jw.
Proof.
  intros Hb Ho Hcb. unfold IterateStoragePaths_in.
  apply (triple_IterateStoragePaths Jw PAGE_LIMIT _ _ Vb N).
  - exact Jw_timeout.
  - intros s s' r Hs Hrun.
    exact (triple_lift_returning _ _ (T_buckets projectRef) s s' r Hs Hrun).
  - intros bucket prefix page Hbranch s s' r Hs Hrun.
    pose proof (triple_lift_returning _ _
                  (T_objects projectRef bucket prefix page) s s' r Hs Hrun) as H.
    destruct r; simpl in *; try tauto. split; [tauto|].
    apply Forall_forall. intros o _. now apply Ho.
  - exact Hb.
  - exact Hcb.
Qed.

Lemma triple_drain_dir (fuel : nat) (projectRef dirPath : string) :
  drainable good allowed dirPath ->
  triple (Jw (Done tt))
    (drain_dir PAGE_LIMIT ListStorageBuckets ListStorageObjects fuel
       projectRef callback dirPath) Jw.
Proof.
  intros Hg. unfold drain_dir. apply triple_seq.
  - apply triple_update_local. auto.
  - apply triple_seq.
    + apply (triple_listing_in (fun _ => True)); [auto | auto |].
      intros name _. now apply triple_drain_callback.
    + destruct (SplitBucketPrefix dirPath) as [bucket prefix] eqn:Hsplit.
      intros [s l] sl' r Hs Hrun. unfold bind, get_local in Hrun.
      simpl in Hrun.
      destruct (empty l && (strings.len prefix =? 0)) eqn:E.
      * apply andb_true_iff in E. destruct E as [_ E].
        apply Z.eqb_eq in E. apply len_zero in E. subst prefix.
        refine (triple_lift_callback (bucket ++ "/") _ _ _ _ Hs Hrun).
        now apply (proj2 (proj2 Hg)).
      * exact (triple_ret Jw _ _ _ Hs Hrun).
Qed.

Lemma triple_drain_loop (fuel : nat) (projectRef : string) :
  triple (Jw (Done tt))
    (drain_loop PAGE_LIMIT ListStorageBuckets ListStorageObjects fuel
       projectRef callback) Jw.
Proof.
  induction fuel as [|fuel IH]; intros [s l] sl' r Hs Hrun;
    simpl in Hrun; unfold bind at 1, get_local at 1 in Hrun; simpl in Hrun.
  - destruct (0 <? Z.of_nat (List.length (dirQueue l))).
    + exact (triple_out_of_fuel Jw Jw_timeout _ _ _ Hs Hrun).
    + exact (triple_ret Jw _ _ _ Hs Hrun).
  - destruct (Z.ltb_spec 0 (Z.of_nat (List.length (dirQueue l)))) as [Hlen|Hlen].
    + revert Hrun. apply triple_seq; [|apply triple_seq|exact Hs].
      * apply triple_update_local. intros l' _. simpl.
        apply Forall_removelast. exact (proj2 Hs).
      * apply triple_drain_dir. apply good_drainable.
        apply Forall_last; [exact (proj2 Hs)|].
        intros E. simpl in E. rewrite E in Hlen. simpl in Hlen. lia.
      * exact IH.
    + exact (triple_ret Jw _ _ _ Hs Hrun).
Qed.

Lemma triple_IterateStoragePathsAll (N : string -> Prop) (fuel : nat)
    (projectRef remotePath : string) :
  (forall b : client.BucketResponse,
      lists_buckets remotePath = true -> Vb b ->
      N (client.BucketName b ++ "/")) ->
  (lists_buckets remotePath = false -> forall name : string, N name) ->
  (forall name : string,
      N name -> strings.HasSuffix name "/" = true ->
      good (base_path remotePath ++ name)) ->
  (forall name : string,
      N name -> strings.HasSuffix name "/" = false ->
      allowed (base_path remotePath ++ name)) ->
  triple (T (Done tt))
    (IterateStoragePathsAll PAGE_LIMIT ListStorageBuckets ListStorageObjects
       fuel projectRef remotePath callback) T.
Proof.
  intros Hb Ho Hdir Hleaf s s' r Hs Hrun. unfold IterateStoragePathsAll in Hrun.
  destruct (walk_body PAGE_LIMIT ListStorageBuckets ListStorageObjects fuel
              projectRef remotePath callback
              (s, {| dirQueue := []; empty := true |}))
    as [r1 [s1 l1]] eqn:Hbody.
  inversion Hrun; subst.
  assert (H : Jw r (s', l1)).
  { revert Hbody. unfold walk_body. apply triple_seq.
    - apply (triple_listing_in N); [exact Hb | exact Ho |].
      intros name Hn. apply triple_seed_callback; auto.
    - apply triple_drain_loop.
    - split; [exact Hs | constructor]. }
  exact (proj1 H).
Qed.

End WalkerTriples.

(** ** Failures stop a run *)

Lemma clean_app (t1 t2 : list event) : clean t1 -> clean t2 -> clean (t1 ++ t2).
Proof. intros H1 H2. apply Forall_app. now split. Qed.

Lemma clean_no_failure (t before after : list event) (ev : event) (e : error) :
  clean t -> t = (before ++ ev :: after)%list -> failure ev = Some e -> False.
Proof.
  intros Hc -> He. apply Forall_app in Hc. destruct Hc as [_ Hc].
  inversion Hc; subst. congruence.
Qed.

Lemma halted_stops {W : Type} (s : observed W) (run : outcome unit * observed W) :
  orderly (trace s) (fst run) (snd run) -> stops_at_first_failure s run.
Proof.
  intros (t & Ht & Hh). exists t. split; [exact Ht|]. split.
  - intros before after ev e Hsplit He.
    destruct (fst run) as [[]|e'|]; simpl in Hh;
      try (exfalso; exact (clean_no_failure _ _ _ _ _ Hh Hsplit He)).
    destruct Hh as (before' & ev' & Hlast & Hc & He').
    rewrite Hlast in Hsplit.
    destruct after as [|ev2 after].
    + apply app_inj_tail in Hsplit. destruct Hsplit as [_ ->].
      split; [reflexivity | congruence].
    + exfalso. change (ev :: ev2 :: after) with ([ev] ++ ev2 :: after)%list in Hsplit.
      rewrite app_assoc in Hsplit.
      destruct (exists_last (l := ev2 :: after) ltac:(discriminate))
        as (mid & lst & Hmid).
      rewrite Hmid, app_assoc in Hsplit.
      apply app_inj_tail in Hsplit. destruct Hsplit as [-> _].
      rewrite <- app_assoc in Hc. simpl in Hc.
      exact (clean_no_failure _ _ _ _ _ Hc eq_refl He).
  - intros e Hr. rewrite Hr in Hh. simpl in Hh.
    destruct Hh as (before & ev & Hlast & _ & He). now exists before, ev.
Qed.

Section Orderly.

Context {W : Type}.
Variable c : collaborators W.
Variable t0 : list event.

Lemma orderly_timeout (s : observed W) :
  orderly t0 (Done tt) s -> orderly t0 Timeout s.
Proof. intros H. exact H. Qed.

Lemma orderly_step (s : observed W) (ev : event) (w : W) :
  orderly t0 (Done tt) s ->
  match failure ev with
  | Some e => orderly t0 (Failed e) {| world := w; trace := (trace s ++ [ev])%list |}
  | None => orderly t0 (Done tt) {| world := w; trace := (trace s ++ [ev])%list |}
  end.
Proof.
  intros (t & Ht & Hc). simpl in Hc.
  destruct (failure ev) as [e|] eqn:He.
  - exists (t ++ [ev])%list. simpl. rewrite Ht, <- app_assoc.
    split; [reflexivity|]. now exists t, ev.
  - exists (t ++ [ev])%list. simpl. rewrite Ht, <- app_assoc.
    split; [reflexivity|]. apply clean_app; [exact Hc|]. now constructor.
Qed.

Lemma orderly_callback (arg : string) :
  triple (orderly t0 (Done tt)) (observed_callback c arg) (orderly t0).
Proof.
  intros s s' r Hs Hrun. unfold observed_callback in Hrun.
  destruct (consumer c arg (world s)) as [[e|] w]; inversion Hrun; subst.
  - exact (orderly_step s (CallbackCall arg (Some e)) w Hs).
  - exact (orderly_step s (CallbackCall arg None) w Hs).
Qed.

Lemma orderly_buckets (projectRef : string) :
  triple (orderly t0 (Done tt)) (observed_buckets c projectRef)
    (returning (orderly t0) (Forall (fun _ => True))).
Proof.
  intros s s' r Hs Hrun. unfold observed_buckets in Hrun.
  destruct (listBuckets c projectRef (world s)) as [[e|bs] w];
    inversion Hrun; subst; simpl.
  - exact (orderly_step s (ListBucketsCall projectRef (inl e)) w Hs).
  - split; [|apply Forall_forall; auto].
    exact (orderly_step s (ListBucketsCall projectRef (inr bs)) w Hs).
Qed.

Lemma orderly_objects (projectRef bucket prefix : string) (page : Z) :
  triple (orderly t0 (Done tt)) (observed_objects c projectRef bucket prefix page)
    (returning (orderly t0) (fun _ => True)).
Proof.
  intros s s' r Hs Hrun. unfold observed_objects in Hrun.
  destruct (listObjects c projectRef bucket prefix page (world s)) as [[e|os] w];
    inversion Hrun; subst; simpl.
  - exact (orderly_step s (ListObjectsCall projectRef bucket prefix page (inl e)) w Hs).
  - split; [|exact I].
    exact (orderly_step s (ListObjectsCall projectRef bucket prefix page (inr os)) w Hs).
Qed.

Lemma orderly_listing (PAGE_LIMIT : Z) (fuel : nat) (projectRef remotePath : string) :
  triple (orderly t0 (Done tt)) (listing c PAGE_LIMIT fuel projectRef remotePath)
    (orderly t0).
Proof.
  unfold listing.
  apply (triple_IterateStoragePaths (orderly t0) PAGE_LIMIT _ _
           (fun _ => True) (fun _ => True)).
  - exact orderly_timeout.
  - apply orderly_buckets.
  - intros bucket prefix page _ s s' r Hs Hrun.
    pose proof (orderly_objects projectRef bucket prefix page s s' r Hs Hrun) as H.
    destruct r; simpl in *; try tauto. split; [tauto|].
    apply Forall_forall. auto.
  - auto.
  - intros name _. apply orderly_callback.
Qed.

Lemma orderly_walk (PAGE_LIMIT : Z) (fuel : nat) (projectRef remotePath : string) :
  triple (orderly t0 (Done tt)) (walk c PAGE_LIMIT fuel projectRef remotePath)
    (orderly t0).
Proof.
  unfold walk.
  apply (triple_IterateStoragePathsAll (orderly t0) (fun _ => True)
           (fun _ => True) PAGE_LIMIT _ _ _ (fun _ => True)
           orderly_timeout orderly_buckets orderly_objects
           (fun arg _ => orderly_callback arg)
           (fun dirPath _ => conj (fun _ _ => I) (conj (fun _ _ => I) (fun _ _ => I)))
           (fun _ => True)); auto.
Qed.

End Orderly.

Lemma orderly_start {W : Type} (s : observed W) : orderly (trace s) (Done tt) s.
Proof. exists []. rewrite app_nil_r. split; [reflexivity | constructor]. Qed.

(** ** A listing that returns no entry *)

Section SilentListing.

Context {St : Type}.
Variable PAGE_LIMIT : Z.
Variable ListStorageBuckets : string -> M St (list client.BucketResponse).
Variable ListStorageObjects :
  string -> string -> string -> Z -> M St (list client.ObjectResponse).

Lemma for_range_collect (names result : list string) (s : St) :
  for_range names collect (s, result) = (Done tt, (s, (result ++ names)%list)).
Proof.
  revert result; induction names as [|name names IH]; intros result; simpl.
  - now rewrite app_nil_r.
  - unfold bind. simpl. rewrite IH, <- app_assoc. reflexivity.
Qed.

(** A run of the page loop that collects nothing does the same calls
    whatever the callback is, and leaves the callback's locals alone. *)
Lemma page_loop_collect (fuel : nat) (projectRef bucket prefix : string)
    (i pages : Z) (s s1 : St) (result result1 : list string) (r : outcome unit) :
  page_loop PAGE_LIMIT
    (fun projectRef bucket prefix page =>
       lift (ListStorageObjects projectRef bucket prefix page))
    fuel projectRef bucket prefix collect i pages (s, result)
    = (r, (s1, result1)) ->
  exists extra : list string,
    result1 = (result ++ extra)%list /\
    (extra = [] ->
     forall (L : Type) (cb : string -> M (St * L) unit) (l : L),
       page_loop PAGE_LIMIT
         (fun projectRef bucket prefix page =>
            lift (ListStorageObjects projectRef bucket prefix page))
         fuel projectRef bucket prefix cb i pages (s, l)
       = (r, (s1, l))).
Proof.
  revert i pages s result; induction fuel as [|fuel IH];
    intros i pages s result; simpl; destruct (i <? pages).
  - intros H; inversion H; subst. exists []. now rewrite app_nil_r.
  - intros H; inversion H; subst. exists []. now rewrite app_nil_r.
  - unfold bind at 1. rewrite lift_run.
    destruct (fst (ListStorageObjects projectRef bucket prefix i s))
      as [objects|e|] eqn:Hcall.
    + unfold bind at 1.
      rewrite (for_range_map entry_name collect), for_range_collect.
      intros H. destruct (IH _ _ _ _ H) as (extra & -> & Hsame).
      exists (map entry_name objects ++ extra)%list.
      split; [now rewrite app_assoc|].
      intros Hnil. apply app_eq_nil in Hnil. destruct Hnil as [Hm ->].
      apply map_eq_nil in Hm. subst objects.
      intros L cb l. unfold bind at 1. rewrite lift_run, Hcall.
      unfold bind at 1. simpl for_range. unfold ret.
      now apply Hsame.
    + intros H; inversion H; subst. exists []. rewrite app_nil_r.
      split; [reflexivity|]. intros _ L cb l.
      unfold bind. now rewrite lift_run, Hcall.
    + intros H; inversion H; subst. exists []. rewrite app_nil_r.
      split; [reflexivity|]. intros _ L cb l.
      unfold bind. now rewrite lift_run, Hcall.
  - intros H; inversion H; subst. exists []. now rewrite app_nil_r.
Qed.

Lemma listing_collect (fuel : nat) (projectRef remotePath : string)
    (s s1 : St) (r : outcome unit) :
  ListStoragePaths PAGE_LIMIT ListStorageBuckets ListStorageObjects
    fuel projectRef remotePath s = (([], r), s1) ->
  forall (L : Type) (cb : string -> M (St * L) unit) (l : L),
    IterateStoragePaths_in L PAGE_LIMIT ListStorageBuckets ListStorageObjects
      fuel projectRef remotePath cb (s, l) = (r, (s1, l)).
Proof.
  unfold ListStoragePaths, IterateStoragePaths_in, IterateStoragePaths.
  destruct (SplitBucketPrefix remotePath) as [bucket prefix].
  destruct ((strings.len bucket =? 0)
            || ((strings.len prefix =? 0)
                && negb (strings.HasSuffix remotePath "/"))).
  - unfold bind at 1. rewrite lift_run.
    destruct (fst (ListStorageBuckets projectRef s)) as [buckets|e|] eqn:Hcall.
    + rewrite (for_range_filter
                 (fun b => strings.HasPrefix (client.BucketName b) bucket)
                 (fun b => collect (client.BucketName b ++ "/"))).
      rewrite (for_range_map (fun b => client.BucketName b ++ "/") collect).
      rewrite for_range_collect. simpl. intros H; inversion H; subst.
      intros L cb l. unfold bind. rewrite lift_run, Hcall.
      rewrite (for_range_filter
                 (fun b => strings.HasPrefix (client.BucketName b) bucket)
                 (fun b => cb (client.BucketName b ++ "/"))).
      rewrite (for_range_map (fun b => client.BucketName b ++ "/") cb).
      match goal with H : map _ ?l = [] |- _ =>
        apply map_eq_nil in H; rewrite H end.
      reflexivity.
    + intros H; inversion H; subst. intros L cb l.
      unfold bind. now rewrite lift_run, Hcall.
    + intros H; inversion H; subst. intros L cb l.
      unfold bind. now rewrite lift_run, Hcall.
  - match goal with |- context [page_loop ?a ?b ?c ?d ?e ?f ?g ?h ?i ?j] =>
      destruct (page_loop a b c d e f g h i j) as [r0 [s0 result0]] eqn:Hloop end.
    intros H; inversion H; subst.
    destruct (page_loop_collect _ _ _ _ _ _ _ _ _ _ _ Hloop) as (extra & He & Hsame).
    simpl in He. subst extra. now apply Hsame.
Qed.

End SilentListing.

(** ** One turn of the queue on a directory whose listing is empty *)

Lemma last_snoc {A : Type} (l : list A) (x d : A) : List.last (l ++ [x]) d = x.
Proof.
  induction l as [|y l IH]; [reflexivity|].
  simpl. destruct (l ++ [x])%list eqn:E; [|exact IH].
  destruct l; discriminate.
Qed.

Lemma removelast_snoc {A : Type} (l : list A) (x : A) :
  List.removelast (l ++ [x]) = l.
Proof.
  induction l as [|y l IH]; [reflexivity|].
  simpl. destruct (l ++ [x])%list eqn:E.
  - destruct l; discriminate.
  - now rewrite IH.
Qed.

Section DrainTurn.

Context {St : Type}.
Variable PAGE_LIMIT : Z.
Variable ListStorageBuckets : string -> M St (list client.BucketResponse).
Variable ListStorageObjects :
  string -> string -> string -> Z -> M St (list client.ObjectResponse).
Variable callback : string -> M St unit.

(** When the listing of the last directory of the queue returns no entry,
    the turn makes the calls of that listing, reports the directory if its
    prefix component is empty, and goes on with the rest of the queue. *)
Lemma drain_turn_on_empty_listing (fuel : nat)
    (projectRef dirPath bucket prefix : string) (queue : list string)
    (flag : bool) (s s1 : St) :
  SplitBucketPrefix dirPath = (bucket, prefix) ->
  ListStoragePaths PAGE_LIMIT ListStorageBuckets ListStorageObjects
    (S fuel) projectRef dirPath s = (([], Done tt), s1) ->
  drain_loop PAGE_LIMIT ListStorageBuckets ListStorageObjects (S fuel)
    projectRef callback
    (s, {| dirQueue := (queue ++ [dirPath])%list; empty := flag |})
  = bind (if strings.len prefix =? 0
          then lift (callback (bucket ++ "/"))
          else ret tt)
      (fun _ =>
         drain_loop PAGE_LIMIT ListStorageBuckets ListStorageObjects fuel
           projectRef callback)
      (s1, {| dirQueue := queue; empty := true |}).
Proof.
  intros Hsplit Hlist.
  assert (Hlen : (0 <? Z.of_nat (List.length (queue ++ [dirPath])%list)) = true).
  { apply Z.ltb_lt. rewrite length_app. simpl. lia. }
  simpl drain_loop. unfold bind at 1, get_local at 1. simpl.
  rewrite Hlen, last_snoc, removelast_snoc.
  unfold bind at 1, update_local at 1. simpl.
  unfold bind at 1, drain_dir. unfold bind at 1, update_local at 1. simpl.
  unfold bind at 1.
  rewrite (listing_collect _ _ _ _ _ _ _ _ _ Hlist).
  rewrite Hsplit. unfold bind at 1, get_local at 1. simpl.
  unfold bind. reflexivity.
Qed.

End DrainTurn.

(** The calls on the storage client deliver nothing. *)
Lemma observed_buckets_delivered {W : Type} (c : collaborators W)
    (projectRef : string) (s : observed W) :
  delivered (trace (snd (observed_buckets c projectRef s))) = delivered (trace s).
Proof.
  rewrite observed_buckets_run. simpl. rewrite delivered_app. simpl.
  apply app_nil_r.
Qed.

Lemma observed_objects_delivered {W : Type} (c : collaborators W)
    (projectRef bucket prefix : string) (page : Z) (s : observed W) :
  delivered (trace (snd (observed_objects c projectRef bucket prefix page s)))
  = delivered (trace s).
Proof.
  rewrite observed_objects_run. simpl. rewrite delivered_app. simpl.
  apply app_nil_r.
Qed.

Lemma returning_any {St A : Type} (J : outcome unit -> St -> Prop)
    (V : A -> Prop) (r : outcome A) (s : St) :
  (forall r' : outcome unit, J r' s) -> (forall a : A, V a) -> returning J V r s.
Proof. intros HJ HV. destruct r; simpl; auto. Qed.

(** A listing through [ListStoragePaths] never calls the consumer. *)
Lemma ListStoragePaths_delivers_nothing {W : Type} (c : collaborators W)
    (PAGE_LIMIT : Z) (fuel : nat) (projectRef remotePath : string)
    (s s1 : observed W) (names : list string) (r : outcome unit) :
  ListStoragePaths PAGE_LIMIT (observed_buckets c) (observed_objects c)
    fuel projectRef remotePath s = ((names, r), s1) ->
  delivered (trace s1) = delivered (trace s).
Proof.
  unfold ListStoragePaths.
  match goal with |- context [IterateStoragePaths_in ?L ?a ?b ?d ?e ?f ?g ?h ?i] =>
    destruct (IterateStoragePaths_in L a b d e f g h i) as [r0 [s0 l0]] eqn:Hrun end.
  intros H; inversion H; subst.
  set (J := fun (_ : outcome unit) (sl : observed W * list string) =>
              delivered (trace (fst sl)) = delivered (trace s)).
  change (J r (s1, names)).
  revert Hrun. unfold IterateStoragePaths_in.
  apply (triple_IterateStoragePaths J PAGE_LIMIT _ _ (fun _ => True)
           (fun _ => True)).
  - auto.
  - intros [s2 l2] sl3 r2 Hs Hrun. rewrite lift_run in Hrun.
    injection Hrun as Hr Hsl. subst r2 sl3. apply returning_any.
    + intros r'. unfold J in *. simpl in *.
      now rewrite observed_buckets_delivered.
    + intros a. apply Forall_forall. auto.
  - intros bucket prefix page _ [s2 l2] sl3 r2 Hs Hrun. rewrite lift_run in Hrun.
    injection Hrun as Hr Hsl. subst r2 sl3. apply returning_any.
    + intros r'. unfold J in *. simpl in *.
      now rewrite observed_objects_delivered.
    + intros a. apply Forall_forall. auto.
  - auto.
  - intros name _ [s2 l2] sl3 r2 Hs Hrun. injection Hrun as Hr Hsl.
    subst r2 sl3. exact Hs.
  - reflexivity.
Qed.

(** ** Empty listings in the walk *)

(** C9. When a directory taken off the queue has a non-empty prefix
    component and its listing returns no entry, the turn delivers nothing:
    the calls of the listing are made, none of them on the consumer, and the
    loop goes on with the rest of the queue.  On a bucket [c] that holds an
    object and a folder [sub/] with nothing under it, the walk over [/c/]
    lists [c/sub/], gets no entry, and delivers the object only. *)
Theorem empty_prefix_not_reported :
  (forall (W : Type) (c : collaborators W) (PAGE_LIMIT : Z) (fuel : nat)
          (projectRef dirPath bucket prefix : string) (queue : list string)
          (flag : bool) (s s1 : observed W),
      SplitBucketPrefix dirPath = (bucket, prefix) ->
      prefix <> "" ->
      ListStoragePaths PAGE_LIMIT (observed_buckets c) (observed_objects c)
        (S fuel) projectRef dirPath s = (([], Done tt), s1) ->
      delivered (trace s1) = delivered (trace s) /\
      drain_loop PAGE_LIMIT (observed_buckets c) (observed_objects c) (S fuel)
        projectRef (observed_callback c)
        (s, {| dirQueue := (queue ++ [dirPath])%list; empty := flag |})
      = drain_loop PAGE_LIMIT (observed_buckets c) (observed_objects c) fuel
          projectRef (observed_callback c)
          (s1, {| dirQueue := queue; empty := true |})) /\
  (let run := walk (serve 100 bucket_with_empty_folder) 100 5 "ref" "/c/" start in
   fst run = Done tt /\
   In (ListObjectsCall "ref" "c" "sub/" 0 (inr [])) (trace (snd run)) /\
   delivered (trace (snd run)) = ["/c/x.txt"]).
Proof.
  split.
  - intros W c PAGE_LIMIT fuel projectRef dirPath bucket prefix queue flag s s1
      Hsplit Hprefix Hlist.
    split; [exact (ListStoragePaths_delivers_nothing _ _ _ _ _ _ _ _ _ Hlist)|].
    rewrite (drain_turn_on_empty_listing _ _ _ _ _ _ _ _ _ _ _ _ _ Hsplit Hlist).
    destruct (Z.eqb_spec (strings.len prefix) 0) as [E|E].
    + apply len_zero in E. contradiction.
    + reflexivity.
  - cbv zeta. split; [reflexivity|]. split; [|reflexivity].
    right. right. left. reflexivity.
Qed.

(** C9 on the folder [c/sub/] of the example, alone on the queue. *)
Lemma empty_prefix_not_reported_witness :
  let c := serve 100 bucket_with_empty_folder in
  let s1 := {| world := tt;
               trace := [ListObjectsCall "ref" "c" "sub/" 0 (inr [])] |} in
  delivered (trace s1) = delivered (trace start) /\
  drain_loop 100 (observed_buckets c) (observed_objects c) 2
    "ref" (observed_callback c)
    (start, {| dirQueue := ["/c/sub/"]; empty := false |})
  = drain_loop 100 (observed_buckets c) (observed_objects c) 1
      "ref" (observed_callback c)
      (s1, {| dirQueue := []; empty := true |}).
Proof.
  refine (proj1 empty_prefix_not_reported unit
            (serve 100 bucket_with_empty_folder) 100 1%nat
            "ref" "/c/sub/" "c" "sub/" [] false start _ eq_refl _ eq_refl).
  discriminate.
Defined.

(** C2, as the code has it.  When a directory taken off the queue has an
    empty prefix component and its listing returns no entry, the turn makes
    the calls of the listing, then hands [bucket + "/"] to the callback, and
    the loop goes on with the rest of the queue.  So a walk over the whole
    service ([/]) reports an empty bucket [b] as [b/]. *)
Theorem empty_bucket_reported :
  (forall (W : Type) (c : collaborators W) (PAGE_LIMIT : Z) (fuel : nat)
          (projectRef dirPath bucket : string) (queue : list string)
          (flag : bool) (s s1 : observed W),
      SplitBucketPrefix dirPath = (bucket, "") ->
      ListStoragePaths PAGE_LIMIT (observed_buckets c) (observed_objects c)
        (S fuel) projectRef dirPath s = (([], Done tt), s1) ->
      delivered (trace s1) = delivered (trace s) /\
      drain_loop PAGE_LIMIT (observed_buckets c) (observed_objects c) (S fuel)
        projectRef (observed_callback c)
        (s, {| dirQueue := (queue ++ [dirPath])%list; empty := flag |})
      = bind (lift (observed_callback c (bucket ++ "/")))
          (fun _ =>
             drain_loop PAGE_LIMIT (observed_buckets c) (observed_objects c)
               fuel projectRef (observed_callback c))
          (s1, {| dirQueue := queue; empty := true |})) /\
  (let run := walk (serve 100 empty_bucket) 100 5 "ref" "/" start in
   fst run = Done tt /\ delivered (trace (snd run)) = ["b/"]).
Proof.
  split.
  - intros W c PAGE_LIMIT fuel projectRef dirPath bucket queue flag s s1
      Hsplit Hlist.
    split; [exact (ListStoragePaths_delivers_nothing _ _ _ _ _ _ _ _ _ Hlist)|].
    now rewrite (drain_turn_on_empty_listing _ _ _ _ _ _ _ _ _ _ _ _ _ Hsplit Hlist).
  - cbv zeta. split; reflexivity.
Qed.

(** C2 on the empty bucket [b] of the example, alone on the queue. *)
Lemma empty_bucket_reported_witness :
  let c := serve 100 empty_bucket in
  let s1 := {| world := tt;
               trace := [ListObjectsCall "ref" "b" "" 0 (inr [])] |} in
  delivered (trace s1) = delivered (trace start) /\
  drain_loop 100 (observed_buckets c) (observed_objects c) 2
    "ref" (observed_callback c)
    (start, {| dirQueue := ["/b/"]; empty := false |})
  = bind (lift (observed_callback c "b/"))
      (fun _ =>
         drain_loop 100 (observed_buckets c) (observed_objects c) 1
           "ref" (observed_callback c))
      (s1, {| dirQueue := []; empty := true |}).
Proof.
  exact (proj1 empty_bucket_reported unit (serve 100 empty_bucket) 100 1%nat
           "ref" "/b/" "b" [] false start _ eq_refl eq_refl).
Defined.

(** C2 as stated fails: the walk over the empty bucket itself, [/b/],
    lists the bucket, gets no entry, and delivers nothing. *)
Lemma walk_over_empty_bucket_is_silent :
  let run := walk (serve 100 empty_bucket) 100 5 "ref" "/b/" start in
  fst run = Done tt /\
  trace (snd run) = [ListObjectsCall "ref" "b" "" 0 (inr [])] /\
  delivered (trace (snd run)) = [] /\
  delivered (trace (snd run)) <> ["b/"].
Proof. cbv zeta. repeat split. discriminate. Qed.

(** ** Paths that begin or end with a slash *)


Lemma substring_split (s : string) (n : nat) :
  (n <= String.length s)%nat ->
  s = substring 0 n s ++ substring n (String.length s - n) s.
Proof.
  revert n; induction s as [|c s IH]; intros n Hn.
  - simpl in Hn. assert (n = 0%nat) by lia. subst. reflexivity.
  - destruct n as [|n].
    + simpl. now rewrite substring_all.
    + simpl. rewrite <- IH by (simpl in Hn; lia). reflexivity.
Qed.

Lemma substring_length (s : string) (n m : nat) :
  (n + m <= String.length s)%nat -> String.length (substring n m s) = m.
Proof.
  revert n m; induction s as [|c s IH]; intros n m H; simpl in H.
  - assert (m = 0%nat) by lia. subst. now destruct n.
  - destruct n as [|n]; simpl.
    + destruct m as [|m]; [reflexivity|]. simpl. rewrite IH; [reflexivity | lia].
    + apply IH. lia.
Qed.

Lemma HasSuffix_slash (s : string) :
  strings.HasSuffix s "/" = true <-> exists r : string, s = r ++ "/".
Proof.
  split.
  - unfold strings.HasSuffix, strings.slice_from, strings.slice.
    change (strings.len "/") with 1. intros H.
    apply andb_true_iff in H. destruct H as [Hlen Heq].
    apply Z.leb_le in Hlen. apply String.eqb_eq in Heq.
    unfold strings.len in *.
    replace (Z.to_nat (Z.of_nat (String.length s) - 1))
      with (String.length s - 1)%nat in Heq by lia.
    replace (Z.to_nat (Z.of_nat (String.length s)
                       - (Z.of_nat (String.length s) - 1)))
      with (String.length s - (String.length s - 1))%nat in Heq by lia.
    exists (substring 0 (String.length s - 1) s).
    rewrite <- Heq. apply substring_split. lia.
  - intros [r ->]. unfold strings.HasSuffix.
    rewrite len_append. change (strings.len "/") with 1.
    pose proof (len_nonneg r).
    destruct (Z.leb_spec 1 (strings.len r + 1)); [|lia].
    replace (strings.len r + 1 - 1) with (strings.len r) by lia.
    now rewrite slice_from_append.
Qed.






Lemma slash_in_append (a b : string) :
  In "/"%char (list_ascii_of_string (a ++ String "/" b)).
Proof.
  induction a as [|c a IH]; simpl; [now left | now right].
Qed.


(** ** What a walk delivers *)

Section Delivering.

Context {W : Type}.
Variable c : collaborators W.
Variable t0 : list event.
Variable allowed : string -> Prop.

Lemma delivering_any (r r' : outcome unit) (s : observed W) :
  delivering t0 allowed r s -> delivering t0 allowed r' s.
Proof. intros H. exact H. Qed.





End Delivering.


Lemma lists_only_any {W : Type} (c : collaborators W) :
  lists_only c (fun _ => True).
Proof. intros projectRef w w' bs _. apply Forall_forall. auto. Qed.







(** ** A run that fails delivers a first part of the full result *)

Section Following.

Context {S1 S2 : Type}.
Variable d1 : S1 -> list string.
Variable d2 : S2 -> list string.
Variable same_locals : S1 -> S2 -> Prop.
Variables a1 a2 : list string.

Local Abbreviation fol := (follows d1 d2 same_locals a1 a2).

Lemma follows_ret {A : Type} (a : A) : fol (ret a) (ret a).
Proof.
  split.
  - intros s2. exists []. simpl. now rewrite app_nil_r.
  - intros s1 s2 H. left. now split.
Qed.

Lemma follows_out_of_fuel {A : Type} :
  fol (@out_of_fuel S1 A) (@out_of_fuel S2 A).
Proof.
  split.
  - intros s2. exists []. simpl. now rewrite app_nil_r.
  - intros s1 s2 H. left. now split.
Qed.

Lemma grows_bind {A B : Type} (m : M S2 A) (k : A -> M S2 B) :
  grows d2 m -> (forall a : A, grows d2 (k a)) -> grows d2 (bind m k).
Proof.
  intros Hm Hk s2. unfold bind. destruct (Hm s2) as [rest1 H1].
  destruct (m s2) as [[a|e|] s2']; simpl in *; try (now exists rest1).
  destruct (Hk a s2') as [rest2 H2]. exists (rest1 ++ rest2)%list.
  now rewrite H2, H1, app_assoc.
Qed.

Lemma overtaken_grows {A : Type} (m : M S2 A) (s1 : S1) (s2 : S2) :
  grows d2 m -> overtaken d1 d2 a1 a2 s1 s2 ->
  overtaken d1 d2 a1 a2 s1 (snd (m s2)).
Proof.
  intros Hm (d & rest & H1 & H2). destruct (Hm s2) as [rest' H3].
  exists d, (rest ++ rest')%list. split; [exact H1|].
  now rewrite H3, H2, <- !app_assoc.
Qed.

Lemma follows_bind {A B : Type} (m1 : M S1 A) (m2 : M S2 A)
    (k1 : A -> M S1 B) (k2 : A -> M S2 B) :
  fol m1 m2 -> (forall a : A, fol (k1 a) (k2 a)) -> fol (bind m1 k1) (bind m2 k2).
Proof.
  intros [Hg Hm] Hk. split.
  - apply grows_bind; [exact Hg|]. intros a. exact (proj1 (Hk a)).
  - intros s1 s2 Hstep. unfold bind.
    destruct (Hm s1 s2 Hstep) as [[Hr Hs]|[[e He] Ho]].
    + destruct (m1 s1) as [r1 s1'], (m2 s2) as [r2 s2']. simpl in *. subst r2.
      destruct r1 as [a|e|].
      * exact (proj2 (Hk a) s1' s2' Hs).
      * left. now split.
      * left. now split.
    + destruct (m1 s1) as [r1 s1'], (m2 s2) as [r2 s2']. simpl in *. subst r1.
      right. split; [now exists e|].
      destruct r2 as [a|e2|]; simpl; try exact Ho.
      exact (overtaken_grows (k2 a) s1' s2' (proj1 (Hk a)) Ho).
Qed.

Lemma follows_for_range {A : Type} (l : list A) (body1 : A -> M S1 unit)
    (body2 : A -> M S2 unit) :
  (forall x : A, fol (body1 x) (body2 x)) ->
  fol (for_range l body1) (for_range l body2).
Proof.
  intros Hbody. induction l as [|x l IH]; simpl.
  - apply follows_ret.
  - apply follows_bind; [apply Hbody | intros _; exact IH].
Qed.

Variable PAGE_LIMIT : Z.
Variable Buckets1 : string -> M S1 (list client.BucketResponse).
Variable Buckets2 : string -> M S2 (list client.BucketResponse).
Variable Objects1 : string -> string -> string -> Z -> M S1 (list client.ObjectResponse).
Variable Objects2 : string -> string -> string -> Z -> M S2 (list client.ObjectResponse).

Hypothesis follows_buckets :
  forall projectRef : string, fol (Buckets1 projectRef) (Buckets2 projectRef).
Hypothesis follows_objects :
  forall (projectRef bucket prefix : string) (page : Z),
    fol (Objects1 projectRef bucket prefix page)
      (Objects2 projectRef bucket prefix page).

Lemma follows_page_loop (fuel : nat) (projectRef bucket prefix : string)
    (cb1 : string -> M S1 unit) (cb2 : string -> M S2 unit) (i pages : Z) :
  (forall name : string, fol (cb1 name) (cb2 name)) ->
  fol (page_loop PAGE_LIMIT Objects1 fuel projectRef bucket prefix cb1 i pages)
    (page_loop PAGE_LIMIT Objects2 fuel projectRef bucket prefix cb2 i pages).
Proof.
  intros Hcb. revert i pages; induction fuel as [|fuel IH]; intros i pages;
    simpl; destruct (i <? pages); try apply follows_ret.
  - apply follows_out_of_fuel.
  - apply follows_bind; [apply follows_objects|]. intros objects.
    apply follows_bind; [|intros _; apply IH].
    apply follows_for_range. intros o. apply Hcb.
Qed.

Lemma follows_IterateStoragePaths (fuel : nat) (projectRef remotePath : string)
    (cb1 : string -> M S1 unit) (cb2 : string -> M S2 unit) :
  (forall name : string, fol (cb1 name) (cb2 name)) ->
  fol (IterateStoragePaths PAGE_LIMIT Buckets1 Objects1 fuel projectRef
         remotePath cb1)
    (IterateStoragePaths PAGE_LIMIT Buckets2 Objects2 fuel projectRef
       remotePath cb2).
Proof.
  intros Hcb. unfold IterateStoragePaths.
  destruct (SplitBucketPrefix remotePath) as [bucket prefix].
  destruct ((strings.len bucket =? 0)
            || ((strings.len prefix =? 0)
                && negb (strings.HasSuffix remotePath "/"))).
  - apply follows_bind; [apply follows_buckets|]. intros buckets.
    apply follows_for_range. intros b.
    destruct (strings.HasPrefix (client.BucketName b) bucket);
      [apply Hcb | apply follows_ret].
  - now apply follows_page_loop.
Qed.

End Following.

Lemma follows_lift {S1 S2 L A : Type} (d1 : S1 -> list string)
    (d2 : S2 -> list string) (R0 : S1 -> S2 -> Prop) (a1 a2 : list string)
    (m1 : M S1 A) (m2 : M S2 A) :
  follows d1 d2 R0 a1 a2 m1 m2 ->
  follows (fun sl : S1 * L => d1 (fst sl)) (fun sl : S2 * L => d2 (fst sl))
    (fun sl1 sl2 => R0 (fst sl1) (fst sl2) /\ snd sl1 = snd sl2) a1 a2
    (lift m1) (lift m2).
Proof.
  intros [Hg Hm]. split.
  - intros [s2 l2]. rewrite lift_run. simpl. apply Hg.
  - intros [s1 l1] [s2 l2] (d & H1 & H2 & HR & Hl). simpl in *. subst l2.
    rewrite !lift_run. simpl.
    destruct (Hm s1 s2) as [[Hr (d' & H1' & H2' & HR')]|[He (d' & rest & H1' & H2')]].
    + now exists d.
    + left. split; [exact Hr|]. now exists d'.
    + right. split; [exact He|]. now exists d', rest.
Qed.

Lemma follows_update_local {S1 S2 L : Type} (d1 : S1 -> list string)
    (d2 : S2 -> list string) (R0 : S1 -> S2 -> Prop) (a1 a2 : list string)
    (f : L -> L) :
  follows (fun sl : S1 * L => d1 (fst sl)) (fun sl : S2 * L => d2 (fst sl))
    (fun sl1 sl2 => R0 (fst sl1) (fst sl2) /\ snd sl1 = snd sl2) a1 a2
    (update_local f) (update_local f).
Proof.
  split.
  - intros [s2 l2]. exists []. simpl. now rewrite app_nil_r.
  - intros [s1 l1] [s2 l2] (d & H1 & H2 & HR & Hl). simpl in *. subst l2.
    left. split; [reflexivity|]. now exists d.
Qed.

Lemma follows_get_local {S1 S2 L : Type} (d1 : S1 -> list string)
    (d2 : S2 -> list string) (R0 : S1 -> S2 -> Prop) (a1 a2 : list string) :
  follows (fun sl : S1 * L => d1 (fst sl)) (fun sl : S2 * L => d2 (fst sl))
    (fun sl1 sl2 => R0 (fst sl1) (fst sl2) /\ snd sl1 = snd sl2) a1 a2
    get_local get_local.
Proof.
  split.
  - intros [s2 l2]. exists []. simpl. now rewrite app_nil_r.
  - intros [s1 l1] [s2 l2] (d & H1 & H2 & HR & Hl). simpl in *. subst l2.
    left. split; [reflexivity|]. now exists d.
Qed.

Section FollowingWalk.

Context {W1 W2 : Type}.
Variable c1 : collaborators W1.
Variable c2 : collaborators W2.
Variable PAGE_LIMIT : Z.
Variables a1 a2 : list string.

(** The second collaborators go along with the first. *)
Variable Rw : W1 -> W2 -> Prop.
Hypothesis along : goes_along Rw c1 c2.

Local Abbreviation plain :=
  (follows (fun s : observed W1 => delivered (trace s))
     (fun s : observed W2 => delivered (trace s))
     (fun s1 s2 => Rw (world s1) (world s2)) a1 a2).

Local Abbreviation local :=
  (follows (fun sl : observed W1 * walk_locals => delivered (trace (fst sl)))
     (fun sl : observed W2 * walk_locals => delivered (trace (fst sl)))
     (fun sl1 sl2 =>
        Rw (world (fst sl1)) (world (fst sl2)) /\ snd sl1 = snd sl2) a1 a2).

Lemma follows_lifted {A : Type} (m1 : M (observed W1) A) (m2 : M (observed W2) A) :
  plain m1 m2 -> local (lift m1) (lift m2).
Proof.
  exact (follows_lift (fun s : observed W1 => delivered (trace s))
           (fun s : observed W2 => delivered (trace s))
           (fun s1 s2 => Rw (world s1) (world s2)) a1 a2 m1 m2).
Qed.

Lemma follows_updated (f : walk_locals -> walk_locals) :
  local (update_local f) (update_local f).
Proof.
  exact (follows_update_local (fun s : observed W1 => delivered (trace s))
           (fun s : observed W2 => delivered (trace s))
           (fun s1 s2 => Rw (world s1) (world s2)) a1 a2 f).
Qed.

Lemma follows_got : local get_local get_local.
Proof.
  exact (follows_get_local (fun s : observed W1 => delivered (trace s))
           (fun s : observed W2 => delivered (trace s))
           (fun s1 s2 => Rw (world s1) (world s2)) a1 a2).
Qed.

(** A call on the storage client: when the first run gets an answer the
    second gets the same; when the first run gets an error it stops, and
    the second, whatever it gets, has delivered as much. *)
Lemma follows_observed_buckets (projectRef : string) :
  plain (observed_buckets c1 projectRef) (observed_buckets c2 projectRef).
Proof.
  split.
  - intros s2. exists []. now rewrite observed_buckets_delivered, app_nil_r.
  - intros s1 s2 (d & H1 & H2 & HR).
    destruct (fst (listBuckets c1 projectRef (world s1))) as [e|buckets] eqn:E.
    + right. split.
      * exists e. rewrite observed_buckets_run. simpl. now rewrite E.
      * exists d, []. rewrite !observed_buckets_delivered, app_nil_r. now split.
    + destruct (proj1 along projectRef _ _ buckets HR E) as [E2 HR'].
      left. split.
      * rewrite !observed_buckets_run. simpl. now rewrite E, E2.
      * exists d. rewrite !observed_buckets_delivered.
        split; [exact H1|]. split; [exact H2|].
        rewrite !observed_buckets_run. exact HR'.
Qed.

Lemma follows_observed_objects (projectRef bucket prefix : string) (page : Z) :
  plain (observed_objects c1 projectRef bucket prefix page)
    (observed_objects c2 projectRef bucket prefix page).
Proof.
  split.
  - intros s2. exists []. now rewrite observed_objects_delivered, app_nil_r.
  - intros s1 s2 (d & H1 & H2 & HR).
    destruct (fst (listObjects c1 projectRef bucket prefix page (world s1)))
      as [e|objects] eqn:E.
    + right. split.
      * exists e. rewrite observed_objects_run. simpl. now rewrite E.
      * exists d, []. rewrite !observed_objects_delivered, app_nil_r. now split.
    + destruct (proj1 (proj2 along) projectRef bucket prefix page _ _ objects HR E)
        as [E2 HR'].
      left. split.
      * rewrite !observed_objects_run. simpl. now rewrite E, E2.
      * exists d. rewrite !observed_objects_delivered.
        split; [exact H1|]. split; [exact H2|].
        rewrite !observed_objects_run. exact HR'.
Qed.

(** A call on the consumer: the path goes to both; when the first
    consumer refuses it the first run stops. *)
Lemma follows_observed_callback (arg : string) :
  plain (observed_callback c1 arg) (observed_callback c2 arg).
Proof.
  split.
  - intros s2. exists [arg]. rewrite observed_callback_run.
    cbn [snd trace]. now rewrite delivered_app.
  - intros s1 s2 (d & H1 & H2 & HR). cbn beta in H1, H2.
    rewrite !observed_callback_run. cbn [fst snd].
    assert (E1 : forall r, delivered (trace s1 ++ [CallbackCall arg r])
                           = (a1 ++ d ++ [arg])%list).
    { intros r. now rewrite delivered_app, H1, <- app_assoc. }
    assert (E2 : forall r, delivered (trace s2 ++ [CallbackCall arg r])
                           = (a2 ++ d ++ [arg])%list).
    { intros r. now rewrite delivered_app, H2, <- app_assoc. }
    destruct (fst (consumer c1 arg (world s1))) as [e|] eqn:E; cbn [of_error].
    + right. split; [now exists e|]. exists (d ++ [arg])%list, [].
      cbn [trace]. rewrite E1, E2, app_nil_r. now split.
    + destruct (proj2 (proj2 along) arg _ _ HR E) as [E' HR'].
      rewrite E'. left. split; [reflexivity|]. exists (d ++ [arg])%list.
      cbn [trace world]. rewrite E1, E2. now split.
Qed.

Lemma follows_listing (fuel : nat) (projectRef remotePath : string) :
  plain (listing c1 PAGE_LIMIT fuel projectRef remotePath)
    (listing c2 PAGE_LIMIT fuel projectRef remotePath).
Proof.
  unfold listing. apply follows_IterateStoragePaths.
  - exact follows_observed_buckets.
  - exact follows_observed_objects.
  - exact follows_observed_callback.
Qed.

Lemma follows_listing_in (fuel : nat) (projectRef remotePath : string)
    (cb1 : string -> M (observed W1 * walk_locals) unit)
    (cb2 : string -> M (observed W2 * walk_locals) unit) :
  (forall name : string, local (cb1 name) (cb2 name)) ->
  local
    (IterateStoragePaths_in walk_locals PAGE_LIMIT (observed_buckets c1)
       (observed_objects c1) fuel projectRef remotePath cb1)
    (IterateStoragePaths_in walk_locals PAGE_LIMIT (observed_buckets c2)
       (observed_objects c2) fuel projectRef remotePath cb2).
Proof.
  intros Hcb. unfold IterateStoragePaths_in.
  apply follows_IterateStoragePaths.
  - intros ref. apply follows_lifted, follows_observed_buckets.
  - intros ref bucket prefix page. apply follows_lifted, follows_observed_objects.
  - exact Hcb.
Qed.

Lemma follows_seed_callback (basePath objectName : string) :
  local (seed_callback basePath (observed_callback c1) objectName)
    (seed_callback basePath (observed_callback c2) objectName).
Proof.
  unfold seed_callback. destruct (strings.HasSuffix objectName "/").
  - apply follows_updated.
  - apply follows_lifted, follows_observed_callback.
Qed.

Lemma follows_drain_callback (dirPath objectName : string) :
  local (drain_callback dirPath (observed_callback c1) objectName)
    (drain_callback dirPath (observed_callback c2) objectName).
Proof.
  unfold drain_callback. apply follows_bind; [apply follows_updated|].
  intros _. destruct (strings.HasSuffix objectName "/").
  - apply follows_updated.
  - apply follows_lifted, follows_observed_callback.
Qed.

Lemma follows_drain_dir (fuel : nat) (projectRef dirPath : string) :
  local
    (drain_dir PAGE_LIMIT (observed_buckets c1) (observed_objects c1) fuel
       projectRef (observed_callback c1) dirPath)
    (drain_dir PAGE_LIMIT (observed_buckets c2) (observed_objects c2) fuel
       projectRef (observed_callback c2) dirPath).
Proof.
  unfold drain_dir. apply follows_bind; [apply follows_updated|].
  intros _. apply follows_bind.
  - apply follows_listing_in. intros name. apply follows_drain_callback.
  - intros _. destruct (SplitBucketPrefix dirPath) as [bucket prefix].
    apply follows_bind; [apply follows_got|]. intros l.
    destruct (empty l && (strings.len prefix =? 0)).
    + apply follows_lifted, follows_observed_callback.
    + apply follows_ret.
Qed.

Lemma follows_drain_loop (fuel : nat) (projectRef : string) :
  local
    (drain_loop PAGE_LIMIT (observed_buckets c1) (observed_objects c1) fuel
       projectRef (observed_callback c1))
    (drain_loop PAGE_LIMIT (observed_buckets c2) (observed_objects c2) fuel
       projectRef (observed_callback c2)).
Proof.
  induction fuel as [|fuel IH]; simpl;
    (apply follows_bind; [apply follows_got|]); intros l;
    destruct (0 <? Z.of_nat (List.length (dirQueue l)));
    try apply follows_ret.
  - apply follows_out_of_fuel.
  - apply follows_bind; [apply follows_updated|]. intros _.
    apply follows_bind; [apply follows_drain_dir|]. intros _. exact IH.
Qed.

Lemma follows_walk_body (fuel : nat) (projectRef remotePath : string) :
  local
    (walk_body PAGE_LIMIT (observed_buckets c1) (observed_objects c1) fuel
       projectRef remotePath (observed_callback c1))
    (walk_body PAGE_LIMIT (observed_buckets c2) (observed_objects c2) fuel
       projectRef remotePath (observed_callback c2)).
Proof.
  unfold walk_body. apply follows_bind.
  - apply follows_listing_in. intros name. apply follows_seed_callback.
  - intros _. apply follows_drain_loop.
Qed.

Lemma follows_walk (fuel : nat) (projectRef remotePath : string) :
  plain (walk c1 PAGE_LIMIT fuel projectRef remotePath)
    (walk c2 PAGE_LIMIT fuel projectRef remotePath).
Proof.
  destruct (follows_walk_body fuel projectRef remotePath) as [Hg Hm].
  unfold walk, IterateStoragePathsAll. split.
  - intros s2. specialize (Hg (s2, {| dirQueue := []; empty := true |})).
    destruct (walk_body PAGE_LIMIT (observed_buckets c2) (observed_objects c2)
                fuel projectRef remotePath (observed_callback c2)
                (s2, {| dirQueue := []; empty := true |})) as [r [s' l']].
    exact Hg.
  - intros s1 s2 (d & H1 & H2 & HR).
    specialize (Hm (s1, {| dirQueue := []; empty := true |})
                  (s2, {| dirQueue := []; empty := true |})).
    destruct (walk_body PAGE_LIMIT (observed_buckets c1) (observed_objects c1)
                fuel projectRef remotePath (observed_callback c1)
                (s1, {| dirQueue := []; empty := true |})) as [r1 [s1' l1']].
    destruct (walk_body PAGE_LIMIT (observed_buckets c2) (observed_objects c2)
                fuel projectRef remotePath (observed_callback c2)
                (s2, {| dirQueue := []; empty := true |})) as [r2 [s2' l2']].
    simpl in *.
    destruct Hm as [[Hr (d' & H1' & H2' & HR' & _)]|[He (d' & rest & H1' & H2')]].
    + now exists d.
    + left. split; [exact Hr|]. now exists d'.
    + right. split; [exact He|]. now exists d', rest.
Qed.

End FollowingWalk.

Lemma follows_first_part {W1 W2 : Type} (Rw : W1 -> W2 -> Prop)
    (m1 : M (observed W1) unit)
    (m2 : M (observed W2) unit) (s1 : observed W1) (s2 : observed W2) :
  follows (fun s => delivered (trace s)) (fun s => delivered (trace s))
    (fun s1 s2 => Rw (world s1) (world s2))
    (delivered (trace s1)) (delivered (trace s2)) m1 m2 ->
  Rw (world s1) (world s2) ->
  delivers_first_part s1 (m1 s1) s2 (m2 s2).
Proof.
  intros [_ Hm] HR.
  destruct (Hm s1 s2) as [[Hr (d & H1 & H2 & _)]|[He (d & rest & H1 & H2)]].
  - exists []. now rewrite !app_nil_r.
  - exists d, []. rewrite app_nil_r. split; [exact H1|]. split; [exact H2|].
    right. now split.
  - exists d, rest. split; [exact H1|]. split; [exact H2|]. now left.
Qed.

(** C8. In a single-level listing and in a recursive walk alike, a call on
    the storage client or on the callback that fails is the last call of
    the run, and the run returns the error of that call as it is; a run
    that returns an error has made such a call last.  The calls made before
    stay in the trace, after the calls that came before the run.  And what
    a run has handed to its callback when it stops is a first part of the
    full result: take any second run that goes along with it, getting the
    same answers as long as the first run gets answers, and free to go on
    where the first run gets an error from the storage client or from its
    callback; then what the first run has delivered is a first part of what
    the second delivers, and unless the first run has failed the two have
    ended alike and delivered the same. *)
Theorem failure_stops_the_run :
  (forall (W : Type) (c : collaborators W) (PAGE_LIMIT : Z) (fuel : nat)
          (projectRef remotePath : string) (s : observed W),
      stops_at_first_failure s (listing c PAGE_LIMIT fuel projectRef remotePath s) /\
      stops_at_first_failure s (walk c PAGE_LIMIT fuel projectRef remotePath s)) /\
  (forall (W1 W2 : Type) (Rw : W1 -> W2 -> Prop) (c1 : collaborators W1)
          (c2 : collaborators W2) (PAGE_LIMIT : Z) (fuel : nat)
          (projectRef remotePath : string)
          (s1 : observed W1) (s2 : observed W2),
      goes_along Rw c1 c2 ->
      Rw (world s1) (world s2) ->
      delivers_first_part
        s1 (listing c1 PAGE_LIMIT fuel projectRef remotePath s1)
        s2 (listing c2 PAGE_LIMIT fuel projectRef remotePath s2) /\
      delivers_first_part
        s1 (walk c1 PAGE_LIMIT fuel projectRef remotePath s1)
        s2 (walk c2 PAGE_LIMIT fuel projectRef remotePath s2)).
Proof.
  split.
  - intros W c PAGE_LIMIT fuel projectRef remotePath s.
    split; apply halted_stops.
    + exact (orderly_listing c (trace s) PAGE_LIMIT fuel projectRef remotePath
               s _ _ (orderly_start s) (surjective_pairing _)).
    + exact (orderly_walk c (trace s) PAGE_LIMIT fuel projectRef remotePath
               s _ _ (orderly_start s) (surjective_pairing _)).
  - intros W1 W2 Rw c1 c2 PAGE_LIMIT fuel projectRef remotePath s1 s2 Ha HR.
    split; apply (follows_first_part Rw); try exact HR.
    + now apply follows_listing.
    + now apply follows_walk.
Qed.

(** The storage client that fails on the folder [p/] of the bucket with
    two folders goes along with the one that does not. *)
Lemma failing_on_goes_along :
  goes_along (fun _ _ : unit => True)
    (failing_on "a" "p/" (serve 100 two_branches)) (serve 100 two_branches).
Proof.
  split; [|split].
  - intros ref [] [] buckets _ H. split; [exact H | exact I].
  - intros ref bucket prefix page [] [] objects _ H. split; [|exact I].
    simpl in H. simpl.
    destruct ((bucket =? "a")%string && (prefix =? "p/")%string);
      [discriminate H | exact H].
  - intros arg [] [] _ H. split; [exact H | exact I].
Defined.

(** C8 on the bucket with two folders, with a storage client that fails
    when the folder [p/] is listed: the walk stops at that call, and what
    it has delivered is a first part of what the walk delivers when the
    storage client answers. *)
Lemma failure_stops_the_run_witness :
  let c1 := failing_on "a" "p/" (serve 100 two_branches) in
  let c2 := serve 100 two_branches in
  stops_at_first_failure start (walk c1 100 5 "ref" "/a/" start) /\
  delivers_first_part
    start (walk c1 100 5 "ref" "/a/" start)
    start (walk c2 100 5 "ref" "/a/" start).
Proof.
  split.
  - exact (proj2 (proj1 failure_stops_the_run unit
                    (failing_on "a" "p/" (serve 100 two_branches))
                    100 5%nat "ref" "/a/" start)).
  - exact (proj2 (proj2 failure_stops_the_run unit unit (fun _ _ => True)
                    (failing_on "a" "p/" (serve 100 two_branches))
                    (serve 100 two_branches) 100 5%nat "ref" "/a/" start start
                    failing_on_goes_along I)).
Defined.

(** The runs of the example: the first fails on the listing of [p/],
    having delivered the object found under [q/]; the second delivers that
    object and then the one under [p/]. *)
Lemma failing_walk_example :
  let c1 := failing_on "a" "p/" (serve 100 two_branches) in
  let c2 := serve 100 two_branches in
  fst (walk c1 100 5 "ref" "/a/" start) = Failed (collaborator_error "unavailable") /\
  delivered (trace (snd (walk c1 100 5 "ref" "/a/" start))) = ["/a/q/r/deep.txt"] /\
  fst (walk c2 100 5 "ref" "/a/" start) = Done tt /\
  delivered (trace (snd (walk c2 100 5 "ref" "/a/" start)))
    = ["/a/q/r/deep.txt"; "/a/p/shallow.txt"].
Proof. cbv zeta. repeat split. Qed.

(** * Further properties of the code *)

(** ** The splitter *)

(** What [SplitBucketPrefix] returns, put together again. *)
Lemma SplitBucketPrefix_rejoin (objectPath : string) :
  let (bucket, prefix) := SplitBucketPrefix objectPath in
  no_slash bucket /\
  (strip_leading_slash objectPath = bucket ++ "/" ++ prefix \/
   (strip_leading_slash objectPath = bucket /\ prefix = "")).
Proof.
  destruct (String.eqb_spec objectPath "") as [->|Hne].
  { simpl. split; [intros []|]. now right. }
  destruct (String.eqb_spec objectPath "/") as [->|Hns].
  { simpl. split; [intros []|]. now right. }
  destruct (SplitBucketPrefix_cases objectPath Hne Hns) as (Hcut & Hall & Hcases).
  cbv zeta in *.
  destruct Hcases as [Hno | (b & p & Hrest & Hb)].
  - rewrite (Hall Hno). split; [exact Hno|]. now right.
  - rewrite (Hcut b p Hrest Hb). split; [exact Hb|]. now left.
Qed.

(** X1. [SplitBucketPrefix] loses nothing but one leading slash and the
    slash it cuts at.  On every path, the bucket it returns holds no slash;
    and the path, after one leading slash is dropped, is the bucket, a
    slash and the prefix, or it is the bucket alone and the prefix is
    empty. *)
Theorem SplitBucketPrefix_parts (objectPath : string) :
  let (bucket, prefix) := SplitBucketPrefix objectPath in
  no_slash bucket /\
  (strip_leading_slash objectPath = bucket ++ "/" ++ prefix \/
   (strip_leading_slash objectPath = bucket /\ prefix = "")).
Proof. exact (SplitBucketPrefix_rejoin objectPath). Qed.

(** X2. The leading slash is optional: a path that does not begin with a
    slash is split as the same path with a slash put before it. *)
Theorem SplitBucketPrefix_slash_optional (objectPath : string) :
  first_byte_is_slash objectPath = false ->
  SplitBucketPrefix (String "/" objectPath) = SplitBucketPrefix objectPath.
Proof.
  intros Hf.
  destruct (String.eqb_spec objectPath "") as [->|Hne]; [reflexivity|].
  assert (H1 : String "/" objectPath <> "") by discriminate.
  assert (H2 : String "/" objectPath <> "/").
  { intros H. inversion H. contradiction. }
  assert (H3 : objectPath <> "/") by (intros ->; discriminate Hf).
  destruct (SplitBucketPrefix_cases _ H1 H2) as (Hcut & Hall & Hcases).
  destruct (SplitBucketPrefix_cases _ Hne H3) as (Hcut' & Hall' & _).
  cbv zeta in *.
  assert (E : strip_leading_slash objectPath = objectPath).
  { destruct (strip_leading_slash_cases objectPath) as [(r & -> & _)|[_ E]];
      [discriminate Hf | exact E]. }
  rewrite E in *. simpl strip_leading_slash in *.
  destruct Hcases as [Hno | (b & p & Hrest & Hb)].
  - now rewrite (Hall Hno), (Hall' Hno).
  - now rewrite (Hcut b p Hrest Hb), (Hcut' b p Hrest Hb).
Qed.

(** The shape of the path decides the branch. *)
Lemma names_bucket_split (remotePath bucket prefix : string) :
  names_bucket remotePath bucket prefix ->
  SplitBucketPrefix remotePath = (bucket, prefix) /\
  lists_buckets remotePath = false.
Proof.
  intros (Hrest & Hne & Hno).
  assert (H1 : remotePath <> "").
  { intros ->. simpl in Hrest. destruct bucket; discriminate. }
  assert (H2 : remotePath <> "/").
  { intros ->. simpl in Hrest. destruct bucket; discriminate. }
  destruct (SplitBucketPrefix_cases _ H1 H2) as (Hcut & _ & _).
  cbv zeta in Hcut. pose proof (Hcut bucket prefix Hrest Hno) as Hsplit.
  split; [exact Hsplit|].
  unfold lists_buckets. rewrite Hsplit.
  apply orb_false_iff. split.
  - apply not_true_is_false. intros H. now apply len_zero_iff in H.
  - destruct prefix as [|x prefix].
    + assert (Hs : strings.HasSuffix remotePath "/" = true).
      { apply HasSuffix_slash.
        destruct (strip_leading_slash_cases remotePath)
          as [(r & -> & E)|[_ E]]; rewrite E in Hrest.
        - exists (String "/" bucket). simpl. now rewrite Hrest.
        - exists bucket. exact Hrest. }
      rewrite Hs. apply andb_false_r.
    + apply andb_false_iff. left. reflexivity.
Qed.

Lemma not_names_bucket (remotePath : string) :
  lists_buckets remotePath = false ->
  exists bucket prefix : string, names_bucket remotePath bucket prefix.
Proof.
  unfold lists_buckets. intros H.
  pose proof (SplitBucketPrefix_rejoin remotePath) as Hparts.
  destruct (SplitBucketPrefix remotePath) as [bucket prefix].
  apply orb_false_iff in H. destruct H as [Hb Hp].
  assert (Hne : bucket <> "").
  { intros ->. discriminate Hb. }
  destruct Hparts as [Hno [Hrest | [Hrest ->]]].
  - exists bucket, prefix. repeat split; assumption.
  - exfalso. simpl in Hp. apply negb_false_iff in Hp.
    apply HasSuffix_slash in Hp. destruct Hp as [r ->].
    apply Hno. rewrite <- Hrest.
    destruct r as [|x r]; [simpl in Hrest; now subst|].
    destruct (strip_leading_slash_cases (String x r ++ "/"))
      as [(r' & E1 & E2)|[_ E]].
    + rewrite E2. simpl in E1. inversion E1; subst.
      apply (slash_in_append r "").
    + rewrite E. apply slash_in_append.
Qed.

(** ** The calls of a listing *)

Section PageCalls.

Context {W : Type}.
Variable c : collaborators W.
Variable PAGE_LIMIT : Z.

Lemma removelast_cons_full (r : error + list client.ObjectResponse)
    (answers : list (error + list client.ObjectResponse)) :
  is_full PAGE_LIMIT r = true ->
  forallb (is_full PAGE_LIMIT) (removelast answers) = true ->
  forallb (is_full PAGE_LIMIT) (removelast (r :: answers)) = true.
Proof.
  intros Hr Ha. destruct answers as [|r' answers]; [reflexivity|].
  change (removelast (r :: r' :: answers)) with (r :: removelast (r' :: answers)).
  cbn [forallb]. rewrite Hr. exact Ha.
Qed.

(** The calls of the page loop, whatever the storage client and the
    consumer do. *)
Lemma page_loop_calls (projectRef bucket prefix : string) :
  forall (fuel : nat) (i : Z) (s s' : observed W) (r : outcome unit),
    page_loop PAGE_LIMIT (observed_objects c) fuel projectRef bucket prefix
      (observed_callback c) i (i + 1) s = (r, s') ->
    exists (t : list event) (answers : list (error + list client.ObjectResponse)),
      trace s' = (trace s ++ t)%list /\
      backend_calls t = page_calls projectRef bucket prefix i answers /\
      forallb (is_full PAGE_LIMIT) (removelast answers) = true /\
      (List.length answers <= fuel)%nat /\
      match r with
      | Done _ =>
          exists (init : list (error + list client.ObjectResponse))
                 (objects : list client.ObjectResponse),
            answers = (init ++ [inr objects])%list /\
            Z.of_nat (List.length objects) <> PAGE_LIMIT
      | Failed _ => True
      | Timeout =>
          List.length answers = fuel /\
          forallb (is_full PAGE_LIMIT) answers = true
      end.
Proof.
  induction fuel as [|fuel IH]; intros i s s' r Hrun; simpl in Hrun;
    (destruct (Z.ltb_spec i (i + 1)) as [_|]; [|lia]).
  - inversion Hrun; subst. exists [], []. rewrite app_nil_r.
    repeat split; auto.
  - apply bind_run in Hrun. rewrite observed_objects_run in Hrun.
    destruct (fst (listObjects c projectRef bucket prefix i (world s)))
      as [e|objects] eqn:Hanswer; simpl in Hrun.
    + destruct Hrun as [(a & s1 & H & _)|[(e' & H & ->)|[H _]]];
        try discriminate.
      inversion H; subst.
      exists [ListObjectsCall projectRef bucket prefix i (inl e')], [inl e'].
      repeat split; simpl; auto; lia.
    + destruct Hrun as [(a & s1 & H & Hk)|[(e' & H & _)|[H _]]];
        try discriminate.
      inversion H; subst. clear H.
      apply bind_run in Hk.
      rewrite (for_range_map entry_name (observed_callback c)) in Hk.
      destruct Hk as [([] & s2 & H1 & H2)|[(e' & H1 & ->)|[H1 ->]]];
        destruct (for_range_deliveries c _ _ _ _ H1) as (t1 & Ht1 & Hd);
        destruct (deliveries_delivered _ _ _ Hd) as (Hb1 & Hnt & _ & _);
        simpl in Ht1.
      * destruct (Z.eqb_spec (Z.of_nat (List.length a)) PAGE_LIMIT) as [Hfull|Hshort].
        -- destruct (IH _ _ _ _ H2) as (t2 & answers & Ht2 & Hb2 & Hf & Hlen & Hr).
           exists (ListObjectsCall projectRef bucket prefix i (inr a) :: t1 ++ t2)%list,
                  (inr a :: answers).
           assert (Ha : is_full PAGE_LIMIT (inr a) = true)
             by (simpl; now apply Z.eqb_eq).
           split; [rewrite Ht2, Ht1, <- !app_assoc; reflexivity|].
           split; [simpl; now rewrite backend_calls_app, Hb1, Hb2|].
           split; [now apply removelast_cons_full|].
           split; [simpl; lia|].
           destruct r as [[]|e|].
           ++ destruct Hr as (init & objects & -> & Hshort).
              exists (inr a :: init), objects. split; [reflexivity | exact Hshort].
           ++ exact I.
           ++ destruct Hr as [Hl Hall]. split; [simpl; now rewrite Hl|].
              cbn [forallb]. rewrite Ha. exact Hall.
        -- rewrite page_loop_exit in H2 by lia. inversion H2; subst.
           exists (ListObjectsCall projectRef bucket prefix i (inr a) :: t1)%list,
                  [inr a].
           split; [rewrite Ht1, <- app_assoc; reflexivity|].
           split; [simpl; now rewrite Hb1|].
           split; [reflexivity|]. split; [simpl; lia|].
           exists [], a. split; [reflexivity | exact Hshort].
      * exists (ListObjectsCall projectRef bucket prefix i (inr a) :: t1)%list,
               [inr a].
        split; [rewrite Ht1, <- app_assoc; reflexivity|].
        split; [simpl; now rewrite Hb1|].
        split; [reflexivity|]. split; [simpl; lia | exact I].
      * now elim Hnt.
Qed.

(** The calls of a listing of buckets. *)
Lemma bucket_branch_calls (fuel : nat) (projectRef remotePath : string)
    (s : observed W) :
  lists_buckets remotePath = true ->
  exists rest : list event,
    trace (snd (listing c PAGE_LIMIT fuel projectRef remotePath s))
      = (trace s
         ++ ListBucketsCall projectRef (fst (listBuckets c projectRef (world s)))
            :: rest)%list /\
    backend_calls rest = [].
Proof.
  intros Hbranch.
  destruct (listing c PAGE_LIMIT fuel projectRef remotePath s) as [r s'] eqn:Hrun.
  unfold listing, IterateStoragePaths in Hrun. unfold lists_buckets in Hbranch.
  destruct (SplitBucketPrefix remotePath) as [bucket prefix].
  rewrite Hbranch in Hrun. apply bind_run in Hrun.
  rewrite observed_buckets_run in Hrun. simpl snd.
  destruct (fst (listBuckets c projectRef (world s))) as [err|buckets];
    simpl in Hrun.
  - destruct Hrun as [(a & s1 & H & _)|[(e' & H & ->)|[H _]]]; try discriminate.
    inversion H; subst. now exists [].
  - destruct Hrun as [(a & s1 & H & Hk)|[(e' & H & _)|[H _]]]; try discriminate.
    inversion H; subst.
    rewrite (for_range_filter
               (fun b => strings.HasPrefix (client.BucketName b) bucket)
               (fun b => observed_callback c (client.BucketName b ++ "/")))
      in Hk.
    rewrite (for_range_map (fun b => client.BucketName b ++ "/")
               (observed_callback c)) in Hk.
    destruct (for_range_deliveries c _ _ _ _ Hk) as (t & Ht & Hd).
    exists t. rewrite Ht. simpl. rewrite <- app_assoc. simpl.
    split; [reflexivity|]. exact (proj1 (deliveries_delivered _ _ _ Hd)).
Qed.

Lemma object_branch_run (fuel : nat) (projectRef remotePath bucket prefix : string) :
  names_bucket remotePath bucket prefix ->
  listing c PAGE_LIMIT fuel projectRef remotePath
  = page_loop PAGE_LIMIT (observed_objects c) fuel projectRef bucket prefix
      (observed_callback c) 0 1.
Proof.
  intros Hshape. destruct (names_bucket_split _ _ _ Hshape) as [Hsplit Hbranch].
  unfold listing, IterateStoragePaths. unfold lists_buckets in Hbranch.
  rewrite Hsplit in *. now rewrite Hbranch.
Qed.

(** X3. The pages of a listing of objects, whatever the storage client
    answers and whatever the consumer does.  On a path that reads
    [bucket/prefix], the calls on the storage client are [listObjects] for
    this bucket and prefix on pages [0], [1], [2], ... with no page left
    out or asked twice; every answer but the last is a full page, so a page
    is asked for only after a full one; there are at most [fuel] of them;
    and a listing that returns without error has ended on a page that is
    not full. *)
Theorem pages_fetched_in_order (fuel : nat)
    (projectRef remotePath bucket prefix : string) (s : observed W) :
  names_bucket remotePath bucket prefix ->
  exists (t : list event) (answers : list (error + list client.ObjectResponse)),
    trace (snd (listing c PAGE_LIMIT fuel projectRef remotePath s))
      = (trace s ++ t)%list /\
    backend_calls t = page_calls projectRef bucket prefix 0 answers /\
    forallb (is_full PAGE_LIMIT) (removelast answers) = true /\
    (List.length answers <= fuel)%nat /\
    (fst (listing c PAGE_LIMIT fuel projectRef remotePath s) = Done tt ->
     exists (init : list (error + list client.ObjectResponse))
            (objects : list client.ObjectResponse),
       answers = (init ++ [inr objects])%list /\
       Z.of_nat (List.length objects) <> PAGE_LIMIT).
Proof.
  intros Hshape. rewrite (object_branch_run fuel projectRef _ _ _ Hshape).
  destruct (page_loop PAGE_LIMIT (observed_objects c) fuel projectRef bucket
              prefix (observed_callback c) 0 1 s) as [r s'] eqn:Hrun.
  destruct (page_loop_calls projectRef bucket prefix fuel 0 s s' r Hrun)
    as (t & answers & Ht & Hb & Hf & Hl & Hr).
  exists t, answers. simpl. repeat split; auto.
  intros ->. exact Hr.
Qed.

(** X4. The shape of the path decides which call a listing makes.  When
    the path reads [bucket/prefix] after one leading slash, with a bucket
    name that is not empty and holds no slash, every call on the storage
    client is a [listObjects] on this bucket and prefix; on any other path
    (no slash after the first byte, or a slash right after the leading
    one) the listing makes one call, [listBuckets], and no other. *)
Theorem listing_branch_by_shape (fuel : nat) (projectRef remotePath : string)
    (s : observed W) :
  exists t : list event,
    trace (snd (listing c PAGE_LIMIT fuel projectRef remotePath s))
      = (trace s ++ t)%list /\
    ((exists bucket prefix : string,
         names_bucket remotePath bucket prefix /\
         exists answers : list (error + list client.ObjectResponse),
           backend_calls t = page_calls projectRef bucket prefix 0 answers) \/
     ((forall bucket prefix : string, ~ names_bucket remotePath bucket prefix) /\
      backend_calls t
        = [ListBucketsCall projectRef (fst (listBuckets c projectRef (world s)))])).
Proof.
  destruct (lists_buckets remotePath) eqn:Hbranch.
  - destruct (bucket_branch_calls fuel projectRef remotePath s Hbranch)
      as (rest & Ht & Hb).
    eexists. split; [exact Ht|]. right. split.
    + intros bucket prefix Hshape.
      destruct (names_bucket_split _ _ _ Hshape) as [_ H]. congruence.
    + simpl. now rewrite Hb.
  - destruct (not_names_bucket _ Hbranch) as (bucket & prefix & Hshape).
    rewrite (object_branch_run fuel projectRef _ _ _ Hshape).
    destruct (page_loop PAGE_LIMIT (observed_objects c) fuel projectRef bucket
                prefix (observed_callback c) 0 1 s) as [r s'] eqn:Hrun.
    destruct (page_loop_calls projectRef bucket prefix fuel 0 s s' r Hrun)
      as (t & answers & Ht & Hb & _).
    exists t. split; [exact Ht|]. left. exists bucket, prefix.
    split; [exact Hshape|]. now exists answers.
Qed.

(** The page loop on a storage client whose pages are all full. *)
Lemma page_loop_full_pages (projectRef bucket prefix : string) :
  (forall (page : Z) (w : W),
      is_full PAGE_LIMIT (fst (listObjects c projectRef bucket prefix page w)) = true) ->
  (forall (name : string) (w : W), fst (consumer c name w) = None) ->
  forall (fuel : nat) (i : Z) (s : observed W),
    exists (s' : observed W) (t : list event),
      page_loop PAGE_LIMIT (observed_objects c) fuel projectRef bucket prefix
        (observed_callback c) i (i + 1) s = (Timeout, s') /\
      trace s' = (trace s ++ t)%list /\
      List.length (backend_calls t) = fuel.
Proof.
  intros Hfull Hsink.
  induction fuel as [|fuel IH]; intros i s; simpl page_loop;
    (destruct (Z.ltb_spec i (i + 1)) as [_|]; [|lia]).
  - exists s, []. rewrite app_nil_r. repeat split.
  - unfold bind at 1. rewrite observed_objects_run.
    pose proof (Hfull i (world s)) as Hi.
    destruct (fst (listObjects c projectRef bucket prefix i (world s)))
      as [e|objects] eqn:Hanswer; [discriminate Hi|].
    simpl in Hi. simpl of_result. cbv iota beta.
    unfold bind at 1.
    rewrite (for_range_map entry_name (observed_callback c)).
    match goal with |- context [for_range ?names _ ?s1] =>
      destruct (for_range_undisturbed c names s1 Hsink) as (s2 & Hrun & Ht) end.
    rewrite Hrun. cbv iota beta. rewrite Hi.
    destruct (IH (i + 1) s2) as (s' & t & Hloop & Ht' & Hlen).
    exists s', (ListObjectsCall projectRef bucket prefix i (inr objects)
                :: map (fun name => CallbackCall name None) (map entry_name objects)
                ++ t)%list.
    split; [exact Hloop|]. split.
    + rewrite Ht', Ht. simpl. now rewrite <- !app_assoc.
    + simpl. rewrite backend_calls_app, length_app, Hlen.
      assert (E : forall names : list string,
                 backend_calls (map (fun name => CallbackCall name None) names) = []).
      { induction names as [|n ns IHn]; [reflexivity | exact IHn]. }
      now rewrite E.
Qed.

(** X5. The page loop has no bound of its own: on a storage client whose
    every page is full, with a consumer that accepts every name, the
    listing has not returned after [fuel] pages, whatever [fuel] is; it has
    then asked for [fuel] pages. *)
Theorem full_pages_never_end (fuel : nat)
    (projectRef remotePath bucket prefix : string) (s : observed W) :
  names_bucket remotePath bucket prefix ->
  (forall (page : Z) (w : W),
      is_full PAGE_LIMIT (fst (listObjects c projectRef bucket prefix page w)) = true) ->
  (forall (name : string) (w : W), fst (consumer c name w) = None) ->
  exists t : list event,
    fst (listing c PAGE_LIMIT fuel projectRef remotePath s) = Timeout /\
    trace (snd (listing c PAGE_LIMIT fuel projectRef remotePath s))
      = (trace s ++ t)%list /\
    List.length (backend_calls t) = fuel.
Proof.
  intros Hshape Hfull Hsink.
  rewrite (object_branch_run fuel projectRef _ _ _ Hshape).
  destruct (page_loop_full_pages projectRef bucket prefix Hfull Hsink fuel 0 s)
    as (s' & t & Hrun & Ht & Hlen).
  change (0 + 1) with 1 in Hrun. rewrite Hrun. now exists t.
Qed.

End PageCalls.

(** ** The names of a listing *)

Lemma listed_app (bucket : string) (t1 t2 : list event) :
  listed bucket (t1 ++ t2) = (listed bucket t1 ++ listed bucket t2)%list.
Proof. unfold listed. apply flat_map_app. Qed.

Lemma refused_app (t1 t2 : list event) :
  refused (t1 ++ t2) = refused t1 || refused t2.
Proof. unfold refused. apply existsb_app. Qed.

(** What the callback's calls on [names] leave: nothing listed, and a
    first part of [names] delivered, all of them unless one was refused. *)
Lemma deliveries_listed (bucket : string) (names : list string)
    (r : outcome unit) (t : list event) :
  deliveries names r t ->
  listed bucket t = [] /\
  exists rest : list string,
    names = (delivered t ++ rest)%list /\
    (refused t = false -> rest = [] /\ r = Done tt).
Proof.
  induction 1 as [|name names r t H (IH1 & rest & IH2 & IH3)|name names e].
  - split; [reflexivity|]. exists []. auto.
  - split; [exact IH1|]. exists rest. split; [simpl; now rewrite IH2 | exact IH3].
  - split; [reflexivity|]. exists names. split; [reflexivity | discriminate].
Qed.

Section Listed.

Context {W : Type}.
Variable c : collaborators W.
Variable PAGE_LIMIT : Z.

Lemma page_loop_listed (projectRef bucket prefix b : string) :
  forall (fuel : nat) (i pages : Z) (s s' : observed W) (r : outcome unit),
    page_loop PAGE_LIMIT (observed_objects c) fuel projectRef bucket prefix
      (observed_callback c) i pages s = (r, s') ->
    exists (t : list event) (rest : list string),
      trace s' = (trace s ++ t)%list /\
      listed b t = (delivered t ++ rest)%list /\
      (refused t = false -> rest = []).
Proof.
  induction fuel as [|fuel IH]; intros i pages s s' r Hrun; simpl in Hrun;
    destruct (i <? pages);
    try (inversion Hrun; subst; exists [], []; rewrite app_nil_r; now auto).
  apply bind_run in Hrun. rewrite observed_objects_run in Hrun.
  destruct (fst (listObjects c projectRef bucket prefix i (world s)))
    as [e|objects] eqn:Hanswer; simpl in Hrun.
  - destruct Hrun as [(a & s1 & H & _)|[(e' & H & ->)|[H _]]]; try discriminate.
    inversion H; subst.
    exists [ListObjectsCall projectRef bucket prefix i (inl e')], [].
    now auto.
  - destruct Hrun as [(a & s1 & H & Hk)|[(e' & H & _)|[H _]]]; try discriminate.
    inversion H; subst. clear H.
    apply bind_run in Hk.
    rewrite (for_range_map entry_name (observed_callback c)) in Hk.
    destruct Hk as [([] & s2 & H1 & H2)|[(e' & H1 & ->)|[H1 ->]]];
      destruct (for_range_deliveries c _ _ _ _ H1) as (t1 & Ht1 & Hd);
      destruct (deliveries_listed b _ _ _ Hd) as (Hl1 & rest1 & Hn1 & Hr1);
      destruct (deliveries_delivered _ _ _ Hd) as (_ & _ & Hall & _);
      simpl in Ht1.
    + destruct (IH _ _ _ _ _ H2) as (t2 & rest2 & Ht2 & Hl2 & Hr2).
      exists (ListObjectsCall projectRef bucket prefix i (inr a) :: t1 ++ t2)%list,
             rest2.
      split; [rewrite Ht2, Ht1, <- !app_assoc; reflexivity|].
      split.
      * change (listed b (ListObjectsCall projectRef bucket prefix i (inr a)
                          :: t1 ++ t2))
          with (map entry_name a ++ listed b (t1 ++ t2))%list.
        change (delivered (ListObjectsCall projectRef bucket prefix i (inr a)
                           :: t1 ++ t2))
          with (delivered (t1 ++ t2)).
        rewrite listed_app, delivered_app, Hl1, Hl2, (Hall eq_refl).
        now rewrite <- app_assoc.
      * intros Href. apply Hr2.
        change (refused (ListObjectsCall projectRef bucket prefix i (inr a)
                         :: t1 ++ t2))
          with (refused (t1 ++ t2)) in Href.
        rewrite refused_app in Href. now apply orb_false_iff in Href.
    + exists (ListObjectsCall projectRef bucket prefix i (inr a) :: t1)%list, rest1.
      split; [rewrite Ht1, <- app_assoc; reflexivity|].
      split.
      * change (listed b (ListObjectsCall projectRef bucket prefix i (inr a) :: t1))
          with (map entry_name a ++ listed b t1)%list.
        rewrite Hl1, app_nil_r. exact Hn1.
      * intros Href. now apply Hr1.
    + exists (ListObjectsCall projectRef bucket prefix i (inr a) :: t1)%list, rest1.
      split; [rewrite Ht1, <- app_assoc; reflexivity|].
      split.
      * change (listed b (ListObjectsCall projectRef bucket prefix i (inr a) :: t1))
          with (map entry_name a ++ listed b t1)%list.
        rewrite Hl1, app_nil_r. exact Hn1.
      * intros Href. now apply Hr1.
Qed.

(** X6. A listing hands on what it is given, in order.  Whatever the
    storage client and the consumer do, the names delivered are a first
    part of the names listed in the answers received; and when the
    consumer has refused no name they are all of them, also when a later
    call on the storage client fails. *)
Theorem listing_delivers_what_is_listed (fuel : nat)
    (projectRef remotePath : string) (s : observed W) :
  exists (t : list event) (rest : list string),
    trace (snd (listing c PAGE_LIMIT fuel projectRef remotePath s))
      = (trace s ++ t)%list /\
    listed (fst (SplitBucketPrefix remotePath)) t = (delivered t ++ rest)%list /\
    (refused t = false -> rest = []).
Proof.
  destruct (listing c PAGE_LIMIT fuel projectRef remotePath s) as [r s'] eqn:Hrun.
  unfold listing, IterateStoragePaths in Hrun.
  destruct (SplitBucketPrefix remotePath) as [bucket prefix]. simpl fst. simpl snd.
  destruct ((strings.len bucket =? 0)
            || ((strings.len prefix =? 0)
                && negb (strings.HasSuffix remotePath "/"))).
  - apply bind_run in Hrun. rewrite observed_buckets_run in Hrun.
    destruct (fst (listBuckets c projectRef (world s))) as [err|buckets];
      simpl in Hrun.
    + destruct Hrun as [(a & s1 & H & _)|[(e' & H & ->)|[H _]]]; try discriminate.
      inversion H; subst. exists [ListBucketsCall projectRef (inl e')], [].
      now auto.
    + destruct Hrun as [(a & s1 & H & Hk)|[(e' & H & _)|[H _]]]; try discriminate.
      inversion H; subst.
      rewrite (for_range_filter
                 (fun b => strings.HasPrefix (client.BucketName b) bucket)
                 (fun b => observed_callback c (client.BucketName b ++ "/")))
        in Hk.
      rewrite (for_range_map (fun b => client.BucketName b ++ "/")
                 (observed_callback c)) in Hk.
      destruct (for_range_deliveries c _ _ _ _ Hk) as (t & Ht & Hd).
      destruct (deliveries_listed bucket _ _ _ Hd) as (Hl & rest & Hn & Hr).
      exists (ListBucketsCall projectRef (inr a) :: t), rest.
      simpl in Ht.
      split; [rewrite Ht, <- app_assoc; reflexivity|].
      split.
      * change (listed bucket (ListBucketsCall projectRef (inr a) :: t))
          with (map (fun b => (client.BucketName b ++ "/")%string)
                  (filter (fun b => strings.HasPrefix (client.BucketName b) bucket) a)
                ++ listed bucket t)%list.
        rewrite Hl, app_nil_r. exact Hn.
      * intros Href. now apply Hr.
  - exact (page_loop_listed projectRef bucket prefix bucket fuel 0 1 s s' r Hrun).
Qed.

(** The page loop of [ListStoragePaths]. *)
Lemma page_loop_result (projectRef bucket prefix b : string) :
  forall (fuel : nat) (i pages : Z) (s s' : observed W)
         (result result' : list string) (r : outcome unit),
    page_loop PAGE_LIMIT
      (fun projectRef bucket prefix page =>
         lift (observed_objects c projectRef bucket prefix page))
      fuel projectRef bucket prefix collect i pages (s, result)
      = (r, (s', result')) ->
    exists t : list event,
      trace s' = (trace s ++ t)%list /\
      delivered t = [] /\
      result' = (result ++ listed b t)%list /\
      halted r t.
Proof.
  induction fuel as [|fuel IH]; intros i pages s s' result result' r Hrun;
    simpl in Hrun; destruct (i <? pages);
    try (inversion Hrun; subst; exists []; rewrite !app_nil_r;
         repeat split; constructor).
  apply bind_run in Hrun. rewrite lift_run, observed_objects_run in Hrun.
  destruct (fst (listObjects c projectRef bucket prefix i (world s)))
    as [e|objects] eqn:Hanswer; simpl in Hrun.
  - destruct Hrun as [(a & s1 & H & _)|[(e' & H & ->)|[H _]]]; try discriminate.
    inversion H; subst.
    exists [ListObjectsCall projectRef bucket prefix i (inl e')].
    rewrite app_nil_r. repeat split.
    exists [], (ListObjectsCall projectRef bucket prefix i (inl e')).
    repeat split. constructor.
  - destruct Hrun as [(a & s1 & H & Hk)|[(e' & H & _)|[H _]]]; try discriminate.
    inversion H; subst. clear H.
    unfold bind in Hk at 1.
    rewrite (for_range_map entry_name collect), for_range_collect in Hk.
    destruct (IH _ _ _ _ _ _ _ Hk) as (t & Ht & Hd & Hres & Hh).
    simpl in Ht.
    exists (ListObjectsCall projectRef bucket prefix i (inr a) :: t).
    split; [rewrite Ht, <- app_assoc; reflexivity|].
    split; [exact Hd|].
    split.
    + change (listed b (ListObjectsCall projectRef bucket prefix i (inr a) :: t))
        with (map entry_name a ++ listed b t)%list.
      now rewrite Hres, <- app_assoc.
    + destruct r as [[]|e|]; simpl in *.
      * constructor; [reflexivity | exact Hh].
      * destruct Hh as (before & ev & -> & Hc & He).
        exists (ListObjectsCall projectRef bucket prefix i (inr a) :: before), ev.
        repeat split; [|exact He]. constructor; [reflexivity | exact Hc].
      * constructor; [reflexivity | exact Hh].
Qed.

Lemma ListStoragePaths_answers (fuel : nat) (projectRef remotePath : string)
    (s : observed W) :
  exists t : list event,
    let '(result, err, s') :=
      ListStoragePaths PAGE_LIMIT (observed_buckets c) (observed_objects c)
        fuel projectRef remotePath s in
    trace s' = (trace s ++ t)%list /\
    delivered t = [] /\
    result = listed (fst (SplitBucketPrefix remotePath)) t /\
    halted err t.
Proof.
  unfold ListStoragePaths, IterateStoragePaths_in, IterateStoragePaths.
  destruct (SplitBucketPrefix remotePath) as [bucket prefix]. simpl fst.
  destruct ((strings.len bucket =? 0)
            || ((strings.len prefix =? 0)
                && negb (strings.HasSuffix remotePath "/"))).
  - unfold bind at 1. rewrite lift_run, observed_buckets_run.
    destruct (fst (listBuckets c projectRef (world s))) as [err|buckets];
      simpl.
    + exists [ListBucketsCall projectRef (inl err)]. repeat split.
      exists [], (ListBucketsCall projectRef (inl err)).
      repeat split. constructor.
    + rewrite (for_range_filter
                 (fun b => strings.HasPrefix (client.BucketName b) bucket)
                 (fun b => collect (client.BucketName b ++ "/"))).
      rewrite (for_range_map (fun b => client.BucketName b ++ "/") collect).
      rewrite for_range_collect.
      exists [ListBucketsCall projectRef (inr buckets)]. simpl.
      rewrite app_nil_r. repeat split. constructor; [reflexivity | constructor].
  - match goal with |- context [page_loop ?a ?b ?c ?d ?e ?f ?g ?h ?i ?j] =>
      destruct (page_loop a b c d e f g h i j) as [r [s' result]] eqn:Hloop end.
    destruct (page_loop_result _ _ _ bucket _ _ _ _ _ _ _ _ Hloop)
      as (t & Ht & Hd & Hres & Hh).
    exists t. repeat split; assumption.
Qed.

(** X7. What [ListStoragePaths] returns.  It never calls the consumer;
    the list it returns holds the names of every answer it has received,
    in order, also when it returns an error; and an error it returns is
    the error of its last call on the storage client, no call having
    failed before. *)
Theorem ListStoragePaths_result (fuel : nat) (projectRef remotePath : string)
    (s : observed W) :
  let got := ListStoragePaths PAGE_LIMIT (observed_buckets c)
               (observed_objects c) fuel projectRef remotePath s in
  exists t : list event,
    trace (snd got) = (trace s ++ t)%list /\
    delivered t = [] /\
    fst (fst got) = listed (fst (SplitBucketPrefix remotePath)) t /\
    halted (snd (fst got)) t.
Proof.
  cbv zeta.
  destruct (ListStoragePaths_answers fuel projectRef remotePath s) as (t & H).
  destruct (ListStoragePaths PAGE_LIMIT (observed_buckets c) (observed_objects c)
              fuel projectRef remotePath s) as [[result err] s'].
  now exists t.
Qed.

End Listed.

(** ** Runs that go alike *)

Lemma same_outcome_eq {A : Type} (r1 r2 : outcome A) :
  same_outcome eq r1 r2 -> r1 = r2.
Proof.
  destruct r1, r2; simpl; intros H; try contradiction; congruence.
Qed.

Section Alike.

Context {S1 S2 : Type}.
Variable R : S1 -> S2 -> Prop.

Lemma alike_ret {A B : Type} (V : A -> B -> Prop) (a : A) (b : B) :
  V a b -> alike R V (ret a) (ret b).
Proof. intros H s1 s2 HR. split; [exact H | exact HR]. Qed.

Lemma alike_out_of_fuel {A B : Type} (V : A -> B -> Prop) :
  alike R V (@out_of_fuel S1 A) (@out_of_fuel S2 B).
Proof. intros s1 s2 HR. split; [exact I | exact HR]. Qed.

Lemma alike_bind {A1 A2 B1 B2 : Type} (V : A1 -> A2 -> Prop)
    (V' : B1 -> B2 -> Prop) (m1 : M S1 A1) (m2 : M S2 A2)
    (k1 : A1 -> M S1 B1) (k2 : A2 -> M S2 B2) :
  alike R V m1 m2 ->
  (forall (a1 : A1) (a2 : A2), V a1 a2 -> alike R V' (k1 a1) (k2 a2)) ->
  alike R V' (bind m1 k1) (bind m2 k2).
Proof.
  intros Hm Hk s1 s2 HR. destruct (Hm s1 s2 HR) as [Ho HR'].
  unfold bind.
  destruct (m1 s1) as [[a1|e1|] s1'], (m2 s2) as [[a2|e2|] s2'];
    simpl in *; try contradiction.
  - now apply Hk.
  - now split.
  - now split.
Qed.

Lemma alike_for_range {A : Type} (l : list A) (body1 : A -> M S1 unit)
    (body2 : A -> M S2 unit) :
  (forall x : A, alike R eq (body1 x) (body2 x)) ->
  alike R eq (for_range l body1) (for_range l body2).
Proof.
  intros Hbody. induction l as [|x l IH]; simpl.
  - now apply alike_ret.
  - apply (alike_bind eq); [apply Hbody | intros _ _ _; exact IH].
Qed.

Variable PAGE_LIMIT : Z.
Variable ListStorageBuckets1 : string -> M S1 (list client.BucketResponse).
Variable ListStorageBuckets2 : string -> M S2 (list client.BucketResponse).
Variable ListStorageObjects1 :
  string -> string -> string -> Z -> M S1 (list client.ObjectResponse).
Variable ListStorageObjects2 :
  string -> string -> string -> Z -> M S2 (list client.ObjectResponse).

Hypothesis alike_buckets :
  forall projectRef : string,
    alike R eq (ListStorageBuckets1 projectRef) (ListStorageBuckets2 projectRef).
Hypothesis alike_objects :
  forall (projectRef bucket prefix : string) (page : Z),
    alike R eq (ListStorageObjects1 projectRef bucket prefix page)
      (ListStorageObjects2 projectRef bucket prefix page).

Lemma alike_page_loop (fuel : nat) (projectRef bucket prefix : string)
    (callback1 : string -> M S1 unit) (callback2 : string -> M S2 unit)
    (i pages : Z) :
  (forall name : string, alike R eq (callback1 name) (callback2 name)) ->
  alike R eq
    (page_loop PAGE_LIMIT ListStorageObjects1 fuel projectRef bucket prefix
       callback1 i pages)
    (page_loop PAGE_LIMIT ListStorageObjects2 fuel projectRef bucket prefix
       callback2 i pages).
Proof.
  intros Hcb. revert i pages; induction fuel as [|fuel IH]; intros i pages;
    simpl; destruct (i <? pages);
    try (now apply alike_ret); try apply alike_out_of_fuel.
  apply (alike_bind eq); [apply alike_objects|].
  intros objects _ <-.
  apply (alike_bind eq); [|intros _ _ _; apply IH].
  apply alike_for_range. intros o. apply Hcb.
Qed.

Lemma alike_IterateStoragePaths (fuel : nat) (projectRef remotePath : string)
    (callback1 : string -> M S1 unit) (callback2 : string -> M S2 unit) :
  (forall name : string, alike R eq (callback1 name) (callback2 name)) ->
  alike R eq
    (IterateStoragePaths PAGE_LIMIT ListStorageBuckets1 ListStorageObjects1
       fuel projectRef remotePath callback1)
    (IterateStoragePaths PAGE_LIMIT ListStorageBuckets2 ListStorageObjects2
       fuel projectRef remotePath callback2).
Proof.
  intros Hcb. unfold IterateStoragePaths.
  destruct (SplitBucketPrefix remotePath) as [bucket prefix].
  destruct ((strings.len bucket =? 0)
            || ((strings.len prefix =? 0)
                && negb (strings.HasSuffix remotePath "/"))).
  - apply (alike_bind eq); [apply alike_buckets|].
    intros buckets _ <-. apply alike_for_range. intros b.
    destruct (strings.HasPrefix (client.BucketName b) bucket).
    + apply Hcb.
    + now apply alike_ret.
  - now apply alike_page_loop.
Qed.

End Alike.

Section AlikeLocals.

Context {S1 S2 L1 L2 : Type}.
Variable R : S1 -> S2 -> Prop.
Variable RL : L1 -> L2 -> Prop.

Lemma alike_lift {A B : Type} (V : A -> B -> Prop) (m1 : M S1 A) (m2 : M S2 B) :
  alike R V m1 m2 ->
  alike (with_locals R RL) V (lift m1) (lift m2).
Proof.
  intros H [s1 l1] [s2 l2] [HR HL]. rewrite !lift_run. simpl in *.
  destruct (H s1 s2 HR) as [Ho HR']. split; [exact Ho | now split].
Qed.

Lemma alike_update_local (f1 : L1 -> L1) (f2 : L2 -> L2) :
  (forall (l1 : L1) (l2 : L2), RL l1 l2 -> RL (f1 l1) (f2 l2)) ->
  alike (with_locals R RL) eq (update_local f1) (update_local f2).
Proof.
  intros Hf [s1 l1] [s2 l2] [HR HL]. simpl in *.
  split; [reflexivity | split; [exact HR | now apply Hf]].
Qed.

Lemma alike_get_local :
  alike (with_locals R RL) RL get_local get_local.
Proof. intros [s1 l1] [s2 l2] [HR HL]. simpl in *. now split. Qed.

End AlikeLocals.

Section AlikeWalk.

Context {S1 S2 : Type}.
Variable R : S1 -> S2 -> Prop.
Variable RL : walk_locals -> walk_locals -> Prop.
Variable PAGE_LIMIT : Z.
Variable ListStorageBuckets1 : string -> M S1 (list client.BucketResponse).
Variable ListStorageBuckets2 : string -> M S2 (list client.BucketResponse).
Variable ListStorageObjects1 :
  string -> string -> string -> Z -> M S1 (list client.ObjectResponse).
Variable ListStorageObjects2 :
  string -> string -> string -> Z -> M S2 (list client.ObjectResponse).
Variable callback1 : string -> M S1 unit.
Variable callback2 : string -> M S2 unit.

Hypothesis alike_buckets :
  forall projectRef : string,
    alike R eq (ListStorageBuckets1 projectRef) (ListStorageBuckets2 projectRef).
Hypothesis alike_objects :
  forall (projectRef bucket prefix : string) (page : Z),
    alike R eq (ListStorageObjects1 projectRef bucket prefix page)
      (ListStorageObjects2 projectRef bucket prefix page).
Hypothesis alike_callback :
  forall name : string, alike R eq (callback1 name) (callback2 name).
Hypothesis RL_enqueue :
  forall (objectPath : string) (l1 l2 : walk_locals),
    RL l1 l2 -> RL (enqueue objectPath l1) (enqueue objectPath l2).
Hypothesis RL_set_empty :
  forall (b : bool) (l1 l2 : walk_locals),
    RL l1 l2 -> RL (set_empty b l1) (set_empty b l2).
Hypothesis RL_empty :
  forall l1 l2 : walk_locals, RL l1 l2 -> empty l1 = empty l2.

Lemma alike_listing_in (fuel : nat) (projectRef remotePath : string)
    (cb1 : string -> M (S1 * walk_locals) unit)
    (cb2 : string -> M (S2 * walk_locals) unit) :
  (forall name : string, alike (with_locals R RL) eq (cb1 name) (cb2 name)) ->
  alike (with_locals R RL) eq
    (IterateStoragePaths_in walk_locals PAGE_LIMIT ListStorageBuckets1
       ListStorageObjects1 fuel projectRef remotePath cb1)
    (IterateStoragePaths_in walk_locals PAGE_LIMIT ListStorageBuckets2
       ListStorageObjects2 fuel projectRef remotePath cb2).
Proof.
  intros Hcb. unfold IterateStoragePaths_in.
  apply alike_IterateStoragePaths; [| |exact Hcb].
  - intros ref. apply alike_lift. apply alike_buckets.
  - intros ref bucket prefix page. apply alike_lift. apply alike_objects.
Qed.

Lemma alike_seed_callback (basePath objectName : string) :
  alike (with_locals R RL) eq
    (seed_callback basePath callback1 objectName)
    (seed_callback basePath callback2 objectName).
Proof.
  unfold seed_callback. destruct (strings.HasSuffix objectName "/").
  - apply alike_update_local. apply RL_enqueue.
  - apply alike_lift. apply alike_callback.
Qed.

Lemma alike_drain_callback (dirPath objectName : string) :
  alike (with_locals R RL) eq
    (drain_callback dirPath callback1 objectName)
    (drain_callback dirPath callback2 objectName).
Proof.
  unfold drain_callback. apply (alike_bind _ eq).
  - apply alike_update_local. apply RL_set_empty.
  - intros _ _ _. destruct (strings.HasSuffix objectName "/").
    + apply alike_update_local. apply RL_enqueue.
    + apply alike_lift. apply alike_callback.
Qed.

Lemma alike_drain_dir (fuel : nat) (projectRef dirPath : string) :
  alike (with_locals R RL) eq
    (drain_dir PAGE_LIMIT ListStorageBuckets1 ListStorageObjects1 fuel
       projectRef callback1 dirPath)
    (drain_dir PAGE_LIMIT ListStorageBuckets2 ListStorageObjects2 fuel
       projectRef callback2 dirPath).
Proof.
  unfold drain_dir. apply (alike_bind _ eq).
  { apply alike_update_local. apply RL_set_empty. }
  intros _ _ _. apply (alike_bind _ eq).
  { apply alike_listing_in. intros name. apply alike_drain_callback. }
  intros _ _ _. destruct (SplitBucketPrefix dirPath) as [bucket prefix].
  apply (alike_bind _ RL); [apply alike_get_local|].
  intros l1 l2 Hl. rewrite (RL_empty l1 l2 Hl).
  destruct (empty l2 && (strings.len prefix =? 0)).
  - apply alike_lift. apply alike_callback.
  - now apply alike_ret.
Qed.

End AlikeWalk.

Section AlikeQueue.

Context {S1 S2 : Type}.
Variable R : S1 -> S2 -> Prop.
Variable PAGE_LIMIT : Z.
Variable ListStorageBuckets1 : string -> M S1 (list client.BucketResponse).
Variable ListStorageBuckets2 : string -> M S2 (list client.BucketResponse).
Variable ListStorageObjects1 :
  string -> string -> string -> Z -> M S1 (list client.ObjectResponse).
Variable ListStorageObjects2 :
  string -> string -> string -> Z -> M S2 (list client.ObjectResponse).
Variable callback1 : string -> M S1 unit.
Variable callback2 : string -> M S2 unit.

Hypothesis alike_buckets :
  forall projectRef : string,
    alike R eq (ListStorageBuckets1 projectRef) (ListStorageBuckets2 projectRef).
Hypothesis alike_objects :
  forall (projectRef bucket prefix : string) (page : Z),
    alike R eq (ListStorageObjects1 projectRef bucket prefix page)
      (ListStorageObjects2 projectRef bucket prefix page).
Hypothesis alike_callback :
  forall name : string, alike R eq (callback1 name) (callback2 name).

Lemma eq_enqueue (objectPath : string) (l1 l2 : walk_locals) :
  l1 = l2 -> enqueue objectPath l1 = enqueue objectPath l2.
Proof. now intros ->. Qed.

Lemma eq_set_empty (b : bool) (l1 l2 : walk_locals) :
  l1 = l2 -> set_empty b l1 = set_empty b l2.
Proof. now intros ->. Qed.

Lemma eq_empty (l1 l2 : walk_locals) : l1 = l2 -> empty l1 = empty l2.
Proof. now intros ->. Qed.

Lemma alike_drain_loop (fuel : nat) (projectRef : string) :
  alike (with_locals R eq) eq
    (drain_loop PAGE_LIMIT ListStorageBuckets1 ListStorageObjects1 fuel
       projectRef callback1)
    (drain_loop PAGE_LIMIT ListStorageBuckets2 ListStorageObjects2 fuel
       projectRef callback2).
Proof.
  induction fuel as [|fuel IH]; simpl;
    (apply (alike_bind _ eq); [apply alike_get_local|]);
    intros l _ <-; destruct (0 <? Z.of_nat (List.length (dirQueue l)));
    try (now apply alike_ret); try apply alike_out_of_fuel.
  apply (alike_bind _ eq).
  { apply alike_update_local. now intros l1 l2 ->. }
  intros _ _ _. apply (alike_bind _ eq); [|intros _ _ _; exact IH].
  apply (alike_drain_dir R eq PAGE_LIMIT _ _ _ _ _ _
           alike_buckets alike_objects alike_callback
           eq_enqueue eq_set_empty eq_empty).
Qed.

Lemma alike_IterateStoragePathsAll (fuel : nat) (projectRef remotePath : string) :
  alike R eq
    (IterateStoragePathsAll PAGE_LIMIT ListStorageBuckets1 ListStorageObjects1
       fuel projectRef remotePath callback1)
    (IterateStoragePathsAll PAGE_LIMIT ListStorageBuckets2 ListStorageObjects2
       fuel projectRef remotePath callback2).
Proof.
  intros s1 s2 HR. unfold IterateStoragePathsAll.
  assert (H : alike (with_locals R eq) eq
                (walk_body PAGE_LIMIT ListStorageBuckets1 ListStorageObjects1
                   fuel projectRef remotePath callback1)
                (walk_body PAGE_LIMIT ListStorageBuckets2 ListStorageObjects2
                   fuel projectRef remotePath callback2)).
  { unfold walk_body. apply (alike_bind _ eq).
    - apply (alike_listing_in R eq PAGE_LIMIT _ _ _ _ alike_buckets alike_objects).
      intros name.
      apply (alike_seed_callback R eq _ _ alike_callback eq_enqueue).
    - intros _ _ _. apply alike_drain_loop. }
  destruct (H (s1, {| dirQueue := []; empty := true |})
              (s2, {| dirQueue := []; empty := true |}))
    as [Ho [HR' _]]; [now split|].
  destruct (walk_body PAGE_LIMIT ListStorageBuckets1 ListStorageObjects1 fuel
              projectRef remotePath callback1 _) as [r1 [s1' l1]].
  destruct (walk_body PAGE_LIMIT ListStorageBuckets2 ListStorageObjects2 fuel
              projectRef remotePath callback2 _) as [r2 [s2' l2]].
  simpl in *. now split.
Qed.

End AlikeQueue.

Section Collected.

Context {W : Type}.
Variable c : collaborators W.
Variable s0 : observed W.

Lemma collected_start : collected s0 (s0, []) s0.
Proof.
  split; [reflexivity|]. exists []. simpl. now rewrite app_nil_r.
Qed.

Lemma collected_buckets (projectRef : string) :
  alike (collected s0) eq
    (lift (observed_buckets c projectRef))
    (observed_buckets (accepting c) projectRef).
Proof.
  intros [s1 result] s2 [Hw (t & Ht2 & Ht1 & Hres)]. simpl in *.
  rewrite lift_run, !observed_buckets_run. simpl. rewrite Hw.
  split.
  - destruct (fst (listBuckets c projectRef (world s2))); reflexivity.
  - split; [reflexivity|].
    exists (t ++ [ListBucketsCall projectRef
                    (fst (listBuckets c projectRef (world s2)))])%list.
    simpl. rewrite Ht2, Ht1, backend_calls_app, delivered_app, <- !app_assoc.
    simpl. rewrite app_nil_r. auto.
Qed.

Lemma collected_objects (projectRef bucket prefix : string) (page : Z) :
  alike (collected s0) eq
    (lift (observed_objects c projectRef bucket prefix page))
    (observed_objects (accepting c) projectRef bucket prefix page).
Proof.
  intros [s1 result] s2 [Hw (t & Ht2 & Ht1 & Hres)]. simpl in *.
  rewrite lift_run, !observed_objects_run. simpl. rewrite Hw.
  split.
  - destruct (fst (listObjects c projectRef bucket prefix page (world s2)));
      reflexivity.
  - split; [reflexivity|].
    exists (t ++ [ListObjectsCall projectRef bucket prefix page
                    (fst (listObjects c projectRef bucket prefix page (world s2)))])%list.
    simpl. rewrite Ht2, Ht1, backend_calls_app, delivered_app, <- !app_assoc.
    simpl. rewrite app_nil_r. auto.
Qed.

Lemma collected_callback (name : string) :
  alike (collected s0) eq (collect name) (observed_callback (accepting c) name).
Proof.
  intros [s1 result] s2 [Hw (t & Ht2 & Ht1 & Hres)]. simpl in *.
  split; [reflexivity|]. split; [exact Hw|].
  exists (t ++ [CallbackCall name None])%list.
  simpl. rewrite Ht2, Ht1, Hres, backend_calls_app, delivered_app, <- !app_assoc.
  simpl. rewrite app_nil_r. auto.
Qed.

End Collected.

(** [ListStoragePaths] beside a listing with an accepting consumer. *)
Lemma ListStoragePaths_collects {W : Type} (c : collaborators W)
    (PAGE_LIMIT : Z) (fuel : nat) (projectRef remotePath : string)
    (s : observed W) :
  let got := ListStoragePaths PAGE_LIMIT (observed_buckets c)
               (observed_objects c) fuel projectRef remotePath s in
  let run := listing (accepting c) PAGE_LIMIT fuel projectRef remotePath s in
  snd (fst got) = fst run /\
  world (snd got) = world (snd run) /\
  exists t : list event,
    trace (snd run) = (trace s ++ t)%list /\
    trace (snd got) = (trace s ++ backend_calls t)%list /\
    fst (fst got) = delivered t.
Proof.
  cbv zeta. unfold ListStoragePaths, listing, IterateStoragePaths_in.
  destruct (alike_IterateStoragePaths (collected s) PAGE_LIMIT _ _ _ _
              (collected_buckets c s) (collected_objects c s)
              fuel projectRef remotePath _ _ (collected_callback c s)
              (s, []) s (collected_start s))
    as [Ho [Hw (t & Ht2 & Ht1 & Hres)]].
  apply same_outcome_eq in Ho.
  match goal with |- context [IterateStoragePaths ?a ?b ?d ?e ?f ?g ?h (s, [])] =>
    destruct (IterateStoragePaths a b d e f g h (s, [])) as [r1 [s1 result]] end.
  simpl in *. split; [exact Ho|]. split; [exact Hw|]. now exists t.
Qed.

(** [ListStoragePathsAll] beside a walk with an accepting consumer. *)
Lemma ListStoragePathsAll_collects {W : Type} (c : collaborators W)
    (PAGE_LIMIT : Z) (fuel : nat) (projectRef remotePath : string)
    (s : observed W) :
  let got := ListStoragePathsAll PAGE_LIMIT (observed_buckets c)
               (observed_objects c) fuel projectRef remotePath s in
  let run := walk (accepting c) PAGE_LIMIT fuel projectRef remotePath s in
  snd (fst got) = fst run /\
  world (snd got) = world (snd run) /\
  exists t : list event,
    trace (snd run) = (trace s ++ t)%list /\
    trace (snd got) = (trace s ++ backend_calls t)%list /\
    fst (fst got) = delivered t.
Proof.
  cbv zeta. unfold ListStoragePathsAll, walk.
  destruct (alike_IterateStoragePathsAll (collected s) PAGE_LIMIT _ _ _ _ _ _
              (collected_buckets c s) (collected_objects c s)
              (collected_callback c s)
              fuel projectRef remotePath (s, []) s (collected_start s))
    as [Ho [Hw (t & Ht2 & Ht1 & Hres)]].
  apply same_outcome_eq in Ho.
  match goal with |- context [IterateStoragePathsAll ?a ?b ?d ?e ?f ?g ?h (s, [])] =>
    destruct (IterateStoragePathsAll a b d e f g h (s, [])) as [r1 [s1 result]] end.
  simpl in *. split; [exact Ho|]. split; [exact Hw|]. now exists t.
Qed.

(** X8. [ListStoragePaths] and [ListStoragePathsAll] return what
    [IterateStoragePaths] and [IterateStoragePathsAll] deliver to a
    consumer that accepts everything: from the same state they end with
    the same error or none, leave the same world, have made the same calls
    on the storage client in the same order, and the list returned is the
    list of the paths delivered, in order. *)
Theorem list_functions_collect_deliveries {W : Type} (c : collaborators W)
    (PAGE_LIMIT : Z) (fuel : nat) (projectRef remotePath : string)
    (s : observed W) :
  (let got := ListStoragePaths PAGE_LIMIT (observed_buckets c)
                (observed_objects c) fuel projectRef remotePath s in
   let run := listing (accepting c) PAGE_LIMIT fuel projectRef remotePath s in
   snd (fst got) = fst run /\
   world (snd got) = world (snd run) /\
   exists t : list event,
     trace (snd run) = (trace s ++ t)%list /\
     trace (snd got) = (trace s ++ backend_calls t)%list /\
     fst (fst got) = delivered t) /\
  (let got := ListStoragePathsAll PAGE_LIMIT (observed_buckets c)
                (observed_objects c) fuel projectRef remotePath s in
   let run := walk (accepting c) PAGE_LIMIT fuel projectRef remotePath s in
   snd (fst got) = fst run /\
   world (snd got) = world (snd run) /\
   exists t : list event,
     trace (snd run) = (trace s ++ t)%list /\
     trace (snd got) = (trace s ++ backend_calls t)%list /\
     fst (fst got) = delivered t).
Proof.
  split.
  - apply ListStoragePaths_collects.
  - apply ListStoragePathsAll_collects.
Qed.

(** ** The command *)

Lemma print_callback_accepting {W : Type} (c : collaborators W) :
  print_callback (@observed_print W) = observed_callback (accepting c).
Proof. reflexivity. Qed.

(** Past the parser and the loader, the command is a listing or a walk
    with a consumer that accepts everything. *)
Lemma run_accepted {W : Type} (url_Parse : string -> error + url.URL)
    (load : W -> (error + string) * W) (c : collaborators W) (PAGE_LIMIT : Z)
    (fuel : nat) (objectPath remotePath projectRef : string)
    (recursive : bool) (s : observed W) :
  ParseStorageURL url_Parse objectPath = inr remotePath ->
  fst (load (world s)) = inr projectRef ->
  command url_Parse load c PAGE_LIMIT fuel objectPath recursive s
  = (if recursive
     then walk (accepting c) PAGE_LIMIT fuel projectRef remotePath
     else listing (accepting c) PAGE_LIMIT fuel projectRef remotePath)
      (loaded load s).
Proof.
  intros Hparse Hload. unfold command, Run. rewrite Hparse.
  unfold bind at 1, observed_load, loaded.
  destruct (load (world s)) as [r w]. simpl in Hload. subst r. simpl.
  now destruct recursive.
Qed.

Section Unrefused.

Context {W : Type}.
Variable c : collaborators W.
Variable t0 : list event.

Lemma unrefused_step (s : observed W) (ev : event) (w : W) (r r' : outcome unit) :
  refused [ev] = false ->
  unrefused t0 r s ->
  unrefused t0 r' {| world := w; trace := (trace s ++ [ev])%list |}.
Proof.
  intros Hev (t & Ht & Hr). exists (t ++ [ev])%list. simpl.
  rewrite Ht, <- app_assoc. split; [reflexivity|].
  now rewrite refused_app, Hr, Hev.
Qed.

Lemma unrefused_buckets (projectRef : string) :
  triple (unrefused t0 (Done tt)) (observed_buckets c projectRef)
    (returning (unrefused t0) (Forall (fun _ => True))).
Proof.
  intros s s' r Hs Hrun. rewrite observed_buckets_run in Hrun.
  injection Hrun as Hr Hs'. subst r s'. apply returning_any.
  - intros r'. now apply (unrefused_step s _ _ (Done tt)).
  - intros a. apply Forall_forall. auto.
Qed.

Lemma unrefused_objects (projectRef bucket prefix : string) (page : Z) :
  triple (unrefused t0 (Done tt))
    (observed_objects c projectRef bucket prefix page)
    (returning (unrefused t0) (fun _ => True)).
Proof.
  intros s s' r Hs Hrun. rewrite observed_objects_run in Hrun.
  injection Hrun as Hr Hs'. subst r s'. apply returning_any; [|auto].
  intros r'. now apply (unrefused_step s _ _ (Done tt)).
Qed.

Lemma unrefused_accepting (name : string) :
  triple (unrefused t0 (Done tt)) (observed_callback (accepting c) name)
    (unrefused t0).
Proof.
  intros s s' r Hs Hrun. injection Hrun as Hr Hs'. subst r s'.
  now apply (unrefused_step s _ _ (Done tt)).
Qed.

Lemma unrefused_listing (PAGE_LIMIT : Z) (fuel : nat)
    (projectRef remotePath : string) :
  triple (unrefused t0 (Done tt))
    (listing (accepting c) PAGE_LIMIT fuel projectRef remotePath)
    (unrefused t0).
Proof.
  unfold listing.
  apply (triple_IterateStoragePaths (unrefused t0) PAGE_LIMIT _ _
           (fun _ => True) (fun _ => True)).
  - intros s H. exact H.
  - apply unrefused_buckets.
  - intros bucket prefix page _ s s' r Hs Hrun.
    pose proof (unrefused_objects projectRef bucket prefix page s s' r Hs Hrun) as H.
    destruct r; simpl in *; try tauto. split; [tauto|].
    apply Forall_forall. auto.
  - auto.
  - intros name _. apply unrefused_accepting.
Qed.

Lemma unrefused_walk (PAGE_LIMIT : Z) (fuel : nat)
    (projectRef remotePath : string) :
  triple (unrefused t0 (Done tt))
    (walk (accepting c) PAGE_LIMIT fuel projectRef remotePath)
    (unrefused t0).
Proof.
  unfold walk.
  apply (triple_IterateStoragePathsAll (unrefused t0) (fun _ => True)
           (fun _ => True) PAGE_LIMIT _ _ _ (fun _ => True)
           (fun s H => H) unrefused_buckets unrefused_objects
           (fun arg _ => unrefused_accepting arg)
           (fun dirPath _ => conj (fun _ _ => I) (conj (fun _ _ => I) (fun _ _ => I)))
           (fun _ => True)); auto.
Qed.

End Unrefused.

Lemma unrefused_start {W : Type} (s : observed W) (r : outcome unit) :
  unrefused (trace s) r s.
Proof. exists []. now rewrite app_nil_r. Qed.

(** X9. Where the errors of [Run] come from.  An address the parser
    rejects ends the command with the parser's error, the state untouched:
    nothing is loaded, listed or printed.  When the project reference
    cannot be loaded the command ends with that error, no call made on the
    storage client and nothing printed.  Otherwise printing never stops the
    command: no line is refused, and an error returned is the error of the
    last call made, a call on the storage client, no call having failed
    before. *)
Theorem Run_error_sources {W : Type} (url_Parse : string -> error + url.URL)
    (load : W -> (error + string) * W) (c : collaborators W) (PAGE_LIMIT : Z)
    (fuel : nat) (objectPath : string) (recursive : bool) (s : observed W) :
  let out := command url_Parse load c PAGE_LIMIT fuel objectPath recursive s in
  match ParseStorageURL url_Parse objectPath with
  | inl err => out = (Failed err, s)
  | inr remotePath =>
      match fst (load (world s)) with
      | inl err => out = (Failed err, loaded load s)
      | inr projectRef =>
          exists t : list event,
            trace (snd out) = (trace s ++ t)%list /\
            refused t = false /\
            halted (fst out) t
      end
  end.
Proof.
  cbv zeta.
  destruct (ParseStorageURL url_Parse objectPath) as [err|remotePath] eqn:Hparse.
  { unfold command, Run. now rewrite Hparse. }
  destruct (fst (load (world s))) as [err|projectRef] eqn:Hload.
  { unfold command, Run. rewrite Hparse. unfold bind, observed_load, loaded.
    destruct (load (world s)) as [r w]. simpl in Hload. now subst r. }
  rewrite (run_accepted _ _ _ _ _ _ _ _ _ _ Hparse Hload).
  set (m := if recursive
            then walk (accepting c) PAGE_LIMIT fuel projectRef remotePath
            else listing (accepting c) PAGE_LIMIT fuel projectRef remotePath).
  assert (Ho : triple (orderly (trace s) (Done tt)) m (orderly (trace s))).
  { subst m. destruct recursive; [apply orderly_walk | apply orderly_listing]. }
  assert (Hu : triple (unrefused (trace s) (Done tt)) m (unrefused (trace s))).
  { subst m. destruct recursive; [apply unrefused_walk | apply unrefused_listing]. }
  destruct (Ho (loaded load s) (snd (m (loaded load s))) (fst (m (loaded load s)))
              (orderly_start (loaded load s)) (surjective_pairing _))
    as (t & Ht & Hh).
  destruct (Hu (loaded load s) (snd (m (loaded load s))) (fst (m (loaded load s)))
              (unrefused_start (loaded load s) _) (surjective_pairing _))
    as (t' & Ht' & Hr).
  simpl in Ht, Ht'. rewrite Ht in Ht'. apply app_inv_head in Ht'. subst t'.
  now exists t.
Qed.

(** X10. [Run] prints what the list functions return.  On an address the
    parser accepts, with the project reference loaded, the lines printed
    are the list that [ListStoragePathsAll] (with [recursive]) or
    [ListStoragePaths] (without) returns from the state the loader left, in
    the same order; both end with the same error or none, leave the same
    world and make the same calls on the storage client. *)
Theorem Run_prints_the_list {W : Type} (url_Parse : string -> error + url.URL)
    (load : W -> (error + string) * W) (c : collaborators W) (PAGE_LIMIT : Z)
    (fuel : nat) (objectPath remotePath projectRef : string)
    (recursive : bool) (s : observed W) :
  ParseStorageURL url_Parse objectPath = inr remotePath ->
  fst (load (world s)) = inr projectRef ->
  let out := command url_Parse load c PAGE_LIMIT fuel objectPath recursive s in
  let got :=
    (if recursive
     then ListStoragePathsAll PAGE_LIMIT (observed_buckets c)
            (observed_objects c) fuel projectRef remotePath
     else ListStoragePaths PAGE_LIMIT (observed_buckets c)
            (observed_objects c) fuel projectRef remotePath) (loaded load s) in
  fst out = snd (fst got) /\
  world (snd out) = world (snd got) /\
  exists t : list event,
    trace (snd out) = (trace s ++ t)%list /\
    trace (snd got) = (trace s ++ backend_calls t)%list /\
    delivered t = fst (fst got).
Proof.
  intros Hparse Hload. cbv zeta.
  rewrite (run_accepted _ _ _ _ _ _ _ _ _ _ Hparse Hload).
  destruct recursive.
  - destruct (ListStoragePathsAll_collects c PAGE_LIMIT fuel projectRef
                remotePath (loaded load s)) as (H1 & H2 & t & H3 & H4 & H5).
    split; [now symmetry|]. split; [now symmetry|]. exists t. auto.
  - destruct (ListStoragePaths_collects c PAGE_LIMIT fuel projectRef
                remotePath (loaded load s)) as (H1 & H2 & t & H3 & H4 & H5).
    split; [now symmetry|]. split; [now symmetry|]. exists t. auto.
Qed.

(** ** The order of the queue *)

Lemma alike_refl {St A : Type} (m : M St A) : alike eq eq m m.
Proof.
  intros s1 s2 <-. split; [|reflexivity]. now destruct (fst (m s1)).
Qed.

Lemma list_snoc_cases {A : Type} (l : list A) :
  l = [] \/ exists (q : list A) (d : A), l = (q ++ [d])%list.
Proof.
  induction l as [|x l IH] using rev_ind; [now left|].
  right. now exists l, x.
Qed.

Section Stack.

Context {St : Type}.
Variable PAGE_LIMIT : Z.
Variable ListStorageBuckets : string -> M St (list client.BucketResponse).
Variable ListStorageObjects :
  string -> string -> string -> Z -> M St (list client.ObjectResponse).
Variable callback : string -> M St unit.

Lemma drain_loop_empty (fuel : nat) (projectRef : string) (s : St)
    (l : walk_locals) :
  dirQueue l = [] ->
  drain_loop PAGE_LIMIT ListStorageBuckets ListStorageObjects fuel projectRef
    callback (s, l) = (Done tt, (s, l)).
Proof.
  intros E. destruct fuel; simpl; unfold bind, get_local; simpl;
    rewrite E; reflexivity.
Qed.

Lemma drain_loop_out_of_fuel (projectRef : string) (s : St) (l : walk_locals)
    (q : list string) (d : string) :
  dirQueue l = (q ++ [d])%list ->
  drain_loop PAGE_LIMIT ListStorageBuckets ListStorageObjects 0 projectRef
    callback (s, l) = (Timeout, (s, l)).
Proof.
  intros E. simpl. unfold bind, get_local. simpl. rewrite E.
  assert (H : (0 <? Z.of_nat (List.length (q ++ [d])%list)) = true).
  { apply Z.ltb_lt. rewrite length_app. simpl. lia. }
  now rewrite H.
Qed.

Lemma drain_loop_turn (fuel : nat) (projectRef : string) (s : St)
    (l : walk_locals) (q : list string) (d : string) :
  dirQueue l = (q ++ [d])%list ->
  drain_loop PAGE_LIMIT ListStorageBuckets ListStorageObjects (S fuel)
    projectRef callback (s, l)
  = bind (drain_dir PAGE_LIMIT ListStorageBuckets ListStorageObjects (S fuel)
            projectRef callback d)
      (fun _ =>
         drain_loop PAGE_LIMIT ListStorageBuckets ListStorageObjects fuel
           projectRef callback)
      (s, set_dirQueue q l).
Proof.
  intros E. simpl drain_loop. unfold bind at 1, get_local at 1. simpl.
  rewrite E.
  assert (H : (0 <? Z.of_nat (List.length (q ++ [d])%list)) = true).
  { apply Z.ltb_lt. rewrite length_app. simpl. lia. }
  rewrite H, last_snoc, removelast_snoc.
  unfold bind at 1, update_local at 1. simpl. reflexivity.
Qed.

(** A turn does not look at the directories below the queue. *)
Lemma drain_dir_beneath (q : list string) (fuel : nat)
    (projectRef dirPath : string) (s : St) (l : walk_locals) :
  let turn := drain_dir PAGE_LIMIT ListStorageBuckets ListStorageObjects fuel
                projectRef callback dirPath in
  turn (s, beneath q l)
  = (fst (turn (s, l)), (fst (snd (turn (s, l))), beneath q (snd (snd (turn (s, l)))))).
Proof.
  cbv zeta.
  destruct (alike_drain_dir eq (fun l1 l2 => l2 = beneath q l1) PAGE_LIMIT
              ListStorageBuckets ListStorageBuckets
              ListStorageObjects ListStorageObjects callback callback
              (fun ref => alike_refl _)
              (fun ref bucket prefix page => alike_refl _)
              (fun name => alike_refl _)) with
    (fuel := fuel) (projectRef := projectRef) (dirPath := dirPath)
    (s1 := (s, l)) (s2 := (s, beneath q l)) as [Ho [Hs Hl]].
  - intros objectPath l1 l2 ->. unfold enqueue, beneath. simpl.
    now rewrite app_assoc.
  - now intros b l1 l2 ->.
  - now intros l1 l2 ->.
  - now split.
  - apply same_outcome_eq in Ho.
    destruct (drain_dir PAGE_LIMIT ListStorageBuckets ListStorageObjects fuel
                projectRef callback dirPath (s, beneath q l)) as [r2 [s2 l2]].
    simpl in *. now subst.
Qed.

(** X11. The queue is a stack.  Let the loop be started with the
    directories [q] below those of [l].  It does what the loop started
    without [q] does, and leaves [q] where it is: when that loop fails or
    runs out of fuel, so does this one, in the same state, [q] still
    below; when that loop returns, having emptied its queue, this one goes
    on with [q], from the state reached.  So a directory waits until the
    directories put on the queue after it, and all those found below them,
    have been drained. *)
Theorem queued_directories_wait (q : list string) (projectRef : string) :
  forall (fuel : nat) (s : St) (l : walk_locals),
    let loop := drain_loop PAGE_LIMIT ListStorageBuckets ListStorageObjects in
    let alone := loop fuel projectRef callback (s, l) in
    match fst alone with
    | Done _ =>
        dirQueue (snd (snd alone)) = [] /\
        exists fuel' : nat,
          (fuel' <= fuel)%nat /\
          loop fuel projectRef callback (s, beneath q l)
          = loop fuel' projectRef callback
              (fst (snd alone), beneath q (snd (snd alone)))
    | Failed e =>
        loop fuel projectRef callback (s, beneath q l)
        = (Failed e, (fst (snd alone), beneath q (snd (snd alone))))
    | Timeout =>
        loop fuel projectRef callback (s, beneath q l)
        = (Timeout, (fst (snd alone), beneath q (snd (snd alone))))
    end.
Proof.
  cbv zeta. induction fuel as [|fuel IH]; intros s l;
    destruct (list_snoc_cases (dirQueue l)) as [E | (q' & d & E)].
  - rewrite (drain_loop_empty 0 projectRef s l E). simpl.
    split; [exact E|]. exists 0%nat. split; [lia | reflexivity].
  - rewrite (drain_loop_out_of_fuel projectRef s l q' d E). simpl.
    apply (drain_loop_out_of_fuel projectRef s (beneath q l) (q ++ q') d).
    simpl. now rewrite E, app_assoc.
  - rewrite (drain_loop_empty (S fuel) projectRef s l E). simpl.
    split; [exact E|]. exists (S fuel). split; [lia | reflexivity].
  - rewrite (drain_loop_turn fuel projectRef s l q' d E).
    rewrite (drain_loop_turn fuel projectRef s (beneath q l) (q ++ q') d)
      by (simpl; now rewrite E, app_assoc).
    change (set_dirQueue (q ++ q') (beneath q l))
      with (beneath q (set_dirQueue q' l)).
    unfold bind. rewrite drain_dir_beneath.
    destruct (drain_dir PAGE_LIMIT ListStorageBuckets ListStorageObjects
                (S fuel) projectRef callback d (s, set_dirQueue q' l))
      as [[[]|e|] [s0 l0]]; simpl fst; simpl snd; cbv iota beta.
    + specialize (IH s0 l0).
      destruct (drain_loop PAGE_LIMIT ListStorageBuckets ListStorageObjects
                  fuel projectRef callback (s0, l0)) as [[[]|e|] [s1 l1]];
        simpl in *; auto.
      destruct IH as [Hq (fuel' & Hle & Heq)]. split; [exact Hq|].
      exists fuel'. split; [lia | exact Heq].
    + reflexivity.
    + reflexivity.
Qed.

End Stack.

(** ** One listing of the walk *)

Lemma folders_of_app (dirPath : string) (a b : list string) :
  folders_of dirPath (a ++ b) = (folders_of dirPath a ++ folders_of dirPath b)%list.
Proof. unfold folders_of. now rewrite filter_app, map_app. Qed.

Lemma leaves_of_app (dirPath : string) (a b : list string) :
  leaves_of dirPath (a ++ b) = (leaves_of dirPath a ++ leaves_of dirPath b)%list.
Proof. unfold leaves_of. now rewrite filter_app, map_app. Qed.

Lemma still_empty_app (flag : bool) (a b : list string) :
  still_empty (still_empty flag a) b = still_empty flag (a ++ b).
Proof. destruct a, b; reflexivity. Qed.

Section Turn.

Context {W : Type}.
Variable c : collaborators W.
Variable PAGE_LIMIT : Z.

Lemma for_range_turn (b dirPath : string) (names : list string) :
  forall (s s' : observed W) (l l' : walk_locals),
    for_range names (drain_callback dirPath (observed_callback c)) (s, l)
      = (Done tt, (s', l')) ->
    exists t : list event,
      trace s' = (trace s ++ t)%list /\
      listed b t = [] /\
      refused t = false /\
      delivered t = leaves_of dirPath names /\
      dirQueue l' = (dirQueue l ++ folders_of dirPath names)%list /\
      empty l' = still_empty (empty l) names.
Proof.
  induction names as [|name names IH]; intros s s' l l' Hrun.
  - inversion Hrun; subst. exists []. rewrite !app_nil_r. now auto.
  - simpl in Hrun. apply bind_run in Hrun.
    destruct Hrun as [([] & [s1 l1] & H1 & H2)|[(e & _ & H)|[_ H]]];
      try discriminate.
    unfold drain_callback in H1. unfold bind at 1, update_local at 1 in H1.
    simpl in H1.
    unfold folders_of, leaves_of, is_folder. simpl filter.
    destruct (strings.HasSuffix name "/") eqn:Hf; simpl negb; cbv iota.
    + inversion H1; subst. clear H1.
      destruct (IH _ _ _ _ H2) as (t & Ht & Hl & Hr & Hd & Hq & He).
      exists t. split; [exact Ht|]. split; [exact Hl|]. split; [exact Hr|].
      split; [exact Hd|]. split.
      * rewrite Hq. simpl. unfold folders_of, is_folder.
        now rewrite <- app_assoc.
      * rewrite He. simpl. now destruct names.
    + rewrite lift_run, observed_callback_run in H1.
      destruct (fst (consumer c (dirPath ++ name) (world s))) as [e|] eqn:Hc;
        [discriminate H1|].
      inversion H1; subst. clear H1.
      destruct (IH _ _ _ _ H2) as (t & Ht & Hl & Hr & Hd & Hq & He).
      exists (CallbackCall (dirPath ++ name) None :: t).
      simpl in Ht. split; [rewrite Ht, <- app_assoc; reflexivity|].
      split; [exact Hl|]. split; [exact Hr|].
      split; [simpl; now rewrite Hd|].
      split; [exact Hq|].
      rewrite He. simpl. now destruct names.
Qed.

Lemma turned_step (b dirPath : string) (s s2 s' : observed W)
    (l l2 l' : walk_locals) (ev : event) (names : list string) (t1 : list event) :
  turned b dirPath s2 l2 s' l' ->
  delivered [ev] = [] -> refused [ev] = false -> answer_names b ev = names ->
  trace s2 = ((trace s ++ [ev]) ++ t1)%list ->
  listed b t1 = [] -> refused t1 = false ->
  delivered t1 = leaves_of dirPath names ->
  dirQueue l2 = (dirQueue l ++ folders_of dirPath names)%list ->
  empty l2 = still_empty (empty l) names ->
  turned b dirPath s l s' l'.
Proof.
  intros (t2 & Ht2 & Hr2 & Hd2 & Hq2 & He2) Hdev Hrev Hnames Hs2 Hl1 Hr1
    Hd1 Hq1 He1.
  exists ([ev] ++ t1 ++ t2)%list.
  split; [rewrite Ht2, Hs2, <- !app_assoc; reflexivity|].
  split; [rewrite !refused_app, Hrev, Hr1, Hr2; reflexivity|].
  assert (El : listed b ([ev] ++ t1 ++ t2) = (names ++ listed b t2)%list).
  { rewrite !listed_app, Hl1. simpl. now rewrite app_nil_r, Hnames. }
  rewrite El, !delivered_app, Hdev, Hd1, Hd2, leaves_of_app, folders_of_app.
  split; [reflexivity|].
  split; [rewrite Hq2, Hq1, <- app_assoc; reflexivity|].
  now rewrite He2, He1, still_empty_app.
Qed.

Lemma page_loop_turn (projectRef bucket prefix b dirPath : string) :
  forall (fuel : nat) (i pages : Z) (s s' : observed W) (l l' : walk_locals),
    page_loop PAGE_LIMIT
      (fun projectRef bucket prefix page =>
         lift (observed_objects c projectRef bucket prefix page))
      fuel projectRef bucket prefix
      (drain_callback dirPath (observed_callback c)) i pages (s, l)
      = (Done tt, (s', l')) ->
    turned b dirPath s l s' l'.
Proof.
  induction fuel as [|fuel IH]; intros i pages s s' l l' Hrun;
    simpl in Hrun; destruct (i <? pages);
    try discriminate;
    try (inversion Hrun; subst; exists []; rewrite !app_nil_r; now auto).
  apply bind_run in Hrun. rewrite lift_run, observed_objects_run in Hrun.
  destruct Hrun as [(objects & [s1 l1] & H1 & H2)|[(e & _ & H)|[_ H]]];
    try discriminate.
  destruct (fst (listObjects c projectRef bucket prefix i (world s)))
    as [e|objects'] eqn:Hanswer; [discriminate H1|].
  simpl in H1. injection H1 as E1 E2 E3. subst objects s1 l1.
  apply bind_run in H2.
  destruct H2 as [([] & [s2 l2] & H2 & H3)|[(e & _ & H)|[_ H]]];
    try discriminate.
  rewrite (for_range_map entry_name
             (drain_callback dirPath (observed_callback c))) in H2.
  destruct (for_range_turn b dirPath _ _ _ _ _ H2)
    as (t1 & Ht1 & Hl1 & Hr1 & Hd1 & Hq1 & He1).
  simpl in Ht1.
  exact (turned_step b dirPath s s2 s' l l2 l'
           (ListObjectsCall projectRef bucket prefix i (inr objects'))
           (map entry_name objects') t1 (IH _ _ _ _ _ _ H3)
           eq_refl eq_refl eq_refl Ht1 Hl1 Hr1 Hd1 Hq1 He1).
Qed.

Lemma listing_turn (fuel : nat) (projectRef remotePath dirPath : string)
    (s s' : observed W) (l l' : walk_locals) :
  IterateStoragePaths_in walk_locals PAGE_LIMIT (observed_buckets c)
    (observed_objects c) fuel projectRef remotePath
    (drain_callback dirPath (observed_callback c)) (s, l)
    = (Done tt, (s', l')) ->
  turned (fst (SplitBucketPrefix remotePath)) dirPath s l s' l'.
Proof.
  unfold IterateStoragePaths_in, IterateStoragePaths.
  destruct (SplitBucketPrefix remotePath) as [bucket prefix]. simpl fst.
  destruct ((strings.len bucket =? 0)
            || ((strings.len prefix =? 0)
                && negb (strings.HasSuffix remotePath "/"))).
  - intros Hrun. apply bind_run in Hrun.
    rewrite lift_run, observed_buckets_run in Hrun.
    destruct Hrun as [(buckets & [s1 l1] & H1 & H2)|[(e & _ & H)|[_ H]]];
      try discriminate.
    destruct (fst (listBuckets c projectRef (world s))) as [e|buckets'] eqn:Hanswer;
      [discriminate H1|].
    simpl in H1. injection H1 as E1 E2 E3. subst buckets s1 l1.
    rewrite (for_range_filter
               (fun b => strings.HasPrefix (client.BucketName b) bucket)
               (fun b => drain_callback dirPath (observed_callback c)
                           (client.BucketName b ++ "/"))) in H2.
    rewrite (for_range_map (fun b => client.BucketName b ++ "/")
               (drain_callback dirPath (observed_callback c))) in H2.
    destruct (for_range_turn bucket dirPath _ _ _ _ _ H2)
      as (t1 & Ht1 & Hl1 & Hr1 & Hd1 & Hq1 & He1).
    simpl in Ht1.
    refine (turned_step bucket dirPath s s' s' l l' l'
              (ListBucketsCall projectRef (inr buckets')) _ t1 _
              eq_refl eq_refl eq_refl Ht1 Hl1 Hr1 Hd1 Hq1 He1).
    exists []. rewrite !app_nil_r. now auto.
  - apply page_loop_turn.
Qed.

(** X12. One turn of the queue, when it ends without error.  Let [names]
    be the names listed in the answers of the storage client during the
    turn on [dirPath].  The consumer has refused nothing; it was given, in
    order, [dirPath + name] for each name that does not end in a slash,
    and then, if no name at all was listed and the prefix component of
    [dirPath] is empty, the report [bucket + "/"]; and [dirPath + name]
    was put on the queue, in order, for each name that ends in a slash. *)
Theorem drain_turn (fuel : nat) (projectRef dirPath : string)
    (s : observed W) (l : walk_locals) :
  let out := drain_dir PAGE_LIMIT (observed_buckets c) (observed_objects c)
               fuel projectRef (observed_callback c) dirPath (s, l) in
  fst out = Done tt ->
  exists t : list event,
    let names := listed (fst (SplitBucketPrefix dirPath)) t in
    trace (fst (snd out)) = (trace s ++ t)%list /\
    refused t = false /\
    delivered t = (leaves_of dirPath names ++ report_of dirPath names)%list /\
    dirQueue (snd (snd out)) = (dirQueue l ++ folders_of dirPath names)%list.
Proof.
  cbv zeta.
  destruct (drain_dir PAGE_LIMIT (observed_buckets c) (observed_objects c)
              fuel projectRef (observed_callback c) dirPath (s, l))
    as [r [s' l']] eqn:Hrun.
  simpl. intros ->. unfold drain_dir in Hrun.
  unfold bind at 1, update_local at 1 in Hrun. simpl in Hrun.
  apply bind_run in Hrun.
  destruct Hrun as [([] & [s1 l1] & H1 & H2)|[(e & _ & H)|[_ H]]];
    try discriminate.
  destruct (listing_turn _ _ _ _ _ _ _ _ H1) as (t & Ht & Hr & Hd & Hq & He).
  simpl in Hq, He. unfold report_of.
  destruct (SplitBucketPrefix dirPath) as [bucket prefix]. simpl fst in *.
  unfold bind at 1, get_local at 1 in H2. simpl in H2. rewrite He in H2.
  destruct (listed bucket t) as [|name names] eqn:Hnames; simpl in H2.
  - destruct (strings.len prefix =? 0).
    + rewrite lift_run, observed_callback_run in H2.
      destruct (fst (consumer c (bucket ++ "/") (world s1))) as [e|] eqn:Hc;
        [discriminate H2|].
      inversion H2; subst. clear H2.
      exists (t ++ [CallbackCall (bucket ++ "/") None])%list.
      rewrite listed_app, Hnames, refused_app, delivered_app, Hr, Hd.
      simpl. rewrite Ht, <- app_assoc. repeat split. exact Hq.
    + inversion H2; subst. exists t. rewrite Hnames, Hd, app_nil_r. auto.
  - inversion H2; subst. exists t. rewrite Hnames, Hd, app_nil_r. auto.
Qed.

(** The callback of the first listing does what the callback of a turn
    does, the flag apart. *)
Lemma seed_callback_alike (basePath objectName : string) :
  alike (with_locals eq (fun l1 l2 => dirQueue l1 = dirQueue l2)) eq
    (seed_callback basePath (observed_callback c) objectName)
    (drain_callback basePath (observed_callback c) objectName).
Proof.
  intros [s1 l1] [s2 l2] [Hs Hl]. simpl in Hs, Hl. subst s2.
  unfold seed_callback, drain_callback, with_locals.
  destruct (strings.HasSuffix objectName "/");
    unfold bind, update_local; simpl.
  - rewrite Hl. auto.
  - rewrite !lift_run. simpl.
    split; [now destruct (fst (observed_callback c (basePath ++ objectName) s1))|].
    now split.
Qed.

(** X13. The first listing of a walk, when it ends without error.  Let
    [names] be the names listed in the answers of the storage client.  The
    consumer has refused nothing; it was given, in order, base path plus
    name for each name that does not end in a slash, and nothing else; and
    base path plus name was put on the queue, in order, for each name that
    ends in a slash. *)
Theorem first_listing_turn (fuel : nat) (projectRef remotePath : string)
    (s : observed W) (l : walk_locals) :
  let out := IterateStoragePaths_in walk_locals PAGE_LIMIT (observed_buckets c)
               (observed_objects c) fuel projectRef remotePath
               (seed_callback (base_path remotePath) (observed_callback c))
               (s, l) in
  fst out = Done tt ->
  exists t : list event,
    let names := listed (fst (SplitBucketPrefix remotePath)) t in
    trace (fst (snd out)) = (trace s ++ t)%list /\
    refused t = false /\
    delivered t = leaves_of (base_path remotePath) names /\
    dirQueue (snd (snd out))
      = (dirQueue l ++ folders_of (base_path remotePath) names)%list.
Proof.
  cbv zeta. intros Hdone.
  destruct (alike_listing_in eq (fun l1 l2 => dirQueue l1 = dirQueue l2)
              PAGE_LIMIT (observed_buckets c) (observed_buckets c)
              (observed_objects c) (observed_objects c)
              (fun ref => alike_refl _)
              (fun ref bucket prefix page => alike_refl _)
              fuel projectRef remotePath
              (seed_callback (base_path remotePath) (observed_callback c))
              (drain_callback (base_path remotePath) (observed_callback c))
              (seed_callback_alike (base_path remotePath))
              (s, l) (s, l)) as [Ho [Hs Hl]]; [now split|].
  rewrite Hdone in Ho.
  destruct (IterateStoragePaths_in walk_locals PAGE_LIMIT (observed_buckets c)
              (observed_objects c) fuel projectRef remotePath
              (drain_callback (base_path remotePath) (observed_callback c))
              (s, l)) as [r2 [s2 l2]] eqn:Hrun.
  simpl in Ho, Hs, Hl. destruct r2 as [[]|e|]; try contradiction.
  destruct (listing_turn _ _ _ _ _ _ _ _ Hrun) as (t & Ht & Hr & Hd & Hq & _).
  exists t. rewrite Hs, Hl. auto.
Qed.

End Turn.

(** ** The base path *)

(** [LastIndexByte] finds the last occurrence. *)
Lemma last_occurrence (s : string) (c : ascii) :
  (strings.LastIndexByte s c = -1 /\ ~ In c (list_ascii_of_string s)) \/
  exists a b : string,
    s = a ++ String c b /\ ~ In c (list_ascii_of_string b) /\
    strings.LastIndexByte s c = strings.len a.
Proof.
  induction s as [|x s IH]; [left; simpl; tauto|].
  cbn [strings.LastIndexByte]. cbv zeta.
  destruct IH as [[Hi Hno] | (a & b & -> & Hb & Hi)]; rewrite Hi.
  - simpl (0 <=? -1). cbv iota.
    destruct (Ascii.eqb_spec x c) as [->|Hne].
    + right. exists "", s. repeat split. exact Hno.
    + left. split; [reflexivity|]. simpl. intros [E|E]; [contradiction | now apply Hno].
  - pose proof (len_nonneg a) as Hlen.
    destruct (Z.leb_spec 0 (strings.len a)); [|lia].
    right. exists (String x a), b. repeat split; [exact Hb|].
    rewrite len_String. lia.
Qed.

(** X14. The base path of a walk is the directory of the start path: the
    start path is the base path followed by a name without a slash; the
    base path is empty or ends in a slash; and a start path that ends in a
    slash is its own base path. *)
Theorem base_path_is_directory (remotePath : string) :
  exists file : string,
    remotePath = base_path remotePath ++ file /\
    no_slash file /\
    (base_path remotePath = "" \/
     strings.HasSuffix (base_path remotePath) "/" = true) /\
    (strings.HasSuffix remotePath "/" = true -> file = "").
Proof.
  unfold base_path. destruct (strings.HasSuffix remotePath "/") eqn:E.
  - exists "". rewrite append_nil_r. repeat split; auto. intros [].
  - unfold path.Split. cbn [fst].
    destruct (last_occurrence remotePath "/") as [[Hi Hno] | (a & b & -> & Hb & Hi)];
      rewrite Hi.
    + exists remotePath. unfold strings.slice. simpl Z.to_nat.
      rewrite substring_zero. repeat split; auto. discriminate.
    + exists b.
      assert (Hdir : strings.slice (a ++ String "/" b) 0 (strings.len a + 1)
                     = a ++ "/").
      { replace (a ++ String "/" b) with ((a ++ "/") ++ b)
          by (now rewrite append_assoc).
        replace (strings.len a + 1) with (strings.len (a ++ "/"))
          by (rewrite len_append; reflexivity).
        apply slice_prefix. }
      rewrite Hdir. split; [now rewrite append_assoc|].
      split; [exact Hb|]. split; [|discriminate].
      right. apply HasSuffix_slash. now exists a.
Qed.

(** ** The further properties on examples *)

(** Examples for the properties above. *)

Lemma no_slash_docs : no_slash "docs".
Proof.
  intros H. simpl in H.
  repeat (destruct H as [H|H]; [discriminate H|]). exact H.
Qed.

(** X2 on [bucket/dir/x]. *)
Lemma SplitBucketPrefix_slash_optional_witness :
  SplitBucketPrefix "/bucket/dir/x" = SplitBucketPrefix "bucket/dir/x".
Proof. exact (SplitBucketPrefix_slash_optional "bucket/dir/x" eq_refl). Defined.

Lemma names_bucket_docs : names_bucket "/docs/" "docs" "".
Proof.
  split; [reflexivity|]. split; [discriminate | exact no_slash_docs].
Defined.

(** X3 on a bucket of three objects, two entries a page. *)
Lemma pages_fetched_in_order_witness :
  let c := serve 2 [("docs", [("", [file "a"; file "b"; file "c"])])] in
  exists (t : list event) (answers : list (error + list client.ObjectResponse)),
    trace (snd (listing c 2 5 "ref" "/docs/" start)) = (trace start ++ t)%list /\
    backend_calls t = page_calls "ref" "docs" "" 0 answers /\
    forallb (is_full 2) (removelast answers) = true /\
    (List.length answers <= 5)%nat /\
    (fst (listing c 2 5 "ref" "/docs/" start) = Done tt ->
     exists (init : list (error + list client.ObjectResponse))
            (objects : list client.ObjectResponse),
       answers = (init ++ [inr objects])%list /\
       Z.of_nat (List.length objects) <> 2).
Proof.
  exact (pages_fetched_in_order
           (serve 2 [("docs", [("", [file "a"; file "b"; file "c"])])])
           2 5 "ref" "/docs/" "docs" "" start names_bucket_docs).
Defined.

(** X5 on the storage client whose pages are all full, with fuel for
    seven pages. *)
Lemma full_pages_never_end_witness :
  exists t : list event,
    fst (listing endless 1 7 "ref" "/docs/" start) = Timeout /\
    trace (snd (listing endless 1 7 "ref" "/docs/" start))
      = (trace start ++ t)%list /\
    List.length (backend_calls t) = 7%nat.
Proof.
  exact (full_pages_never_end endless 1 7 "ref" "/docs/" "docs" "" start
           names_bucket_docs (fun _ _ => eq_refl) (fun _ _ => eq_refl)).
Defined.

(** X10 on the address [ss:///bucket/dir/file.txt], walked. *)
Lemma Run_prints_the_list_witness :
  let c := serve 100 [("bucket", [("dir/file.txt", [file "file.txt"])])] in
  let load := fun w : unit => (inr "ref" : error + string, w) in
  let out := command url_Parse_sampled load c 100 5
               "ss:///bucket/dir/file.txt" true start in
  let got := ListStoragePathsAll 100 (observed_buckets c) (observed_objects c)
               5 "ref" "/bucket/dir/file.txt" (loaded load start) in
  fst out = snd (fst got) /\
  world (snd out) = world (snd got) /\
  exists t : list event,
    trace (snd out) = (trace start ++ t)%list /\
    trace (snd got) = (trace start ++ backend_calls t)%list /\
    delivered t = fst (fst got).
Proof.
  exact (Run_prints_the_list url_Parse_sampled
           (fun w : unit => (inr "ref" : error + string, w))
           (serve 100 [("bucket", [("dir/file.txt", [file "file.txt"])])])
           100 5 "ss:///bucket/dir/file.txt" "/bucket/dir/file.txt" "ref" true
           start eq_refl eq_refl).
Defined.

(** X12 on the empty bucket [b]. *)
Lemma drain_turn_witness :
  let c := serve 100 empty_bucket in
  let out := drain_dir 100 (observed_buckets c) (observed_objects c) 1 "ref"
               (observed_callback c) "/b/"
               (start, {| dirQueue := []; empty := false |}) in
  exists t : list event,
    let names := listed (fst (SplitBucketPrefix "/b/")) t in
    trace (fst (snd out)) = (trace start ++ t)%list /\
    refused t = false /\
    delivered t = (leaves_of "/b/" names ++ report_of "/b/" names)%list /\
    dirQueue (snd (snd out)) = ([] ++ folders_of "/b/" names)%list.
Proof.
  exact (drain_turn (serve 100 empty_bucket) 100 1 "ref" "/b/" start
           {| dirQueue := []; empty := false |} eq_refl).
Defined.

(** X13 on the bucket [a] of the example. *)
Lemma first_listing_turn_witness :
  let c := serve 100 nested_bucket in
  let out := IterateStoragePaths_in walk_locals 100 (observed_buckets c)
               (observed_objects c) 1 "ref" "/a/"
               (seed_callback (base_path "/a/") (observed_callback c))
               (start, {| dirQueue := []; empty := true |}) in
  exists t : list event,
    let names := listed (fst (SplitBucketPrefix "/a/")) t in
    trace (fst (snd out)) = (trace start ++ t)%list /\
    refused t = false /\
    delivered t = leaves_of (base_path "/a/") names /\
    dirQueue (snd (snd out)) = ([] ++ folders_of (base_path "/a/") names)%list.
Proof.
  exact (first_listing_turn (serve 100 nested_bucket) 100 1 "ref" "/a/" start
           {| dirQueue := []; empty := true |} eq_refl).
Defined.

(** * The walk as a whole *)

(** ** The trace of one listing *)

Lemma listed_backend_calls (b : string) (t : list event) :
  listed b (backend_calls t) = listed b t.
Proof.
  induction t as [|ev t IH]; [reflexivity|].
  destruct ev as [ref r|ref bucket prefix page r|arg r]; simpl.
  - change (listed b (ListBucketsCall ref r :: backend_calls t))
      with (answer_names b (ListBucketsCall ref r) ++ listed b (backend_calls t))%list.
    change (listed b (ListBucketsCall ref r :: t))
      with (answer_names b (ListBucketsCall ref r) ++ listed b t)%list.
    now rewrite IH.
  - change (listed b (ListObjectsCall ref bucket prefix page r :: backend_calls t))
      with (answer_names b (ListObjectsCall ref bucket prefix page r)
            ++ listed b (backend_calls t))%list.
    change (listed b (ListObjectsCall ref bucket prefix page r :: t))
      with (answer_names b (ListObjectsCall ref bucket prefix page r)
            ++ listed b t)%list.
    now rewrite IH.
  - exact IH.
Qed.

Lemma listed_no_calls (b : string) (t : list event) :
  backend_calls t = [] -> listed b t = [].
Proof. intros H. now rewrite <- listed_backend_calls, H. Qed.

Lemma listing_calls_cut (PAGE_LIMIT : Z) (projectRef path : string)
    (complete : bool) (calls : list event) :
  listing_calls PAGE_LIMIT projectRef path complete calls ->
  listing_calls PAGE_LIMIT projectRef path false calls.
Proof.
  unfold listing_calls. destruct (lists_buckets path).
  - intros (r & H & _). exists r. split; [exact H | discriminate].
  - intros (answers & H1 & H2 & _). exists answers.
    split; [exact H1|]. split; [exact H2 | discriminate].
Qed.

Section ListingTrace.

Context {W : Type}.
Variable c : collaborators W.
Variable PAGE_LIMIT : Z.

(** The callback of a turn, on one name. *)
Lemma drain_callback_run (dirPath name : string) (s : observed W)
    (l : walk_locals) :
  drain_callback dirPath (observed_callback c) name (s, l)
  = if is_folder name
    then (Done tt, (s, enqueue (dirPath ++ name) (set_empty false l)))
    else (of_error (fst (consumer c (dirPath ++ name) (world s))),
          ({| world := snd (consumer c (dirPath ++ name) (world s));
              trace := (trace s
                        ++ [CallbackCall (dirPath ++ name)
                              (fst (consumer c (dirPath ++ name) (world s)))])%list |},
           set_empty false l)).
Proof.
  unfold drain_callback, is_folder. unfold bind, update_local. simpl.
  destruct (strings.HasSuffix name "/"); [reflexivity|].
  rewrite lift_run, observed_callback_run. reflexivity.
Qed.

(** The names of an answer, handed to the callback of a turn, whatever the
    consumer does. *)
Lemma for_range_part (dirPath : string) (names : list string) :
  forall (s s' : observed W) (l l' : walk_locals) (r : outcome unit),
    for_range names (drain_callback dirPath (observed_callback c)) (s, l)
      = (r, (s', l')) ->
    exists (t : list event) (rest : list string),
      trace s' = (trace s ++ t)%list /\
      backend_calls t = [] /\
      leaves_of dirPath names = (delivered t ++ rest)%list /\
      r <> Timeout /\
      (r = Done tt -> rest = [] /\ refused t = false).
Proof.
  induction names as [|name names IH]; intros s s' l l' r Hrun.
  - inversion Hrun; subst. exists [], []. rewrite app_nil_r.
    repeat split; auto. discriminate.
  - simpl in Hrun. unfold bind in Hrun at 1. rewrite drain_callback_run in Hrun.
    unfold leaves_of. simpl filter.
    destruct (is_folder name) eqn:Hf; simpl negb; cbv iota.
    + exact (IH _ _ _ _ _ Hrun).
    + destruct (fst (consumer c (dirPath ++ name) (world s))) as [e|] eqn:Hc;
        simpl in Hrun.
      * injection Hrun as <- <- <-.
        exists [CallbackCall (dirPath ++ name) (Some e)],
               (map (append dirPath)
                  (filter (fun name => negb (is_folder name)) names)).
        repeat split; try discriminate.
      * destruct (IH _ _ _ _ _ Hrun) as (t & rest & Ht & Hb & Hl & Hnt & Hd).
        simpl in Ht.
        exists (CallbackCall (dirPath ++ name) None :: t), rest.
        split; [rewrite Ht, <- app_assoc; reflexivity|].
        split; [exact Hb|].
        split; [simpl; unfold leaves_of in Hl; now rewrite Hl|].
        split; [exact Hnt|]. exact Hd.
Qed.

(** The page loop of a listing in a walk, whatever the storage client and
    the consumer do. *)
Lemma page_loop_part (projectRef bucket prefix b dirPath : string) :
  forall (fuel : nat) (i : Z) (s s' : observed W) (l l' : walk_locals)
         (r : outcome unit),
    page_loop PAGE_LIMIT
      (fun projectRef bucket prefix page =>
         lift (observed_objects c projectRef bucket prefix page))
      fuel projectRef bucket prefix
      (drain_callback dirPath (observed_callback c)) i (i + 1) (s, l)
      = (r, (s', l')) ->
    exists (t : list event) (answers : list (error + list client.ObjectResponse))
           (rest : list string),
      trace s' = (trace s ++ t)%list /\
      backend_calls t = page_calls projectRef bucket prefix i answers /\
      forallb (is_full PAGE_LIMIT) (removelast answers) = true /\
      leaves_of dirPath (listed b t) = (delivered t ++ rest)%list /\
      (r = Done tt ->
       rest = [] /\ refused t = false /\
       exists (init : list (error + list client.ObjectResponse))
              (objects : list client.ObjectResponse),
         answers = (init ++ [inr objects])%list /\
         Z.of_nat (List.length objects) <> PAGE_LIMIT).
Proof.
  induction fuel as [|fuel IH]; intros i s s' l l' r Hrun; simpl in Hrun;
    (destruct (Z.ltb_spec i (i + 1)) as [_|]; [|lia]).
  - inversion Hrun; subst. exists [], [], []. rewrite app_nil_r.
    repeat split; auto; discriminate.
  - apply bind_run in Hrun. rewrite lift_run, observed_objects_run in Hrun.
    destruct (fst (listObjects c projectRef bucket prefix i (world s)))
      as [e|objects] eqn:Hanswer; simpl in Hrun.
    + destruct Hrun as [(a & s1 & H & _)|[(e' & H & ->)|[H _]]];
        try discriminate.
      injection H as <- <- <-.
      exists [ListObjectsCall projectRef bucket prefix i (inl e)], [inl e], [].
      repeat split; auto; discriminate.
    + destruct Hrun as [(a & [s1 l1] & H & Hk)|[(e' & H & _)|[H _]]];
        try discriminate.
      injection H as <- <- <-.
      apply bind_run in Hk.
      rewrite (for_range_map entry_name
                 (drain_callback dirPath (observed_callback c))) in Hk.
      set (call := ListObjectsCall projectRef bucket prefix i (inr objects)).
      assert (Hcall : forall t : list event,
                 listed b (call :: t) = (map entry_name objects ++ listed b t)%list /\
                 delivered (call :: t) = delivered t /\
                 refused (call :: t) = refused t /\
                 backend_calls (call :: t) = call :: backend_calls t).
      { intros t. repeat split. }
      destruct Hk as [([] & [s2 l2] & H1 & H2)|[(e' & H1 & ->)|[H1 ->]]];
        destruct (for_range_part dirPath _ _ _ _ _ _ H1)
          as (t1 & rest1 & Ht1 & Hb1 & Hl1 & Hnt & Hd1);
        simpl in Ht1.
      * destruct (Hd1 eq_refl) as [-> Hr1]. rewrite app_nil_r in Hl1.
        destruct (Z.eqb_spec (Z.of_nat (List.length objects)) PAGE_LIMIT)
          as [Hfull|Hshort].
        -- destruct (IH _ _ _ _ _ _ H2)
             as (t2 & answers & rest2 & Ht2 & Hb2 & Hf & Hl2 & Hd2).
           exists (call :: t1 ++ t2)%list, (inr objects :: answers), rest2.
           destruct (Hcall (t1 ++ t2)%list) as (E1 & E2 & E3 & E4).
           split; [rewrite Ht2, Ht1, <- !app_assoc; reflexivity|].
           split; [rewrite E4, backend_calls_app, Hb1, Hb2; reflexivity|].
           split.
           { apply removelast_cons_full; [|exact Hf].
             simpl. now apply Z.eqb_eq. }
           split.
           { rewrite E1, E2, listed_app, delivered_app,
               (listed_no_calls b t1 Hb1), app_nil_l, leaves_of_app, Hl1, Hl2.
             now rewrite <- app_assoc. }
           intros Hr. destruct (Hd2 Hr) as (-> & Hr2 & init & last & -> & Hlast).
           split; [reflexivity|].
           split; [rewrite E3, refused_app, Hr1, Hr2; reflexivity|].
           exists (inr objects :: init), last. split; [reflexivity | exact Hlast].
        -- rewrite page_loop_exit in H2 by lia. injection H2 as <- <- <-.
           exists (call :: t1), [inr objects], [].
           destruct (Hcall t1) as (E1 & E2 & E3 & E4).
           split; [rewrite Ht1, <- app_assoc; reflexivity|].
           split; [rewrite E4, Hb1; reflexivity|].
           split; [reflexivity|].
           split.
           { rewrite E1, E2, (listed_no_calls b t1 Hb1), !app_nil_r. exact Hl1. }
           intros _. split; [reflexivity|]. split; [now rewrite E3|].
           exists [], objects. split; [reflexivity | exact Hshort].
      * exists (call :: t1), [inr objects], rest1.
        destruct (Hcall t1) as (E1 & E2 & E3 & E4).
        split; [rewrite Ht1, <- app_assoc; reflexivity|].
        split; [rewrite E4, Hb1; reflexivity|].
        split; [reflexivity|].
        split; [|discriminate].
        rewrite E1, E2, (listed_no_calls b t1 Hb1), app_nil_r. exact Hl1.
      * now elim Hnt.
Qed.

(** A listing in a walk, whatever the storage client and the consumer
    do. *)
Lemma listing_in_part (fuel : nat) (projectRef remotePath dirPath : string)
    (s s' : observed W) (l l' : walk_locals) (r : outcome unit) :
  IterateStoragePaths_in walk_locals PAGE_LIMIT (observed_buckets c)
    (observed_objects c) fuel projectRef remotePath
    (drain_callback dirPath (observed_callback c)) (s, l)
    = (r, (s', l')) ->
  exists t : list event,
    trace s' = (trace s ++ t)%list /\
    listing_trace PAGE_LIMIT projectRef remotePath (leaves_of dirPath)
      (is_done r) t.
Proof.
  unfold IterateStoragePaths_in, IterateStoragePaths, listing_trace,
    listing_calls, lists_buckets.
  destruct (SplitBucketPrefix remotePath) as [bucket prefix]. simpl fst. simpl snd.
  destruct ((strings.len bucket =? 0)
            || ((strings.len prefix =? 0)
                && negb (strings.HasSuffix remotePath "/"))).
  - intros Hrun. apply bind_run in Hrun.
    rewrite lift_run, observed_buckets_run in Hrun.
    destruct (fst (listBuckets c projectRef (world s))) as [e|buckets] eqn:Hanswer;
      simpl in Hrun.
    + destruct Hrun as [(a & s1 & H & _)|[(e' & H & ->)|[H _]]];
        try discriminate.
      injection H as <- <- <-.
      exists [ListBucketsCall projectRef (inl e)]. split; [reflexivity|].
      split.
      * exists (inl e). split; [reflexivity | discriminate].
      * exists []. split; [reflexivity | discriminate].
    + destruct Hrun as [(a & [s1 l1] & H & Hk)|[(e' & H & _)|[H _]]];
        try discriminate.
      injection H as <- <- <-.
      rewrite (for_range_filter
                 (fun b => strings.HasPrefix (client.BucketName b) bucket)
                 (fun b => drain_callback dirPath (observed_callback c)
                             (client.BucketName b ++ "/"))) in Hk.
      rewrite (for_range_map (fun b => client.BucketName b ++ "/")
                 (drain_callback dirPath (observed_callback c))) in Hk.
      destruct (for_range_part dirPath _ _ _ _ _ _ Hk)
        as (t1 & rest1 & Ht1 & Hb1 & Hl1 & Hnt & Hd1).
      simpl in Ht1.
      exists (ListBucketsCall projectRef (inr buckets) :: t1).
      split; [rewrite Ht1, <- app_assoc; reflexivity|].
      split.
      * exists (inr buckets). simpl. rewrite Hb1.
        split; [reflexivity|]. intros _. now exists buckets.
      * exists rest1.
        change (listed bucket (ListBucketsCall projectRef (inr buckets) :: t1))
          with (map (fun b => (client.BucketName b ++ "/")%string)
                  (filter (fun b => strings.HasPrefix (client.BucketName b) bucket)
                     buckets)
                ++ listed bucket t1)%list.
        rewrite (listed_no_calls bucket t1 Hb1), app_nil_r.
        split; [exact Hl1|].
        intros Hr. destruct r as [[]|e|]; try discriminate Hr.
        exact (Hd1 eq_refl).
  - intros Hrun.
    destruct (page_loop_part projectRef bucket prefix bucket dirPath
                fuel 0 s s' l l' r Hrun)
      as (t & answers & rest & Ht & Hb & Hf & Hl & Hd).
    exists t. split; [exact Ht|]. split.
    + exists answers. split; [exact Hb|]. split; [exact Hf|].
      intros Hr. destruct r as [[]|e|]; try discriminate Hr.
      exact (proj2 (proj2 (Hd eq_refl))).
    + exists rest. split; [exact Hl|].
      intros Hr. destruct r as [[]|e|]; try discriminate Hr.
      destruct (Hd eq_refl) as (H1 & H2 & _). now split.
Qed.

End ListingTrace.

Lemma listing_trace_cut (PAGE_LIMIT : Z) (projectRef path : string)
    (expected expected' : list string -> list string) (extra : list string)
    (t : list event) :
  (forall names : list string, expected' names = (expected names ++ extra)%list) ->
  listing_trace PAGE_LIMIT projectRef path expected false t ->
  listing_trace PAGE_LIMIT projectRef path expected' false t.
Proof.
  intros He [Hc (rest & Hl & _)]. split; [exact Hc|].
  exists (rest ++ extra)%list. split; [|discriminate].
  now rewrite He, Hl, app_assoc.
Qed.

Lemma Forall_folders_of (good : string -> Prop) (dirPath : string)
    (names : list string) :
  (forall name : string, is_folder name = true -> good (dirPath ++ name)) ->
  Forall good (folders_of dirPath names).
Proof.
  intros H. unfold folders_of. apply Forall_forall. intros p Hp.
  apply in_map_iff in Hp. destruct Hp as (name & <- & Hin).
  apply filter_In in Hin. now apply H.
Qed.

Section TurnTrace.

Context {W : Type}.
Variable c : collaborators W.
Variable PAGE_LIMIT : Z.

(** The first listing of a walk, whatever the storage client and the
    consumer do. *)
Lemma seed_listing_part (fuel : nat) (projectRef remotePath basePath : string)
    (s s' : observed W) (l l' : walk_locals) (r : outcome unit) :
  IterateStoragePaths_in walk_locals PAGE_LIMIT (observed_buckets c)
    (observed_objects c) fuel projectRef remotePath
    (seed_callback basePath (observed_callback c)) (s, l)
    = (r, (s', l')) ->
  exists t : list event,
    trace s' = (trace s ++ t)%list /\
    listing_trace PAGE_LIMIT projectRef remotePath (leaves_of basePath)
      (is_done r) t /\
    (r = Done tt ->
     dirQueue l'
     = (dirQueue l
        ++ folders_of basePath (listed (fst (SplitBucketPrefix remotePath)) t))%list).
Proof.
  intros Hseed.
  destruct (alike_listing_in eq (fun l1 l2 => dirQueue l1 = dirQueue l2)
              PAGE_LIMIT (observed_buckets c) (observed_buckets c)
              (observed_objects c) (observed_objects c)
              (fun ref => alike_refl _)
              (fun ref bucket prefix page => alike_refl _)
              fuel projectRef remotePath
              (seed_callback basePath (observed_callback c))
              (drain_callback basePath (observed_callback c))
              (seed_callback_alike c basePath)
              (s, l) (s, l)) as [Ho [Hs Hl]]; [now split|].
  rewrite Hseed in Ho, Hs, Hl.
  destruct (IterateStoragePaths_in walk_locals PAGE_LIMIT (observed_buckets c)
              (observed_objects c) fuel projectRef remotePath
              (drain_callback basePath (observed_callback c))
              (s, l)) as [r2 [s2 l2]] eqn:Hrun.
  simpl in Ho, Hs, Hl. apply same_outcome_eq in Ho. subst r2 s2.
  destruct (listing_in_part c PAGE_LIMIT _ _ _ _ _ _ _ _ _ Hrun) as (t & Ht & Hlt).
  exists t. split; [exact Ht|]. split; [exact Hlt|].
  intros ->.
  destruct (listing_turn c PAGE_LIMIT _ _ _ _ _ _ _ _ Hrun)
    as (t' & Ht' & _ & _ & Hq & _).
  rewrite Ht in Ht'. apply app_inv_head in Ht'. subst t'.
  now rewrite Hl.
Qed.

(** One turn of the queue, whatever the storage client and the consumer
    do. *)
Lemma drain_dir_part (fuel : nat) (projectRef dirPath : string)
    (s s' : observed W) (l l' : walk_locals) (r : outcome unit) :
  drain_dir PAGE_LIMIT (observed_buckets c) (observed_objects c) fuel
    projectRef (observed_callback c) dirPath (s, l) = (r, (s', l')) ->
  exists t : list event,
    trace s' = (trace s ++ t)%list /\
    listing_trace PAGE_LIMIT projectRef dirPath (turn_deliveries dirPath)
      (is_done r) t /\
    (r = Done tt ->
     dirQueue l'
     = (dirQueue l
        ++ folders_of dirPath (listed (fst (SplitBucketPrefix dirPath)) t))%list).
Proof.
  intros Hrun. unfold drain_dir in Hrun.
  unfold bind at 1, update_local at 1 in Hrun. simpl in Hrun.
  apply bind_run in Hrun.
  destruct Hrun as [([] & [s1 l1] & H1 & H2)|[(e & H1 & ->)|[H1 ->]]].
  - destruct (listing_in_part c PAGE_LIMIT _ _ _ _ _ _ _ _ _ H1)
      as (t & Ht & [Hc (rest & Hl & Hd)]).
    destruct (Hd eq_refl) as [-> Hr]. rewrite app_nil_r in Hl.
    destruct (listing_turn c PAGE_LIMIT _ _ _ _ _ _ _ _ H1)
      as (t' & Ht' & _ & _ & Hq & He).
    rewrite Ht in Ht'. apply app_inv_head in Ht'. subst t'.
    simpl in Hq, He.
    unfold listing_trace, turn_deliveries, report_of.
    destruct (SplitBucketPrefix dirPath) as [bucket prefix] eqn:Hsplit.
    simpl fst in *.
    unfold bind at 1, get_local at 1 in H2. simpl in H2. rewrite He in H2.
    destruct (listed bucket t) as [|name names] eqn:Hnames; simpl in H2.
    + destruct (strings.len prefix =? 0) eqn:Hp.
      * rewrite lift_run, observed_callback_run in H2.
        injection H2 as <- <- <-.
        exists (t ++ [CallbackCall (bucket ++ "/")
                        (fst (consumer c (bucket ++ "/") (world s1)))])%list.
        split; [simpl; rewrite Ht, <- app_assoc; reflexivity|].
        rewrite backend_calls_app, listed_app, delivered_app, refused_app,
          Hnames, Hr.
        simpl. rewrite app_nil_r. rewrite <- Hl.
        split; [|intros _; exact Hq].
        split.
        -- destruct (fst (consumer c (bucket ++ "/") (world s1)));
             [now apply (listing_calls_cut _ _ _ true) | exact Hc].
        -- exists []. split; [reflexivity|].
           destruct (fst (consumer c (bucket ++ "/") (world s1)));
             [discriminate | now split].
      * injection H2 as <- <- <-. exists t.
        rewrite Hnames. simpl. rewrite app_nil_r in *.
        repeat split; auto. exists []. rewrite app_nil_r. now split.
    + injection H2 as <- <- <-. exists t.
      rewrite Hnames. rewrite app_nil_r.
      repeat split; auto. exists []. rewrite app_nil_r. split; [exact Hl|].
      now split.
  - destruct (listing_in_part c PAGE_LIMIT _ _ _ _ _ _ _ _ _ H1) as (t & Ht & Hlt).
    destruct s' as [s1 l1]. simpl in Ht.
    exists t. split; [exact Ht|]. split; [|discriminate].
    refine (listing_trace_cut _ _ _ _ _ _ t (fun names => eq_refl) Hlt).
  - destruct (listing_in_part c PAGE_LIMIT _ _ _ _ _ _ _ _ _ H1) as (t & Ht & Hlt).
    destruct s' as [s1 l1]. simpl in Ht.
    exists t. split; [exact Ht|]. split; [|discriminate].
    refine (listing_trace_cut _ _ _ _ _ _ t (fun names => eq_refl) Hlt).
Qed.

End TurnTrace.

(** ** The trace of the loop on the queue *)





Section QueueTrace.

Context {W : Type}.
Variable c : collaborators W.
Variable PAGE_LIMIT : Z.
Variable good : string -> Prop.
Hypothesis good_folder :
  forall dirPath name : string,
    good dirPath -> is_folder name = true -> good (dirPath ++ name).

(** The loop over the queue, whatever the storage client and the consumer
    do: turn after turn, each on the directory at the end of the queue. *)
Lemma drain_loop_drains (projectRef : string) (fuel : nat) :
  forall (s s' : observed W) (l l' : walk_locals) (r : outcome unit),
    Forall good (dirQueue l) ->
    drain_loop PAGE_LIMIT (observed_buckets c) (observed_objects c) fuel
      projectRef (observed_callback c) (s, l) = (r, (s', l')) ->
    exists t : list event,
      trace s' = (trace s ++ t)%list /\
      drains good PAGE_LIMIT projectRef (dirQueue l) (is_done r) t.
Proof.
  induction fuel as [|fuel IH]; intros s s' l l' r Hq Hrun.
  - destruct (list_snoc_cases (dirQueue l)) as [E|(q & d & E)].
    + rewrite (drain_loop_empty _ _ _ _ _ _ _ _ E) in Hrun.
      injection Hrun as <- <- <-. exists []. rewrite app_nil_r, E.
      split; [reflexivity | constructor].
    + rewrite (drain_loop_out_of_fuel _ _ _ _ _ _ _ _ _ E) in Hrun.
      injection Hrun as <- <- <-. exists []. rewrite app_nil_r.
      split; [reflexivity | constructor].
  - destruct (list_snoc_cases (dirQueue l)) as [E|(q & d & E)].
    + rewrite (drain_loop_empty _ _ _ _ _ _ _ _ E) in Hrun.
      injection Hrun as <- <- <-. exists []. rewrite app_nil_r, E.
      split; [reflexivity | constructor].
    + rewrite (drain_loop_turn _ _ _ _ _ _ _ _ _ _ E) in Hrun.
      rewrite E in Hq |- *.
      apply Forall_app in Hq. destruct Hq as [Hq Hd].
      apply Forall_inv in Hd.
      apply bind_run in Hrun.
      destruct Hrun as [([] & [s1 l1] & H1 & H2)|[(e & H1 & ->)|[H1 ->]]].
      * destruct (drain_dir_part c PAGE_LIMIT _ _ _ _ _ _ _ _ H1)
          as (t1 & Ht1 & Hl1 & Hq1).
        specialize (Hq1 eq_refl). simpl in Hq1, Hl1.
        assert (Hq' : Forall good (dirQueue l1)).
        { rewrite Hq1. apply Forall_app. split; [exact Hq|].
          apply Forall_folders_of. intros name. now apply good_folder. }
        destruct (IH _ _ _ _ _ Hq' H2) as (t2 & Ht2 & Hd2).
        exists (t1 ++ t2)%list.
        split; [now rewrite Ht2, Ht1, app_assoc|].
        rewrite Hq1 in Hd2. now apply drains_turn.
      * destruct (drain_dir_part c PAGE_LIMIT _ _ _ _ _ _ _ _ H1)
          as (t1 & Ht1 & Hl1 & _).
        exists t1. split; [exact Ht1|]. now apply drains_stopped.
      * destruct (drain_dir_part c PAGE_LIMIT _ _ _ _ _ _ _ _ H1)
          as (t1 & Ht1 & Hl1 & _).
        exists t1. split; [exact Ht1|]. now apply drains_stopped.
Qed.

(** The whole walk: the first listing, then the queue. *)
Lemma walk_walks (fuel : nat) (projectRef remotePath : string)
    (s : observed W) :
  (forall (r : outcome unit) (s1 : observed W) (l1 : walk_locals),
      IterateStoragePaths_in walk_locals PAGE_LIMIT (observed_buckets c)
        (observed_objects c) fuel projectRef remotePath
        (seed_callback (base_path remotePath) (observed_callback c))
        (s, {| dirQueue := []; empty := true |}) = (r, (s1, l1)) ->
      Forall good (dirQueue l1)) ->
  exists t_seed t_queue : list event,
    trace (snd (walk c PAGE_LIMIT fuel projectRef remotePath s))
      = (trace s ++ t_seed ++ t_queue)%list /\
    walk_trace good PAGE_LIMIT projectRef remotePath
      (is_done (fst (walk c PAGE_LIMIT fuel projectRef remotePath s)))
      t_seed t_queue.
Proof.
  intros Hseed. unfold walk, IterateStoragePathsAll.
  destruct (walk_body PAGE_LIMIT (observed_buckets c) (observed_objects c)
              fuel projectRef remotePath (observed_callback c)
              (s, {| dirQueue := []; empty := true |}))
    as [r [s' l']] eqn:Hrun.
  simpl. unfold walk_body in Hrun. apply bind_run in Hrun.
  destruct Hrun as [([] & [s1 l1] & H1 & H2)|[(e & H1 & ->)|[H1 ->]]].
  - destruct (seed_listing_part c PAGE_LIMIT _ _ _ _ _ _ _ _ _ H1)
      as (t1 & Ht1 & Hl1 & Hq1).
    specialize (Hq1 eq_refl). simpl in Hq1, Hl1.
    destruct (drain_loop_drains _ _ _ _ _ _ _ (Hseed _ _ _ H1) H2)
      as (t2 & Ht2 & Hd2).
    exists t1, t2. split; [now rewrite Ht2, Ht1, app_assoc|].
    left. split; [exact Hl1|]. now rewrite Hq1 in Hd2.
  - destruct (seed_listing_part c PAGE_LIMIT _ _ _ _ _ _ _ _ _ H1)
      as (t1 & Ht1 & Hl1 & _).
    exists t1, []. rewrite app_nil_r. split; [exact Ht1|].
    right. split; [reflexivity|]. split; [exact Hl1 | reflexivity].
  - destruct (seed_listing_part c PAGE_LIMIT _ _ _ _ _ _ _ _ _ H1)
      as (t1 & Ht1 & Hl1 & _).
    exists t1, []. rewrite app_nil_r. split; [exact Ht1|].
    right. split; [reflexivity|]. split; [exact Hl1 | reflexivity].
Qed.

End QueueTrace.

(** ** The order of a walk *)

(** C1, as the code has it.  For every storage client, consumer and start
    path, the trace of the walk is the trace of the listing of the start
    path followed by the trace of the loop on the queue.  The first part
    holds the calls of that listing on the storage client and no other: one
    [listBuckets], or the pages [0], [1], ... of the bucket and prefix of
    the start path up to the first page that is not full.  What it hands to
    the consumer are the leaf entries named in these answers, each as base
    path plus name, in the order listed; the folder entries are not
    delivered: as base path plus name they make the queue.  Only when this
    listing has ended does the second part begin: the turns of the loop,
    each of which takes a directory off the queue, lists it in the same
    way, delivers the leaves named in its answers as the path of that
    directory plus name, and puts its folders on the queue.  So every leaf
    of the first listing is delivered before anything found in a queued
    folder.  A walk that an error or the bound on its steps has stopped has
    a first part of this trace.  On a bucket [a] that holds [x.txt] and a
    folder [y/] with [z.txt] in it, the walk over [/a/] delivers
    [/a/x.txt], then [/a/y/z.txt], and nothing else. *)
Theorem first_listing_first :
  (forall (W : Type) (c : collaborators W) (PAGE_LIMIT : Z) (fuel : nat)
          (projectRef remotePath : string) (s : observed W),
      exists t_seed t_queue : list event,
        trace (snd (walk c PAGE_LIMIT fuel projectRef remotePath s))
          = (trace s ++ t_seed ++ t_queue)%list /\
        walk_trace (fun _ => True) PAGE_LIMIT projectRef remotePath
          (is_done (fst (walk c PAGE_LIMIT fuel projectRef remotePath s)))
          t_seed t_queue) /\
  (let run := walk (serve 100 nested_bucket) 100 5 "ref" "/a/" start in
   fst run = Done tt /\
   delivered (trace (snd run)) = ["/a/x.txt"; "/a/y/z.txt"]).
Proof.
  split.
  - intros W c PAGE_LIMIT fuel projectRef remotePath s.
    apply walk_walks; [trivial|].
    intros r s1 l1 _. apply Forall_forall. trivial.
  - cbv zeta. split; reflexivity.
Qed.

(** C1 as stated fails.  On the bucket of the example the folder [a/y/] is
    not delivered, and the paths delivered begin with a slash.  On a bucket
    with two folders the directory taken off the queue is the one put on
    it last, so the object two folders down, [/a/q/r/deep.txt], is
    delivered before the object one folder down, [/a/p/shallow.txt]. *)
Lemma walk_is_not_breadth_first :
  (let out :=
     delivered (trace (snd (walk (serve 100 nested_bucket) 100 5 "ref" "/a/" start))) in
   out = ["/a/x.txt"; "/a/y/z.txt"] /\
   ~ In "a/y/" out /\ ~ In "/a/y/" out /\ ~ In "a/x.txt" out) /\
  delivered (trace (snd (walk (serve 100 two_branches) 100 5 "ref" "/a/" start)))
    = ["/a/q/r/deep.txt"; "/a/p/shallow.txt"].
Proof.
  cbv zeta. repeat split;
    intros H; repeat (destruct H as [H|H]; [discriminate H|]); exact H.
Qed.

(** ** The paths a walk delivers *)




(** On that service the walk reports the bucket [b] and delivers the leaf
    of [full]. *)
Lemma walk_outputs_example :
  let run := walk (serve 100 [("full", [("", [file "x.txt"])]); ("b", [])])
               100 5 "ref" "/" start in
  fst run = Done tt /\
  delivered (trace (snd run)) = ["b/"; "/full/x.txt"].
Proof. cbv zeta. split; reflexivity. Qed.

(** The service of C10 must give its buckets names: after a bucket with an
    empty name has been listed, the directory [//] is on the queue, and
    when its listing is empty the report is [/]. *)
Lemma unnamed_bucket_report :
  delivered
    (trace (snd (walk unnamed_once 100 5 "ref" "/"
                   {| world := 0%nat; trace := [] |})))
  = ["/"].
Proof. reflexivity. Qed.


(** ** What the description of a trace rules out *)

(** A complete listing has called the storage client. *)
Lemma listing_calls_made (PAGE_LIMIT : Z) (projectRef path : string) :
  ~ listing_calls PAGE_LIMIT projectRef path true [].
Proof.
  unfold listing_calls. destruct (lists_buckets path).
  - intros (r & Hc & _). discriminate Hc.
  - intros (answers & Hc & _ & Hlast).
    destruct (Hlast eq_refl) as (init & objects & -> & _).
    destruct init; discriminate Hc.
Qed.

(** A walk that has returned without error has listed its start path: the
    trace of its first listing is not empty. *)
Lemma walk_trace_makes_calls (good : string -> Prop) (PAGE_LIMIT : Z)
    (projectRef remotePath : string) (t_queue : list event) :
  ~ walk_trace good PAGE_LIMIT projectRef remotePath true [] t_queue.
Proof.
  intros [[[Hc _] _]|[H _]]; [|discriminate H].
  exact (listing_calls_made _ _ _ Hc).
Qed.

(** A loop that has emptied a queue with a directory on it has listed that
    directory: its trace is not empty. *)
Lemma drains_makes_calls (good : string -> Prop) (PAGE_LIMIT : Z)
    (projectRef : string) (q : list string) (d : string) :
  ~ drains good PAGE_LIMIT projectRef (q ++ [d])%list true [].
Proof.
  intros H.
  inversion H as [E| |q' d' complete t t' _ [Hc _] _ Eq Ec Et|].
  - destruct (app_cons_not_nil _ _ _ E).
  - apply app_eq_nil in Et. destruct Et as [-> _].
    exact (listing_calls_made _ _ _ Hc).
Qed.

Lemma page_calls_second (projectRef bucket prefix : string) (i : Z)
    (answers : list (error + list client.ObjectResponse)) (ev1 ev2 : event)
    (calls : list event) :
  ev1 :: ev2 :: calls = page_calls projectRef bucket prefix i answers ->
  exists r, ev2 = ListObjectsCall projectRef bucket prefix (i + 1) r.
Proof.
  destruct answers as [|r1 [|r2 answers]]; simpl; intros H; try discriminate H.
  injection H as _ -> _. now exists r2.
Qed.

(** The description of the trace is exact on the order: on the bucket of
    the example, a trace with the same calls that delivers the leaf of the
    folder before the leaf of the first listing is not the trace of a
    walk. *)
Lemma walk_trace_orders :
  let t := [ListObjectsCall "ref" "a" "" 0 (inr [file "x.txt"; folder "y"]);
            ListObjectsCall "ref" "a" "y/" 0 (inr [file "z.txt"]);
            CallbackCall "/a/y/z.txt" None;
            CallbackCall "/a/x.txt" None] in
  ~ exists t_seed t_queue : list event,
      t = (t_seed ++ t_queue)%list /\
      walk_trace (fun _ => True) 100 "ref" "/a/" true t_seed t_queue.
Proof.
  cbv zeta. intros (t_seed & t_queue & Ht & [[[Hc (rest & Hl & Hd)] _]|[H _]]);
    [|discriminate H].
  destruct (Hd eq_refl) as [-> _]. clear Hd.
  unfold listing_calls in Hc.
  change (lists_buckets "/a/") with false in Hc. cbv iota in Hc.
  change (SplitBucketPrefix "/a/") with ("a", "") in Hc, Hl.
  simpl fst in Hc, Hl. simpl snd in Hc.
  destruct Hc as (answers & Hc & _ & Hlast).
  destruct (Hlast eq_refl) as (init & objects & -> & _). clear Hlast.
  destruct t_seed as [|e1 [|e2 t_seed]]; simpl in Ht.
  - destruct init; discriminate Hc.
  - injection Ht as <- _. discriminate Hl.
  - injection Ht as <- <- _.
    destruct (page_calls_second _ _ _ _ _ _ _ _ Hc) as [r Hr].
    discriminate Hr.
Qed.

(** The description of the trace is exact on the paths: a leaf listed in a
    folder and delivered as base path plus name, without the name of the
    folder, is not in the trace of a walk. *)
Lemma walk_trace_names_the_directory :
  let t := [ListObjectsCall "ref" "a" "" 0 (inr [folder "y"]);
            ListObjectsCall "ref" "a" "y/" 0 (inr [file "z.txt"]);
            CallbackCall "/a/z.txt" None] in
  ~ exists t_seed t_queue : list event,
      t = (t_seed ++ t_queue)%list /\
      walk_trace (fun _ => True) 100 "ref" "/a/" true t_seed t_queue.
Proof.
  cbv zeta. intros (t_seed & t_queue & Ht & [[[Hc _] Hq]|[H _]]);
    [|discriminate H].
  unfold listing_calls in Hc.
  change (lists_buckets "/a/") with false in Hc. cbv iota in Hc.
  change (SplitBucketPrefix "/a/") with ("a", "") in Hc, Hq.
  simpl fst in Hc, Hq. simpl snd in Hc.
  destruct Hc as (answers & Hc & _ & Hlast).
  destruct (Hlast eq_refl) as (init & objects & -> & _). clear Hlast.
  destruct t_seed as [|e1 [|e2 t_seed]]; simpl in Ht.
  - destruct init; discriminate Hc.
  - injection Ht as <- <-.
    change (folders_of (base_path "/a/")
              (listed "a" [ListObjectsCall "ref" "a" "" 0 (inr [folder "y"])]))
      with ([] ++ ["/a/y/"])%list in Hq.
    inversion Hq as [| |q d complete t t' _ Hl Hd Eq Ec Et|].
    apply (app_inj_tail q [] d "/a/y/") in Eq. destruct Eq as [-> ->].
    destruct Hl as [Hcalls (rest & Hl & Hr)].
    destruct (Hr eq_refl) as [-> _]. clear Hr.
    unfold listing_calls in Hcalls.
    change (lists_buckets "/a/y/") with false in Hcalls. cbv iota in Hcalls.
    change (SplitBucketPrefix "/a/y/") with ("a", "y/") in Hcalls, Hl.
    simpl fst in Hcalls, Hl. simpl snd in Hcalls.
    destruct Hcalls as (answers' & Hcalls & _ & Hlast).
    destruct (Hlast eq_refl) as (init' & objects' & -> & _). clear Hlast.
    destruct t as [|e1 [|e2 [|e3 t]]]; simpl in Et.
    + destruct init'; discriminate Hcalls.
    + injection Et as -> _. discriminate Hl.
    + injection Et as -> -> _. discriminate Hl.
    + destruct t; discriminate Et.
  - injection Ht as <- <- _.
    destruct (page_calls_second _ _ _ _ _ _ _ _ Hc) as [r Hr].
    discriminate Hr.
Qed.
